(** * Sliding-puzzle solver: a shallow embedding of [puzzle_solver.py]

    The Python module keeps every [PuzzleState] as a heap object that
    other states reach through their [parent] reference, and A* assigns
    the [cost] attribute of objects that already exist.  The embedding
    therefore threads an explicit object store through every function:
    a constructor call appends one object to the store and returns its
    address, an attribute assignment updates the object in place.

    Exceptions are values ([Raise]); the three [while] loops that have no
    syntactic bound take fuel and answer [OutOfFuel] when it runs out. *)

From Stdlib Require Import ZArith Lia.
From stdpp Require Import strings pretty gmap list.

Local Open Scope Z_scope.

(** ** Python-level outcomes and the store monad *)

Inductive exn : Set :=
| TypeError    (* unpacking [None] in [row, col = self.find_empty()] *)
| IndexError   (* list subscript out of range *)
| KeyError     (* dict subscript with an absent key *)
| BadAddress.  (* the store holds no object at an address; not a Python
                  exception, and unreachable for constructor-made addresses *)

Inductive outcome (A : Type) : Type :=
| Ok (a : A)
| Raise (e : exn)
| OutOfFuel.
Arguments Ok {A} a.
Arguments Raise {A} e.
Arguments OutOfFuel {A}.

(** Observing a run: whether it returned, and a view of what it returned. *)
Definition is_Ok {A} (o : outcome A) : bool :=
  match o with Ok _ => true | _ => false end.

Definition observe {A B} (f : A → B) (o : outcome A) : option B :=
  match o with Ok a => Some (f a) | _ => None end.

Abbreviation Board := (list (list Z)).
Abbreviation addr := nat.

Record PuzzleState : Type := mkPuzzleState {
  board  : Board;
  parent : option addr;
  move   : option string;
  depth  : Z;
  cost   : Z;
  size   : nat
}.

Abbreviation store := (list PuzzleState).

Definition M (A : Type) : Type := store → outcome (A * store).

Definition ret {A} (a : A) : M A := fun h => Ok (a, h).

Definition bind {A B} (m : M A) (k : A → M B) : M B := fun h =>
  match m h with
  | Ok (a, h') => k a h'
  | Raise e => Raise e
  | OutOfFuel => OutOfFuel
  end.

Definition lift {A} (o : outcome A) : M A := fun h =>
  match o with
  | Ok a => Ok (a, h)
  | Raise e => Raise e
  | OutOfFuel => OutOfFuel
  end.

Definition raise {A} (e : exn) : M A := fun _ => Raise e.

#[global] Instance M_ret : MRet M := @ret.
#[global] Instance M_bind : MBind M := fun A B k m => bind m k.

(** Reading an object, the constructor, and the one attribute assignment
    the module performs ([state.cost = ...]). *)

Definition deref (a : addr) : M PuzzleState := fun h =>
  match h !! a with
  | Some s => Ok (s, h)
  | None => Raise BadAddress
  end.

(** [PuzzleState.__init__]: the board is deep-copied (a board is a value
    here, so the copy is the board itself), [size] is [len(board)]. *)
Definition PuzzleState_init (b : Board) (p : option addr) (mv : option string)
    (d c : Z) : M addr := fun h =>
  Ok (length h, h ++ [mkPuzzleState b p mv d c (length b)]).

Definition with_cost (c : Z) (s : PuzzleState) : PuzzleState :=
  mkPuzzleState (board s) (parent s) (move s) (depth s) c (size s).

Definition set_cost (a : addr) (c : Z) : M unit := fun h =>
  match h !! a with
  | Some _ => Ok (tt, alter (with_cost c) a h)
  | None => Raise BadAddress
  end.

(** ** Board operations *)

(** [b[r][c]] for non-negative indices. *)
Definition get_cell (b : Board) (r c : nat) : outcome Z :=
  match b !! r with
  | None => Raise IndexError
  | Some row =>
    match row !! c with
    | None => Raise IndexError
    | Some v => Ok v
    end
  end.

(** [b[r][c] = v] on a board whose cell exists. *)
Definition set_cell (b : Board) (r c : nat) (v : Z) : Board :=
  alter (fun row => <[c := v]> row) r b.

(** The inner loop of [find_empty]: [for j in range(size)]. *)
Fixpoint find_empty_row (b : Board) (i : nat) (js : list nat)
    : outcome (option (nat * nat)) :=
  match js with
  | [] => Ok None
  | j :: js' =>
    match get_cell b i j with
    | Ok v => if bool_decide (v = 0) then Ok (Some (i, j))
              else find_empty_row b i js'
    | Raise e => Raise e
    | OutOfFuel => OutOfFuel
    end
  end.

(** The outer loop of [find_empty]: [for i in range(size)]. *)
Fixpoint find_empty_rows (b : Board) (n : nat) (rows : list nat)
    : outcome (option (nat * nat)) :=
  match rows with
  | [] => Ok None
  | i :: rows' =>
    match find_empty_row b i (seq 0 n) with
    | Ok None => find_empty_rows b n rows'
    | r => r
    end
  end.

Definition find_empty (s : PuzzleState) : outcome (option (nat * nat)) :=
  find_empty_rows (board s) (size s) (seq 0 (size s)).

Definition goal2 : Board := [[1; 2]; [3; 0]].
Definition goal3 : Board := [[1; 2; 3]; [4; 5; 6]; [7; 8; 0]].

Definition get_goal_state (s : PuzzleState) : Board :=
  if bool_decide (size s = 2%nat) then goal2 else goal3.

Definition is_goal (s : PuzzleState) : bool :=
  bool_decide (board s = get_goal_state s).

(** The [moves] table of [get_successors], in source order. *)
Definition moves : list (Z * Z * string) :=
  [(-1, 0, "UP"); (1, 0, "DOWN"); (0, -1, "LEFT"); (0, 1, "RIGHT")].

(** The tuple assignment
    [nb[row][col], nb[nr][nc] = nb[nr][nc], nb[row][col]]:
    both reads happen first, then the two writes left to right. *)
Definition swap_cells (b : Board) (row col nr nc : nat) : outcome Board :=
  match get_cell b nr nc with
  | Ok v1 =>
    match get_cell b row col with
    | Ok v2 => Ok (set_cell (set_cell b row col v1) nr nc v2)
    | Raise e => Raise e
    | OutOfFuel => OutOfFuel
    end
  | Raise e => Raise e
  | OutOfFuel => OutOfFuel
  end.

Definition in_bounds (n : nat) (r c : Z) : bool :=
  bool_decide (0 ≤ r < Z.of_nat n) && bool_decide (0 ≤ c < Z.of_nat n).

(** The [for dr, dc, move_name in moves] loop of [get_successors]. *)
Fixpoint successors_loop (self : addr) (s : PuzzleState) (row col : nat)
    (mvs : list (Z * Z * string)) : M (list addr) :=
  match mvs with
  | [] => ret []
  | (dr, dc, move_name) :: mvs' =>
    let new_row := Z.of_nat row + dr in
    let new_col := Z.of_nat col + dc in
    if in_bounds (size s) new_row new_col then
      new_board ← lift (swap_cells (board s) row col
                          (Z.to_nat new_row) (Z.to_nat new_col));
      new_state ← PuzzleState_init new_board (Some self) (Some move_name)
                    (depth s + 1) (cost s + 1);
      rest ← successors_loop self s row col mvs';
      ret (new_state :: rest)
    else successors_loop self s row col mvs'
  end.

Definition get_successors (self : addr) : M (list addr) :=
  s ← deref self;
  pos ← lift (find_empty s);
  match pos with
  | None => raise TypeError
  | Some (row, col) => successors_loop self s row col moves
  end.

(** The two [goal_positions] dictionaries of [manhattan_distance]. *)
Definition goal_positions2 : gmap Z (nat * nat) :=
  list_to_map [(1, (0, 0)%nat); (2, (0, 1)%nat);
               (3, (1, 0)%nat); (0, (1, 1)%nat)].
Definition goal_positions3 : gmap Z (nat * nat) :=
  list_to_map [(1, (0, 0)%nat); (2, (0, 1)%nat); (3, (0, 2)%nat);
               (4, (1, 0)%nat); (5, (1, 1)%nat); (6, (1, 2)%nat);
               (7, (2, 0)%nat); (8, (2, 1)%nat); (0, (2, 2)%nat)].

Definition goal_positions (n : nat) : gmap Z (nat * nat) :=
  if bool_decide (n = 2%nat) then goal_positions2 else goal_positions3.

(** One cell of the double loop: its contribution to [distance]. *)
Definition tile_distance (n : nat) (b : Board) (i j : nat) : outcome Z :=
  match get_cell b i j with
  | Ok tile =>
    if bool_decide (tile ≠ 0) then
      match goal_positions n !! tile with
      | Some (goal_row, goal_col) =>
        Ok (Z.abs (Z.of_nat i - Z.of_nat goal_row)
            + Z.abs (Z.of_nat j - Z.of_nat goal_col))
      | None => Raise KeyError
      end
    else Ok 0
  | Raise e => Raise e
  | OutOfFuel => OutOfFuel
  end.

Fixpoint manhattan_row (n : nat) (b : Board) (i : nat) (js : list nat)
    (distance : Z) : outcome Z :=
  match js with
  | [] => Ok distance
  | j :: js' =>
    match tile_distance n b i j with
    | Ok d => manhattan_row n b i js' (distance + d)
    | r => r
    end
  end.

Fixpoint manhattan_rows (n : nat) (b : Board) (rows : list nat)
    (distance : Z) : outcome Z :=
  match rows with
  | [] => Ok distance
  | i :: rows' =>
    match manhattan_row n b i (seq 0 n) distance with
    | Ok d => manhattan_rows n b rows' d
    | r => r
    end
  end.

Definition manhattan_distance (s : PuzzleState) : outcome Z :=
  manhattan_rows (size s) (board s) (seq 0 (size s)) 0.

(** ** Result dictionaries *)

(** Values stored in a result [dict].  [time_taken] is a wall-clock
    reading; it is kept as a key with the opaque value [VTime]. *)
Inductive value : Type :=
| VBool (b : bool)
| VStr (s : string)
| VInt (z : Z)
| VPath (p : list Board)
| VTime.

Abbreviation result := (gmap string value).

(** ** Path reconstruction

    [while state: path.append(state.to_list()); state = state.parent].
    A parent chain that has not ended after [S (length h)] steps has
    visited some address twice, so the Python loop would never end. *)
Fixpoint walk_parents (fuel : nat) (state : option addr) (path : list Board)
    : M (list Board) :=
  match state with
  | None => ret path
  | Some a =>
    match fuel with
    | O => fun _ => OutOfFuel
    | S fuel' =>
      s ← deref a;
      walk_parents fuel' (parent s) (path ++ [board s])
    end
  end.

Definition reconstruct_path (current : addr) : M (list Board) := fun h =>
  (path ← walk_parents (S (length h)) (Some current) [];
   ret (reverse path)) h.

(** ** Breadth-first search *)

(** [for successor in ...: if successor not in visited:
       visited.add(successor); frontier.append(successor)]
    The visited set hashes and compares states by board, so it is the
    set of their boards. *)
Fixpoint append_unvisited (succs : list addr) (visited : gset Board)
    (frontier : list addr) : M (gset Board * list addr) :=
  match succs with
  | [] => ret (visited, frontier)
  | successor :: succs' =>
    s ← deref successor;
    if bool_decide (board s ∉ visited) then
      append_unvisited succs' ({[board s]} ∪ visited) (frontier ++ [successor])
    else append_unvisited succs' visited frontier
  end.

Fixpoint bfs_loop (fuel : nat) (queue : list addr) (visited : gset Board)
    (nodes_expanded max_queue_size : Z) : M result :=
  match fuel with
  | O => fun _ => OutOfFuel
  | S fuel' =>
    match queue with
    | [] =>
      ret (list_to_map [("success", VBool false); ("algorithm", VStr "BFS");
                        ("nodes_expanded", VInt nodes_expanded);
                        ("time_taken", VTime);
                        ("max_queue_size", VInt max_queue_size)])
    | current :: queue' =>
      let max_queue_size := Z.max max_queue_size (Z.of_nat (length queue)) in
      let nodes_expanded := nodes_expanded + 1 in
      cur ← deref current;
      if is_goal cur then
        path ← reconstruct_path current;
        ret (list_to_map [("success", VBool true); ("algorithm", VStr "BFS");
                          ("solution_path", VPath path);
                          ("solution_depth", VInt (Z.of_nat (length path) - 1));
                          ("nodes_expanded", VInt nodes_expanded);
                          ("time_taken", VTime);
                          ("max_queue_size", VInt max_queue_size)])
      else
        succs ← get_successors current;
        '(visited', queue'') ← append_unvisited succs visited queue';
        bfs_loop fuel' queue'' visited' nodes_expanded max_queue_size
    end
  end.

Definition bfs_solve (fuel : nat) (initial_state : addr) : M result :=
  s0 ← deref initial_state;
  bfs_loop fuel [initial_state] {[board s0]} 0 0.

(** ** Depth-limited depth-first search *)

(** The stack is a Python list: [append] adds at the end and [pop]
    removes the last element. *)
Definition list_pop {A} (l : list A) : option (A * list A) :=
  match reverse l with
  | [] => None
  | x :: r => Some (x, reverse r)
  end.

Fixpoint dfs_loop (fuel : nat) (depth_limit : Z) (stack : list addr)
    (visited : gset Board) (nodes_expanded max_stack_size : Z) : M result :=
  match fuel with
  | O => fun _ => OutOfFuel
  | S fuel' =>
    match list_pop stack with
    | None =>
      ret (list_to_map [("success", VBool false); ("algorithm", VStr "DFS");
                        ("nodes_expanded", VInt nodes_expanded);
                        ("time_taken", VTime);
                        ("max_stack_size", VInt max_stack_size);
                        ("message",
                         VStr ("No solution found within depth limit of "
                               +:+ pretty depth_limit))])
    | Some (current, stack') =>
      let max_stack_size := Z.max max_stack_size (Z.of_nat (length stack)) in
      let nodes_expanded := nodes_expanded + 1 in
      cur ← deref current;
      if is_goal cur then
        path ← reconstruct_path current;
        ret (list_to_map [("success", VBool true); ("algorithm", VStr "DFS");
                          ("solution_path", VPath path);
                          ("solution_depth", VInt (Z.of_nat (length path) - 1));
                          ("nodes_expanded", VInt nodes_expanded);
                          ("time_taken", VTime);
                          ("max_stack_size", VInt max_stack_size)])
      else if bool_decide (depth cur < depth_limit) then
        successors ← get_successors current;
        '(visited', stack'') ←
          append_unvisited (reverse successors) visited stack';
        dfs_loop fuel' depth_limit stack'' visited' nodes_expanded max_stack_size
      else
        dfs_loop fuel' depth_limit stack' visited nodes_expanded max_stack_size
    end
  end.

Definition dfs_solve (fuel : nat) (initial_state : addr) (depth_limit : Z)
    : M result :=
  s0 ← deref initial_state;
  dfs_loop fuel depth_limit [initial_state] {[board s0]} 0 0.

(** ** The [heapq] operations A* uses

    Transcribed from the standard library's [heapq.py]; [lt] is the [<]
    of the stored items.  The two sift loops move a hole through the
    list, so their fuel ([pos], resp. the list length) always suffices. *)
Section heapq.
Context {T : Type} (lt : T → T → bool).

Fixpoint siftdown_loop (fuel : nat) (heap : list T) (startpos pos : nat)
    (newitem : T) : list T :=
  match fuel with
  | O => <[pos := newitem]> heap
  | S fuel' =>
    if bool_decide (startpos < pos)%nat then
      let parentpos := ((pos - 1) `div` 2)%nat in
      match heap !! parentpos with
      | Some parent_item =>
        if lt newitem parent_item then
          siftdown_loop fuel' (<[pos := parent_item]> heap)
                        startpos parentpos newitem
        else <[pos := newitem]> heap
      | None => <[pos := newitem]> heap
      end
    else <[pos := newitem]> heap
  end.

Definition _siftdown (heap : list T) (startpos pos : nat) : list T :=
  match heap !! pos with
  | Some newitem => siftdown_loop pos heap startpos pos newitem
  | None => heap
  end.

(** The [while childpos < endpos] loop of [_siftup]; returns the list
    and the final position of the hole. *)
Fixpoint siftup_loop (fuel : nat) (heap : list T) (endpos pos : nat)
    : list T * nat :=
  match fuel with
  | O => (heap, pos)
  | S fuel' =>
    let childpos := (2 * pos + 1)%nat in
    if bool_decide (childpos < endpos)%nat then
      let rightpos := (childpos + 1)%nat in
      let childpos :=
        if bool_decide (rightpos < endpos)%nat then
          match heap !! childpos, heap !! rightpos with
          | Some c, Some r => if negb (lt c r) then rightpos else childpos
          | _, _ => childpos
          end
        else childpos in
      match heap !! childpos with
      | Some c => siftup_loop fuel' (<[pos := c]> heap) endpos childpos
      | None => (heap, pos)
      end
    else (heap, pos)
  end.

Definition _siftup (heap : list T) (pos : nat) : list T :=
  match heap !! pos with
  | Some newitem =>
    let '(heap', pos') := siftup_loop (length heap) heap (length heap) pos in
    _siftdown (<[pos' := newitem]> heap') pos pos'
  | None => heap
  end.

Definition heappush (heap : list T) (item : T) : list T :=
  let heap := heap ++ [item] in
  _siftdown heap 0 (length heap - 1).

(** [None] stands for the [IndexError] of popping an empty list. *)
Definition heappop (heap : list T) : option (T * list T) :=
  match list_pop heap with
  | None => None
  | Some (lastelt, heap) =>
    match heap with
    | [] => Some (lastelt, heap)
    | returnitem :: _ => Some (returnitem, _siftup (<[0%nat := lastelt]> heap) 0)
    end
  end.
End heapq.

(** ** A* search *)

(** [<] on the queue items [(f, h, state)]: Python compares tuples at the
    first position where they differ under [==]; states are [==] when
    their boards are, and [<] on states is [PuzzleState.__lt__], which
    reads the current [cost] attributes. *)
Definition item_lt (h : store) (x y : Z * Z * addr) : bool :=
  let '(f1, h1, a1) := x in
  let '(f2, h2, a2) := y in
  if bool_decide (f1 ≠ f2) then bool_decide (f1 < f2)
  else if bool_decide (h1 ≠ h2) then bool_decide (h1 < h2)
  else match h !! a1, h !! a2 with
       | Some s1, Some s2 =>
         if bool_decide (board s1 ≠ board s2)
         then bool_decide (cost s1 < cost s2) else false
       | _, _ => false
       end.

Fixpoint astar_visit (succs : list addr) (visited : gset Board)
    (priority_queue : list (Z * Z * addr))
    : M (gset Board * list (Z * Z * addr)) :=
  match succs with
  | [] => ret (visited, priority_queue)
  | successor :: succs' =>
    s ← deref successor;
    if bool_decide (board s ∉ visited) then
      let g_n := depth s in
      h_n ← lift (manhattan_distance s);
      let f_n := g_n + h_n in
      _ ← set_cost successor f_n;
      pq ← (fun h => Ok (heappush (item_lt h) priority_queue
                           (f_n, h_n, successor), h));
      astar_visit succs' ({[board s]} ∪ visited) pq
    else astar_visit succs' visited priority_queue
  end.

Fixpoint astar_loop (fuel : nat) (priority_queue : list (Z * Z * addr))
    (visited : gset Board) (nodes_expanded max_queue_size : Z) : M result :=
  match fuel with
  | O => fun _ => OutOfFuel
  | S fuel' =>
    popped ← (fun h => Ok (heappop (item_lt h) priority_queue, h));
    match popped with
    | None =>
      ret (list_to_map [("success", VBool false); ("algorithm", VStr "A*");
                        ("nodes_expanded", VInt nodes_expanded);
                        ("time_taken", VTime);
                        ("max_queue_size", VInt max_queue_size)])
    | Some ((_, _, current), priority_queue') =>
      let max_queue_size :=
        Z.max max_queue_size (Z.of_nat (length priority_queue)) in
      let nodes_expanded := nodes_expanded + 1 in
      cur ← deref current;
      if is_goal cur then
        path ← reconstruct_path current;
        ret (list_to_map [("success", VBool true); ("algorithm", VStr "A*");
                          ("solution_path", VPath path);
                          ("solution_depth", VInt (Z.of_nat (length path) - 1));
                          ("nodes_expanded", VInt nodes_expanded);
                          ("time_taken", VTime);
                          ("max_queue_size", VInt max_queue_size)])
      else
        succs ← get_successors current;
        '(visited', pq) ← astar_visit succs visited priority_queue';
        astar_loop fuel' pq visited' nodes_expanded max_queue_size
    end
  end.

Definition astar_solve (fuel : nat) (initial_state : addr) : M result :=
  s0 ← deref initial_state;
  c ← lift (manhattan_distance s0);
  _ ← set_cost initial_state c;
  astar_loop fuel [(c, c, initial_state)] {[board s0]} 0 0.

(** ** Dispatch *)

Definition solve_puzzle (fuel : nat) (initial_board : Board) (algorithm : string)
    : M result :=
  let size := length initial_board in
  if bool_decide (size ∉ [2; 3]%nat) then
    ret (list_to_map
           [("success", VBool false);
            ("error", VStr ("Invalid puzzle size. Only 2×2 and 3×3 puzzles are supported. Got "
                            +:+ pretty size +:+ "×" +:+ pretty size +:+ "."))])
  else if existsb (fun row => bool_decide (length row ≠ size)) initial_board then
    ret (list_to_map
           [("success", VBool false);
            ("error", VStr ("Invalid puzzle: All rows must have the same size ("
                            +:+ pretty size +:+ ")."))])
  else
    initial_state ← PuzzleState_init initial_board None None 0 0;
    if bool_decide (algorithm = "BFS") then bfs_solve fuel initial_state
    else if bool_decide (algorithm = "DFS") then dfs_solve fuel initial_state 50
    else if bool_decide (algorithm = "A*") then astar_solve fuel initial_state
    else
      ret (list_to_map [("success", VBool false);
                        ("error", VStr ("Unknown algorithm: " +:+ algorithm))]).

(** ** Specification vocabulary *)

(** A board of [n] rows of [n] cells. *)
Definition shaped (n : nat) (b : Board) : Prop :=
  length b = n ∧ Forall (λ row, length row = n) b.

(** The permutation invariant: the cells are 0 .. n*n-1, each once. *)
Definition valid_board (n : nat) (b : Board) : Prop :=
  shaped n b ∧ mjoin b ≡ₚ seqZ 0 (Z.of_nat (n * n)).

Definition adjacent (r c r' c' : nat) : Prop :=
  (r' = r ∧ (c' = S c ∨ c = S c')) ∨ (c' = c ∧ (r' = S r ∨ r = S r')).

(** [slide b b']: [b'] is [b] with the blank exchanged with the tile in
    an orthogonally adjacent cell. *)
Definition slide (b b' : Board) : Prop :=
  ∃ r c r' c' t,
    get_cell b r c = Ok 0 ∧ get_cell b r' c' = Ok t ∧ adjacent r c r' c' ∧
    b' = set_cell (set_cell b r c t) r' c' 0.

(** Paths of the unit-cost state graph, counted in moves. *)
Inductive reach : nat → Board → Board → Prop :=
| reach_O b : reach 0 b b
| reach_S k b b' b'' : reach k b b' → slide b' b'' → reach (S k) b b''.

Definition shortest (b g : Board) (d : nat) : Prop :=
  reach d b g ∧ ∀ k, reach k b g → (d ≤ k)%nat.

(** The successor boards and move names [get_successors] builds, as a
    function of the parent's board alone. *)
Fixpoint child_specs (n : nat) (b : Board) (row col : nat)
    (mvs : list (Z * Z * string)) : outcome (list (Board * string)) :=
  match mvs with
  | [] => Ok []
  | (dr, dc, move_name) :: mvs' =>
    let new_row := Z.of_nat row + dr in
    let new_col := Z.of_nat col + dc in
    if in_bounds n new_row new_col then
      match swap_cells b row col (Z.to_nat new_row) (Z.to_nat new_col) with
      | Ok new_board =>
        match child_specs n b row col mvs' with
        | Ok rest => Ok ((new_board, move_name) :: rest)
        | r => r
        end
      | Raise e => Raise e
      | OutOfFuel => OutOfFuel
      end
    else child_specs n b row col mvs'
  end.

Definition mk_child (self : addr) (s : PuzzleState) (c : Board * string)
    : PuzzleState :=
  mkPuzzleState c.1 (Some self) (Some c.2) (depth s + 1) (cost s + 1)
                (length c.1).

(** The attributes of a state other than [cost]. *)
Definition frame (s : PuzzleState)
    : Board * option addr * option string * Z * nat :=
  (board s, parent s, move s, depth s, size s).

(** [extends h h']: the store [h'] holds every object of [h] at the same
    address, with every attribute but [cost] unchanged. *)
Definition extends (h h' : store) : Prop :=
  (frame <$> h) `prefix_of` (frame <$> h').

(** [path_to h a l]: following [parent] from the object at [a] ends at an
    object without parent, and [l] lists the boards met, root first. *)
Inductive path_to (h : store) : addr → list Board → Prop :=
| path_root a s :
    h !! a = Some s → parent s = None → path_to h a [board s]
| path_child a s p l :
    h !! a = Some s → parent s = Some p → (p < a)%nat →
    path_to h p l → path_to h a (l ++ [board s]).

Definition linked (R : Board → Board → Prop) (l : list Board) : Prop :=
  ∀ i x y, l !! i = Some x → l !! S i = Some y → R x y.

(** One move of a solution path: the blank is exchanged with an
    adjacent tile, and the board changes. *)
Definition blank_move (b b' : Board) : Prop := slide b b' ∧ b ≠ b'.

Definition goal_board (n : nat) : Board :=
  if bool_decide (n = 2%nat) then goal2 else goal3.

(** What the visiting loop of BFS and DFS computes, as a function of the
    store it reads. *)
Fixpoint visit (h : store) (succs : list addr) (V : gset Board)
    (F : list addr) : gset Board * list addr :=
  match succs with
  | [] => (V, F)
  | c :: cs =>
    match h !! c with
    | Some s =>
      if bool_decide (board s ∉ V)
      then visit h cs ({[board s]} ∪ V) (F ++ [c])
      else visit h cs V F
    | None => (V, F)
    end
  end.

(** All lists of length [m] over [xs], and all [n]×[n] boards over
    0 .. n*n-1: a finite superset of the valid boards. *)
Fixpoint lists_of {A} (xs : list A) (m : nat) : list (list A) :=
  match m with
  | O => [[]]
  | S m' => x ← xs; l ← lists_of xs m'; [x :: l]
  end.

Definition all_boards (n : nat) : gset Board :=
  list_to_set (lists_of (lists_of (seqZ 0 (Z.of_nat (n * n))) n) n).

(** The success dictionary the three searches build ([metric] is
    ["max_queue_size"] or ["max_stack_size"]). *)
Definition success_dict (alg metric : string) (path : list Board)
    (nodes_expanded max_size : Z) : result :=
  list_to_map [("success", VBool true); ("algorithm", VStr alg);
               ("solution_path", VPath path);
               ("solution_depth", VInt (Z.of_nat (length path) - 1));
               ("nodes_expanded", VInt nodes_expanded);
               ("time_taken", VTime);
               (metric, VInt max_size)].

(** What a search that returned has established, given a predicate [P]
    on frontier states and a predicate [S] on stores: either it failed,
    or it popped a goal state satisfying [P] and returned its path. *)
Definition search_post (P : store → gset Board → addr → Prop)
    (S : store → Prop) (alg metric : string) (msg : option value)
    (r : result) (h : store) : Prop :=
  S h ∧
  ((r !! "success" = Some (VBool false) ∧ r !! "solution_path" = None
    ∧ r !! "error" = None ∧ r !! "message" = msg) ∨
   ∃ cur s V path ne mx,
     P h V cur ∧ h !! cur = Some s ∧ is_goal s = true ∧
     reconstruct_path cur h = Ok (path, h) ∧
     r = success_dict alg metric path ne mx).

(** The addresses [cs] are among those of the children [l] appended to
    the store [h]. *)
Definition children_of (h : store) (l : list (Board * string))
    (cs : list addr) : Prop :=
  Forall (λ a, ∃ i c, a = (length h + i)%nat ∧ l !! i = Some c) cs.

(** The message of the failure dictionary of [dfs_solve]. *)
Definition dfs_message (depth_limit : Z) : value :=
  VStr ("No solution found within depth limit of " +:+ pretty depth_limit).

(** A frontier state of a search from the board [b0] of a state of size
    [n]: its parent chain spells a path of moves from [b0], and its board
    is in the visited set. *)
Definition node_ok (b0 : Board) (n : nat) (h : store) (V : gset Board)
    (a : addr) : Prop :=
  ∃ s l, h !! a = Some s ∧ size s = n ∧ length (board s) = n ∧
         path_to h a l ∧ head l = Some b0 ∧ linked blank_move l ∧
         board s ∈ V.

(** A state whose board satisfies the permutation invariant. *)
Definition node_valid (n : nat) (h : store) (a : addr) : Prop :=
  ∃ s, h !! a = Some s ∧ valid_board n (board s) ∧ size s = n.

(** Every object from address [n0] on is a valid state one level below
    its parent. *)
Definition created_valid (n : nat) (n0 : nat) (h : store) : Prop :=
  ∀ a s, (n0 ≤ a)%nat → h !! a = Some s →
    valid_board n (board s) ∧ size s = n ∧
    ∃ p sp, parent s = Some p ∧ h !! p = Some sp ∧ depth s = depth sp + 1.

(** Every object from address [n0] on was generated from a parent whose
    depth is below the limit. *)
Definition created_below (limit : Z) (n0 : nat) (h : store) : Prop :=
  ∀ a s, (n0 ≤ a)%nat → h !! a = Some s →
    ∃ p sp, parent s = Some p ∧ h !! p = Some sp ∧ depth sp < limit.

(** A state in the BFS queue, [k] moves from the initial board [b0] and
    no closer. *)
Definition bfs_node (b0 : Board) (n : nat) (h : store) (V : gset Board)
    (k : nat) (a : addr) : Prop :=
  ∃ s l, h !! a = Some s ∧ size s = n ∧ path_to h a l ∧ length l = S k ∧
         reach k b0 (board s) ∧ (∀ k', reach k' b0 (board s) → (k ≤ k')%nat) ∧
         board s ∈ V ∧ valid_board n (board s).

(** The invariant of [bfs_loop]: the queue holds states of level [d]
    followed by states of level [d+1]; every visited board is in the queue
    or is a non-goal board whose neighbours are all visited; every board
    within [d] moves of [b0] is visited. *)
Definition bfs_inv (b0 : Board) (n : nat) (h : store) (Q : list addr)
    (V : gset Board) : Prop :=
  ∃ d Q1 Q2,
    Q = Q1 ++ Q2 ∧ (Q1 = [] → Q2 = []) ∧
    Forall (bfs_node b0 n h V d) Q1 ∧ Forall (bfs_node b0 n h V (S d)) Q2 ∧
    (∀ v, v ∈ V → valid_board n v) ∧
    (∀ v, v ∈ V →
       (∃ a s, a ∈ Q ∧ h !! a = Some s ∧ board s = v) ∨
       (v ≠ goal_board n ∧ ∀ w, slide v w → w ∈ V)) ∧
    (Q ≠ [] → ∀ w k, reach k b0 w → (k ≤ d)%nat → w ∈ V) ∧
    b0 ∈ V.

(** The contribution of tile [t] at cell [(i, j)] to the heuristic, and
    the heuristic as a function of size and board. *)
Definition tile_cost (n : nat) (t : Z) (i j : nat) : Z :=
  if bool_decide (t ≠ 0) then
    match goal_positions n !! t with
    | Some (goal_row, goal_col) =>
      Z.abs (Z.of_nat i - Z.of_nat goal_row)
      + Z.abs (Z.of_nat j - Z.of_nat goal_col)
    | None => 0
    end
  else 0.

Definition md (n : nat) (b : Board) : outcome Z :=
  manhattan_rows n b (seq 0 n) 0.

(** The boards one move away from [b], as [get_successors] computes them
    (empty where it raises), and a check that a list of boards is a path
    of such moves. *)
Definition next_boards (n : nat) (b : Board) : list Board :=
  match find_empty_rows b n (seq 0 n) with
  | Ok (Some (row, col)) =>
    match child_specs n b row col moves with
    | Ok l => l.*1
    | _ => []
    end
  | _ => []
  end.

Fixpoint path_ok (n : nat) (l : list Board) : bool :=
  match l with
  | b :: ((b' :: _) as l') => bool_decide (b' ∈ next_boards n b) && path_ok n l'
  | _ => true
  end.

(** The state [solve_puzzle] constructs from a board. *)
Definition initial_state (b : Board) : PuzzleState :=
  mkPuzzleState b None None 0 0 (length b).

(** The shape [solve_puzzle] accepts: 2 or 3 rows, each as long as the
    board. *)
Definition shape_ok (b : Board) : Prop :=
  (length b = 2 ∨ length b = 3)%nat ∧ Forall (λ row, length row = length b) b.

(** A solvable board whose shortest solution has 10 moves. *)
Definition detour_board : Board := [[1; 3; 5]; [4; 0; 8]; [7; 6; 2]].

(** The move of the table that undoes a move of the table. *)
Definition opposite_move (m : string) : string :=
  if bool_decide (m = "UP") then "DOWN"
  else if bool_decide (m = "DOWN") then "UP"
  else if bool_decide (m = "LEFT") then "RIGHT"
  else "LEFT".

(** [(i, j)] comes before [(r, c)] in the row-major scan of an
    [n]-column board. *)
Definition scanned_before (n i j r c : nat) : Prop :=
  (i < r ∧ j < n)%nat ∨ (i = r ∧ j < c)%nat.

(** A frontier state of a search from the board [b0]: a valid state of
    size [n] whose parent chain ends, whose board can be reached from
    [b0] and is in the visited set. *)
Definition live_node (b0 : Board) (n : nat) (h : store) (V : gset Board)
    (a : addr) : Prop :=
  ∃ s l k, h !! a = Some s ∧ size s = n ∧ valid_board n (board s) ∧
           path_to h a l ∧ reach k b0 (board s) ∧ board s ∈ V.

(** The visited set of a search without depth limit: every visited board
    is the board of a frontier state, or is not the goal and has all its
    neighbours visited. *)
Definition closed_inv (b0 : Board) (n : nat) (h : store) (F : list addr)
    (V : gset Board) : Prop :=
  b0 ∈ V ∧
  ∀ v, v ∈ V →
    (∃ a s, a ∈ F ∧ h !! a = Some s ∧ board s = v) ∨
    (v ≠ goal_board n ∧ ∀ w, slide v w → w ∈ V).

(** What a complete search reports: success exactly when the goal can
    be reached from [b0]. *)
Definition decides (b0 : Board) (n : nat) (r : result) : Prop :=
  (r !! "success" = Some (VBool true) ∧ ∃ k, reach k b0 (goal_board n)) ∨
  (r !! "success" = Some (VBool false) ∧ ∀ k, ¬ reach k b0 (goal_board n)).

#[local] Set Warnings "-clear-no-such-hyp".

(** * Properties *)

(** ** The store monad *)

Lemma is_Ok_inv {A} (o : outcome A) : is_Ok o = true → ∃ a, o = Ok a.
Proof. destruct o; [eauto|done..]. Qed.

Lemma bind_unfold {A B} (m : M A) (k : A → M B) h :
  (m ≫= k) h = match m h with
               | Ok (a, h') => k a h'
               | Raise e => Raise e
               | OutOfFuel => OutOfFuel
               end.
Proof. reflexivity. Qed.

Lemma bind_Ok {A B} (m : M A) (k : A → M B) h r :
  (m ≫= k) h = Ok r ↔ ∃ a h1, m h = Ok (a, h1) ∧ k a h1 = Ok r.
Proof.
  rewrite bind_unfold. destruct (m h) as [[a h1]|e|]; split.
  - eauto.
  - by intros (? & ? & [= -> ->] & ?).
  - done.
  - by intros (? & ? & ? & ?).
  - done.
  - by intros (? & ? & ? & ?).
Qed.

Lemma deref_Ok a h s h' : deref a h = Ok (s, h') ↔ h !! a = Some s ∧ h' = h.
Proof. unfold deref. destruct (h !! a); naive_solver. Qed.

Lemma lift_Ok {A} (o : outcome A) h a h' :
  lift o h = Ok (a, h') ↔ o = Ok a ∧ h' = h.
Proof. unfold lift. destruct o; naive_solver. Qed.

Lemma ret_Ok {A} (x : A) h a h' : mret (M := M) x h = Ok (a, h') ↔ a = x ∧ h' = h.
Proof. unfold mret, M_ret, ret. naive_solver. Qed.

(** Inverts a hypothesis [H : (x ← m; k) h = Ok r]. *)
Ltac inv_bind H :=
  let a := fresh "a" in
  let h1 := fresh "h" in
  let H1 := fresh H in
  apply bind_Ok in H as (a & h1 & H1 & H).

(** ** Cells *)

Lemma get_cell_Ok b r c v :
  get_cell b r c = Ok v ↔ ∃ row, b !! r = Some row ∧ row !! c = Some v.
Proof.
  unfold get_cell. destruct (b !! r) as [row|]; [|naive_solver].
  destruct (row !! c) eqn:E; naive_solver.
Qed.

Lemma get_cell_cases b r c :
  (∃ v, get_cell b r c = Ok v) ∨ get_cell b r c = Raise IndexError.
Proof.
  unfold get_cell. destruct (b !! r) as [row|]; [|by right].
  destruct (row !! c); eauto.
Qed.

Lemma shaped_lookup n b r row : shaped n b → b !! r = Some row → length row = n.
Proof. intros [_ Hf] Hr. by eapply (Forall_lookup_1 _ _ _ _ Hf Hr). Qed.

Lemma get_cell_shaped n b (r c : nat) :
  shaped n b → (r < n)%nat → (c < n)%nat → ∃ v, get_cell b r c = Ok v.
Proof.
  intros Hs Hr Hc. pose proof Hs as [Hl Hf].
  destruct (lookup_lt_is_Some_2 b r) as [row Hrow]; [lia|].
  destruct (lookup_lt_is_Some_2 row c) as [v Hv].
  { erewrite shaped_lookup by done. done. }
  exists v. apply get_cell_Ok. eauto.
Qed.

Lemma get_cell_bounds n b r c v :
  shaped n b → get_cell b r c = Ok v → (r < n)%nat ∧ (c < n)%nat.
Proof.
  intros Hs (row & Hr & Hc)%get_cell_Ok. pose proof Hs as [Hl Hf].
  split.
  - rewrite <- Hl. by eapply lookup_lt_Some.
  - erewrite <- (shaped_lookup n b r row) by done. by eapply lookup_lt_Some.
Qed.

Lemma get_cell_join n b (r c : nat) v :
  shaped n b → (c < n)%nat →
  get_cell b r c = Ok v ↔ mjoin b !! (r * n + c)%nat = Some v.
Proof.
  intros [Hl Hf] Hc. rewrite get_cell_Ok.
  by rewrite (join_lookup_Some_same_length' n b r c v Hf Hc).
Qed.

Lemma shaped_set_cell n b r c v : shaped n b → shaped n (set_cell b r c v).
Proof.
  intros [Hl Hf]. split; unfold set_cell.
  - by rewrite length_alter.
  - apply Forall_alter; [done|]. intros row Hrow. by rewrite length_insert.
Qed.

Lemma length_set_cell b r c v : length (set_cell b r c v) = length b.
Proof. unfold set_cell. by rewrite length_alter. Qed.

Lemma join_set_cell n b (r c : nat) v :
  shaped n b → (c < n)%nat →
  mjoin (set_cell b r c v) = <[(r * n + c)%nat := v]> (mjoin b).
Proof.
  intros [Hl Hf] Hc. clear Hl. revert r. unfold set_cell.
  induction Hf as [|row b Hrow Hf IH]; intros r; [done|].
  destruct r as [|r]; csimpl.
  - rewrite insert_app_l by lia. done.
  - rewrite IH. rewrite insert_app_r_alt by lia. do 2 f_equal. lia.
Qed.

Lemma get_set_cell_eq b r c v w :
  get_cell b r c = Ok w → get_cell (set_cell b r c v) r c = Ok v.
Proof.
  intros (row & Hr & Hc)%get_cell_Ok. apply get_cell_Ok.
  exists (<[c := v]> row). unfold set_cell.
  rewrite list_lookup_alter_eq, Hr. split; [done|].
  apply list_lookup_insert_eq. by eapply lookup_lt_Some.
Qed.

Lemma get_set_cell_ne b r c r' c' v :
  (r, c) ≠ (r', c') →
  get_cell (set_cell b r c v) r' c' = get_cell b r' c'.
Proof.
  intros Hne. unfold get_cell, set_cell.
  destruct (decide (r = r')) as [->|Hr].
  - rewrite list_lookup_alter_eq. destruct (b !! r') as [row|]; [simpl|done].
    rewrite list_lookup_insert_ne by congruence. done.
  - by rewrite list_lookup_alter_ne.
Qed.

(** ** [find_empty] *)

Lemma find_empty_row_Some b i js r c :
  find_empty_row b i js = Ok (Some (r, c)) →
  r = i ∧ c ∈ js ∧ get_cell b i c = Ok 0.
Proof.
  induction js as [|j js IH]; simpl; [done|].
  destruct (get_cell b i j) as [v| |] eqn:E; try done.
  case_bool_decide as Hv.
  - intros [= <- <-]. subst v. set_solver.
  - intros H. apply IH in H. set_solver.
Qed.

Lemma find_empty_row_None b i js :
  find_empty_row b i js = Ok None →
  ∀ j, j ∈ js → ∃ v, get_cell b i j = Ok v ∧ v ≠ 0.
Proof.
  induction js as [|j js IH]; simpl; [set_solver|].
  destruct (get_cell b i j) as [v| |] eqn:E; try done.
  case_bool_decide as Hv; [done|].
  intros H j' [->|Hj']%elem_of_cons; eauto.
Qed.

Lemma find_empty_row_total b i js :
  (∀ j, j ∈ js → ∃ v, get_cell b i j = Ok v) →
  ∃ r, find_empty_row b i js = Ok r.
Proof.
  induction js as [|j js IH]; simpl; intros H; [eauto|].
  destruct (H j) as [v ->]; [set_solver|].
  case_bool_decide; [eauto|]. apply IH. intros. apply H. set_solver.
Qed.

Lemma find_empty_rows_Some b n rows r c :
  find_empty_rows b n rows = Ok (Some (r, c)) →
  r ∈ rows ∧ (c < n)%nat ∧ get_cell b r c = Ok 0.
Proof.
  induction rows as [|i rows IH]; simpl; [done|].
  destruct (find_empty_row b i (seq 0 n)) as [[[r' c']|]| |] eqn:E; try done.
  - intros [= <- <-]. apply find_empty_row_Some in E as (-> & Hc & Hg).
    apply elem_of_seq in Hc. split_and!; [set_solver|lia|done].
  - intros H. apply IH in H. set_solver.
Qed.

Lemma find_empty_rows_None b n rows :
  find_empty_rows b n rows = Ok None →
  ∀ i j, i ∈ rows → (j < n)%nat → ∃ v, get_cell b i j = Ok v ∧ v ≠ 0.
Proof.
  induction rows as [|i rows IH]; simpl; [set_solver|].
  destruct (find_empty_row b i (seq 0 n)) as [[[r' c']|]| |] eqn:E; try done.
  intros H i' j [->|Hi']%elem_of_cons Hj; [|eauto].
  eapply find_empty_row_None; [done|]. apply elem_of_seq. lia.
Qed.

Lemma find_empty_rows_total b n rows :
  (∀ i j, i ∈ rows → (j < n)%nat → ∃ v, get_cell b i j = Ok v) →
  ∃ r, find_empty_rows b n rows = Ok r.
Proof.
  induction rows as [|i rows IH]; simpl; intros H; [eauto|].
  destruct (find_empty_row_total b i (seq 0 n)) as [r ->].
  { intros j Hj%elem_of_seq. apply H; [set_solver|lia]. }
  destruct r as [[r c]|]; [eauto|]. apply IH. intros. apply H; set_solver.
Qed.

Lemma find_empty_Some s r c :
  find_empty s = Ok (Some (r, c)) →
  (r < size s)%nat ∧ (c < size s)%nat ∧ get_cell (board s) r c = Ok 0.
Proof.
  intros (Hr & Hc & Hg)%find_empty_rows_Some.
  apply elem_of_seq in Hr. split_and!; [lia|done|done].
Qed.

Lemma find_empty_shaped s :
  shaped (size s) (board s) →
  (∃ r c, find_empty s = Ok (Some (r, c))) ∨
  (find_empty s = Ok None ∧
   ∀ r c v, get_cell (board s) r c = Ok v → v ≠ 0).
Proof.
  intros Hs. destruct (find_empty_rows_total (board s) (size s) (seq 0 (size s)))
    as [[[r c]|] E].
  { intros i j Hi%elem_of_seq Hj. apply (get_cell_shaped (size s)); [done|lia|lia]. }
  - left. eauto.
  - right. split; [done|]. intros r c v Hv.
    destruct (get_cell_bounds _ _ _ _ _ Hs Hv) as [Hr Hc].
    destruct (find_empty_rows_None _ _ _ E r c) as (v' & Hv' & Hne);
      [apply elem_of_seq; lia|done|]. congruence.
Qed.

(** ** Exchanging two cells *)

Lemma insert_swap_Permutation {A} (l : list A) (i j : nat) x y :
  l !! i = Some x → l !! j = Some y → <[j := x]> (<[i := y]> l) ≡ₚ l.
Proof.
  intros Hi Hj. apply Permutation_inj. split.
  { by rewrite !length_insert. }
  exists (λ k, if decide (k = i) then j else if decide (k = j) then i else k).
  split.
  { intros k1 k2. repeat case_decide; congruence. }
  intros k. pose proof (lookup_lt_Some _ _ _ Hi). pose proof (lookup_lt_Some _ _ _ Hj).
  destruct (decide (k = j)) as [->|Hkj].
  - rewrite list_lookup_insert_eq by (by rewrite length_insert).
    repeat case_decide; congruence.
  - rewrite list_lookup_insert_ne by done.
    destruct (decide (k = i)) as [->|Hki].
    + by rewrite list_lookup_insert_eq.
    + by rewrite list_lookup_insert_ne.
Qed.

Lemma swap_cells_Ok b row col nr nc b' :
  swap_cells b row col nr nc = Ok b' ↔
  ∃ v1 v2, get_cell b nr nc = Ok v1 ∧ get_cell b row col = Ok v2 ∧
           b' = set_cell (set_cell b row col v1) nr nc v2.
Proof.
  unfold swap_cells.
  destruct (get_cell b nr nc) as [v1| |]; [|naive_solver..].
  destruct (get_cell b row col) as [v2| |]; naive_solver.
Qed.

Lemma swap_cells_shaped n b (row col nr nc : nat) :
  shaped n b → (row < n)%nat → (col < n)%nat → (nr < n)%nat → (nc < n)%nat →
  ∃ b', swap_cells b row col nr nc = Ok b'.
Proof.
  intros Hs Hr Hc Hnr Hnc.
  destruct (get_cell_shaped n b nr nc) as [v1 E1]; [done..|].
  destruct (get_cell_shaped n b row col) as [v2 E2]; [done..|].
  unfold swap_cells. rewrite E1, E2. eauto.
Qed.

Lemma swap_cells_preserves n b row col nr nc b' :
  shaped n b → swap_cells b row col nr nc = Ok b' →
  shaped n b' ∧ mjoin b' ≡ₚ mjoin b.
Proof.
  intros Hs (v1 & v2 & H1 & H2 & ->)%swap_cells_Ok.
  destruct (get_cell_bounds _ _ _ _ _ Hs H1) as [? ?].
  destruct (get_cell_bounds _ _ _ _ _ Hs H2) as [? ?].
  split; [by do 2 apply shaped_set_cell|].
  rewrite (join_set_cell n) by (by try apply shaped_set_cell).
  rewrite (join_set_cell n) by done.
  apply insert_swap_Permutation; by apply (get_cell_join n).
Qed.

Lemma swap_cells_length b row col nr nc b' :
  swap_cells b row col nr nc = Ok b' → length b' = length b.
Proof.
  intros (v1 & v2 & H1 & H2 & ->)%swap_cells_Ok. by rewrite !length_set_cell.
Qed.

(** ** The successor loop *)

Lemma in_bounds_spec n (r c : Z) :
  in_bounds n r c = true ↔ 0 ≤ r < Z.of_nat n ∧ 0 ≤ c < Z.of_nat n.
Proof.
  unfold in_bounds. rewrite andb_true_iff, !bool_decide_eq_true. done.
Qed.

Lemma child_specs_elem n b row col mvs l :
  child_specs n b row col mvs = Ok l →
  ∀ b' mv, (b', mv) ∈ l ↔
    ∃ dr dc, (dr, dc, mv) ∈ mvs ∧
      in_bounds n (Z.of_nat row + dr) (Z.of_nat col + dc) = true ∧
      swap_cells b row col (Z.to_nat (Z.of_nat row + dr))
                 (Z.to_nat (Z.of_nat col + dc)) = Ok b'.
Proof.
  revert l. induction mvs as [|[[dr dc] name] mvs IH]; simpl; intros l Hl b' mv.
  { injection Hl as <-. set_solver. }
  destruct (in_bounds n _ _) eqn:Hin.
  - destruct (swap_cells _ _ _ _ _) as [nb| |] eqn:Hsw; try done.
    destruct (child_specs n b row col mvs) as [rest| |]; try done.
    injection Hl as <-. rewrite elem_of_cons, (IH rest eq_refl). split.
    + intros [[= -> ->]|(dr' & dc' & ? & ? & ?)].
      * exists dr, dc. set_solver.
      * exists dr', dc'. set_solver.
    + intros (dr' & dc' & [[= -> -> ->]|?]%elem_of_cons & ? & ?).
      * left. congruence.
      * right. eauto.
  - rewrite (IH l Hl). split.
    + intros (dr' & dc' & ? & ? & ?). exists dr', dc'. set_solver.
    + intros (dr' & dc' & [[= -> -> ->]|?]%elem_of_cons & ? & ?);
        [congruence|eauto].
Qed.

Lemma child_specs_moves n b row col mvs l :
  child_specs n b row col mvs = Ok l →
  l.*2 = (filter (λ m, in_bounds n (Z.of_nat row + m.1.1)
                                   (Z.of_nat col + m.1.2) = true) mvs).*2.
Proof.
  revert l. induction mvs as [|[[dr dc] name] mvs IH]; simpl; intros l Hl.
  { by injection Hl as <-. }
  rewrite filter_cons. simpl. destruct (in_bounds n _ _) eqn:Hin.
  - destruct (swap_cells _ _ _ _ _) as [nb| |] eqn:Hsw; try done.
    destruct (child_specs n b row col mvs) as [rest| |]; try done.
    injection Hl as <-. rewrite decide_True by done. simpl. f_equal. by apply IH.
  - rewrite decide_False by done. by apply IH.
Qed.

Lemma child_specs_shaped n b (row col : nat) mvs :
  shaped n b → (row < n)%nat → (col < n)%nat →
  ∃ l, child_specs n b row col mvs = Ok l.
Proof.
  intros Hs Hr Hc. induction mvs as [|[[dr dc] name] mvs [l IH]]; simpl; [eauto|].
  destruct (in_bounds n _ _) eqn:Hin; [|eauto].
  apply in_bounds_spec in Hin.
  destruct (swap_cells_shaped n b row col (Z.to_nat (Z.of_nat row + dr))
              (Z.to_nat (Z.of_nat col + dc))) as [b' ->]; [done|lia..|].
  rewrite IH. eauto.
Qed.

Lemma successors_loop_spec self s row col mvs h :
  successors_loop self s row col mvs h =
  match child_specs (size s) (board s) row col mvs with
  | Ok l => Ok (seq (length h) (length l), h ++ (mk_child self s <$> l))
  | Raise e => Raise e
  | OutOfFuel => OutOfFuel
  end.
Proof.
  revert h. induction mvs as [|[[dr dc] name] mvs IH]; intros h; simpl.
  { by rewrite app_nil_r. }
  destruct (in_bounds (size s) _ _); [|apply IH].
  rewrite bind_unfold. unfold lift.
  destruct (swap_cells _ _ _ _ _) as [nb| |]; try done.
  rewrite bind_unfold. unfold PuzzleState_init. rewrite bind_unfold, IH.
  destruct (child_specs _ _ _ _ mvs) as [rest| |]; try done.
  simpl. rewrite length_app, <- app_assoc. simpl.
  unfold ret. by rewrite Nat.add_1_r.
Qed.

Lemma get_successors_spec self h :
  get_successors self h =
  match h !! self with
  | None => Raise BadAddress
  | Some s =>
    match find_empty s with
    | Ok (Some (row, col)) =>
      match child_specs (size s) (board s) row col moves with
      | Ok l => Ok (seq (length h) (length l), h ++ (mk_child self s <$> l))
      | Raise e => Raise e
      | OutOfFuel => OutOfFuel
      end
    | Ok None => Raise TypeError
    | Raise e => Raise e
    | OutOfFuel => OutOfFuel
    end
  end.
Proof.
  unfold get_successors. rewrite bind_unfold. unfold deref.
  destruct (h !! self) as [s|]; [|done].
  rewrite bind_unfold. unfold lift.
  destruct (find_empty s) as [[[row col]|]| |]; try done.
  apply successors_loop_spec.
Qed.

Lemma get_successors_Ok self h succs h' :
  get_successors self h = Ok (succs, h') →
  ∃ s row col l,
    h !! self = Some s ∧ find_empty s = Ok (Some (row, col)) ∧
    child_specs (size s) (board s) row col moves = Ok l ∧
    succs = seq (length h) (length l) ∧ h' = h ++ (mk_child self s <$> l).
Proof.
  rewrite get_successors_spec. destruct (h !! self) as [s|]; [|done].
  destruct (find_empty s) as [[[row col]|]| |] eqn:E; try done.
  destruct (child_specs _ _ _ _ _) as [l| |] eqn:E2; try done.
  intros [= <- <-]. exists s, row, col, l. done.
Qed.

(** ** A successor is one slide away *)

Lemma moves_adjacent (row col : nat) dr dc mv n :
  (dr, dc, mv) ∈ moves →
  in_bounds n (Z.of_nat row + dr) (Z.of_nat col + dc) = true →
  adjacent row col (Z.to_nat (Z.of_nat row + dr)) (Z.to_nat (Z.of_nat col + dc)).
Proof.
  intros Hm Hin%in_bounds_spec. unfold moves, adjacent in *.
  repeat (apply elem_of_cons in Hm as [[= -> -> ->]|Hm]); [lia..|].
  by apply elem_of_nil in Hm.
Qed.

Lemma child_slide n b row col l b' mv :
  get_cell b row col = Ok 0 →
  child_specs n b row col moves = Ok l → (b', mv) ∈ l → slide b b'.
Proof.
  intros H0 Hl Hin.
  apply (child_specs_elem _ _ _ _ _ _ Hl) in Hin as (dr & dc & Hm & Hb & Hsw).
  apply swap_cells_Ok in Hsw as (v1 & v2 & H1 & H2 & ->).
  assert (v2 = 0) as -> by congruence.
  exists row, col, (Z.to_nat (Z.of_nat row + dr)), (Z.to_nat (Z.of_nat col + dc)), v1.
  split_and!; try done. by eapply moves_adjacent.
Qed.

Lemma child_valid n b row col l b' mv :
  valid_board n b →
  child_specs n b row col moves = Ok l → (b', mv) ∈ l → valid_board n b'.
Proof.
  intros [Hs Hp] Hl Hin.
  apply (child_specs_elem _ _ _ _ _ _ Hl) in Hin as (dr & dc & Hm & Hb & Hsw).
  destruct (swap_cells_preserves n _ _ _ _ _ _ Hs Hsw) as [Hs' Hp'].
  split; [done|]. by rewrite Hp'.
Qed.

Lemma slide_valid n b b' : valid_board n b → slide b b' → valid_board n b'.
Proof.
  intros [Hs Hp] (r & c & r' & c' & t & H0 & Ht & Hadj & ->).
  assert (swap_cells b r c r' c' = Ok (set_cell (set_cell b r c t) r' c' 0)) as Hsw.
  { apply swap_cells_Ok. eauto. }
  destruct (swap_cells_preserves n _ _ _ _ _ _ Hs Hsw) as [Hs' Hp'].
  split; [done|]. by rewrite Hp'.
Qed.

(** ** The blank of a valid board *)

Lemma valid_has_blank n b :
  (0 < n)%nat → valid_board n b → ∃ r c, get_cell b r c = Ok 0.
Proof.
  intros Hn [Hs Hp].
  assert (0 ∈ mjoin b) as Hin.
  { rewrite Hp. apply elem_of_seqZ. lia. }
  apply list_elem_of_lookup in Hin as [i Hi].
  apply (join_lookup_Some_same_length n) in Hi as (r & row & c & Hr & Hc & _);
    [|apply Hs].
  exists r, c. apply get_cell_Ok. eauto.
Qed.

Lemma valid_cell_unique n b r c r' c' v :
  valid_board n b → get_cell b r c = Ok v → get_cell b r' c' = Ok v →
  r = r' ∧ c = c'.
Proof.
  intros [Hs Hp] H1 H2.
  destruct (get_cell_bounds _ _ _ _ _ Hs H1) as [? ?].
  destruct (get_cell_bounds _ _ _ _ _ Hs H2) as [? ?].
  apply (get_cell_join n) in H1; [|done..].
  apply (get_cell_join n) in H2; [|done..].
  assert (NoDup (mjoin b)) as Hnd by (rewrite Hp; apply NoDup_seqZ).
  pose proof (NoDup_lookup _ _ _ _ Hnd H1 H2) as Heq.
  assert (r = r') by nia. subst. split; [done|lia].
Qed.

Lemma valid_cell_range n b r c v :
  valid_board n b → get_cell b r c = Ok v → 0 ≤ v < Z.of_nat (n * n).
Proof.
  intros [Hs Hp] H1.
  destruct (get_cell_bounds _ _ _ _ _ Hs H1) as [? ?].
  apply (get_cell_join n) in H1; [|done..].
  apply list_elem_of_lookup_2 in H1. rewrite Hp in H1.
  apply elem_of_seqZ in H1. lia.
Qed.

Lemma valid_find_empty s :
  (0 < size s)%nat → valid_board (size s) (board s) →
  ∃ row col, find_empty s = Ok (Some (row, col)).
Proof.
  intros Hn Hv. destruct (find_empty_shaped s) as [?|[_ Hno]]; [apply Hv|done|].
  destruct (valid_has_blank _ _ Hn Hv) as (r & c & H0). by apply Hno in H0.
Qed.

(** On a valid board the successors are exactly the boards one slide away. *)
Lemma slide_child n b row col l b' :
  valid_board n b → get_cell b row col = Ok 0 →
  child_specs n b row col moves = Ok l →
  slide b b' → b' ∈ l.*1.
Proof.
  intros Hv H0 Hl (r & c & r' & c' & t & Hb & Ht & Hadj & ->).
  destruct (valid_cell_unique _ _ _ _ _ _ _ Hv H0 Hb) as [<- <-].
  destruct (get_cell_bounds _ _ _ _ _ (proj1 Hv) Ht) as [? ?].
  assert (∃ dr dc mv, (dr, dc, mv) ∈ moves ∧
            r' = Z.to_nat (Z.of_nat row + dr) ∧ c' = Z.to_nat (Z.of_nat col + dc) ∧
            0 ≤ Z.of_nat row + dr ∧ 0 ≤ Z.of_nat col + dc)
    as (dr & dc & mv & Hm & -> & -> & ? & ?).
  { unfold moves. destruct Hadj as [[-> [->| ->]]|[-> [->| ->]]].
    - exists 0, 1, "RIGHT". split; [set_solver|lia].
    - exists 0, (-1), "LEFT". split; [set_solver|lia].
    - exists 1, 0, "DOWN". split; [set_solver|lia].
    - exists (-1), 0, "UP". split; [set_solver|lia]. }
  apply list_elem_of_fmap. eexists (_, mv). split; [done|].
  apply (child_specs_elem _ _ _ _ _ _ Hl). exists dr, dc. split_and!; [done| |].
  - apply in_bounds_spec. lia.
  - apply swap_cells_Ok. eauto.
Qed.

(** ** Stores *)

#[global] Instance extends_preorder : PreOrder extends.
Proof.
  split.
  - intros h. unfold extends. done.
  - intros h1 h2 h3. unfold extends. apply transitivity.
Qed.

Lemma extends_app h k : extends h (h ++ k).
Proof. unfold extends. rewrite fmap_app. by apply prefix_app_r. Qed.

Lemma extends_lookup h h' a s :
  extends h h' → h !! a = Some s → ∃ s', h' !! a = Some s' ∧ frame s' = frame s.
Proof.
  intros Hext Ha.
  assert ((frame <$> h) !! a = Some (frame s)) as Hf by (by rewrite list_lookup_fmap, Ha).
  eapply prefix_lookup_Some in Hf; [|apply Hext].
  rewrite list_lookup_fmap in Hf.
  apply fmap_Some in Hf as (s' & Hs' & Hf). eauto.
Qed.

Lemma extends_length h h' : extends h h' → (length h ≤ length h')%nat.
Proof.
  intros Hext%prefix_length. by rewrite !length_fmap in Hext.
Qed.

Lemma frame_eq s s' :
  frame s' = frame s →
  board s' = board s ∧ parent s' = parent s ∧ move s' = move s ∧
  depth s' = depth s ∧ size s' = size s.
Proof. unfold frame. intros [=]. done. Qed.

Lemma extends_set_cost h a c : extends h (alter (with_cost c) a h).
Proof.
  unfold extends. rewrite (list_fmap_alter frame (with_cost c) id).
  - by rewrite list_alter_id.
  - apply Forall_forall. by intros [] _.
Qed.

Lemma set_cost_Ok a c h u h' :
  set_cost a c h = Ok (u, h') ↔ is_Some (h !! a) ∧ h' = alter (with_cost c) a h.
Proof.
  unfold set_cost. destruct (h !! a) eqn:E; split.
  - intros [= _ <-]. eauto.
  - intros [_ ->]. by destruct u.
  - done.
  - by intros [[] _].
Qed.

(** ** Parent chains and [reconstruct_path] *)

Lemma path_to_extends h h' a l : extends h h' → path_to h a l → path_to h' a l.
Proof.
  intros Hext. induction 1 as [a s Ha Hp|a s p l Ha Hp Hlt Hpath IH].
  - destruct (extends_lookup _ _ _ _ Hext Ha) as (s' & Ha' & Hf).
    apply frame_eq in Hf as (Hb & Hpar & _). rewrite <- Hb.
    apply (path_root h' a s'); [done|]. by rewrite Hpar.
  - destruct (extends_lookup _ _ _ _ Hext Ha) as (s' & Ha' & Hf).
    apply frame_eq in Hf as (Hb & Hpar & _). rewrite <- Hb.
    apply (path_child h' a s' p); [done| |done|done]. by rewrite Hpar.
Qed.

Lemma path_to_last h a l :
  path_to h a l → ∃ s, h !! a = Some s ∧ last l = Some (board s).
Proof.
  destruct 1 as [a s Ha Hp|a s p l Ha Hp Hlt Hpath]; exists s.
  - done.
  - by rewrite last_snoc.
Qed.

Lemma path_to_nonempty h a l : path_to h a l → l ≠ [].
Proof. destruct 1; [done|]. by destruct l. Qed.

Lemma walk_parents_path h a l :
  path_to h a l →
  ∀ fuel acc, (a < fuel)%nat →
    walk_parents fuel (Some a) acc h = Ok (acc ++ reverse l, h).
Proof.
  induction 1 as [a s Ha Hp|a s p l Ha Hp Hlt Hpath IH]; intros fuel acc Hfuel.
  - destruct fuel as [|fuel]; [lia|]. simpl.
    rewrite bind_unfold. unfold deref. rewrite Ha, Hp. by destruct fuel.
  - destruct fuel as [|fuel]; [lia|]. simpl.
    rewrite bind_unfold. unfold deref. rewrite Ha, Hp.
    rewrite IH by lia. by rewrite reverse_snoc, <- app_assoc.
Qed.

Lemma reconstruct_path_spec h a l :
  path_to h a l → reconstruct_path a h = Ok (l, h).
Proof.
  intros Hpath. unfold reconstruct_path. rewrite bind_unfold.
  destruct (path_to_last _ _ _ Hpath) as (s & Ha & _).
  rewrite (walk_parents_path h a l Hpath) by (apply lookup_lt_Some in Ha; lia).
  simpl. by rewrite reverse_involutive.
Qed.

Lemma linked_snoc (R : Board → Board → Prop) l x y :
  linked R l → last l = Some x → R x y → linked R (l ++ [y]).
Proof.
  intros Hl Hlast HR i u v Hu Hv.
  assert (S i < length (l ++ [y]))%nat as Hlen by (by eapply lookup_lt_Some).
  rewrite length_app in Hlen. simpl in Hlen.
  rewrite lookup_app_l in Hu by lia.
  destruct (decide (S i < length l)%nat) as [Hlt|Hge].
  - rewrite lookup_app_l in Hv by lia. eauto.
  - rewrite lookup_app_r in Hv by lia.
    replace (S i - length l)%nat with 0%nat in Hv by lia. injection Hv as <-.
    rewrite last_lookup in Hlast.
    replace (pred (length l)) with i in Hlast by lia. congruence.
Qed.

Lemma linked_singleton (R : Board → Board → Prop) x : linked R [x].
Proof. intros i u v Hu Hv. by destruct i. Qed.

(** ** The visiting loop *)

Lemma append_unvisited_spec succs V F h :
  Forall (λ c, is_Some (h !! c)) succs →
  append_unvisited succs V F h = Ok (visit h succs V F, h).
Proof.
  intros Hs. revert V F. induction Hs as [|c succs [s Hc] Hs IH]; intros V F.
  { done. }
  simpl. rewrite bind_unfold. unfold deref. rewrite Hc.
  case_bool_decide; apply IH.
Qed.

Lemma append_unvisited_Ok succs V F h r h' :
  append_unvisited succs V F h = Ok (r, h') →
  r = visit h succs V F ∧ h' = h.
Proof.
  revert V F. induction succs as [|c succs IH]; intros V F; simpl.
  { by intros [= <- <-]. }
  rewrite bind_unfold. unfold deref. destruct (h !! c) as [s|]; [|done].
  case_bool_decide; apply IH.
Qed.

Section visit.
Context (h : store).
Implicit Types (V : gset Board) (F succs : list addr).

Lemma visit_subseteq succs V F : V ⊆ (visit h succs V F).1.
Proof.
  revert V F. induction succs as [|c succs IH]; intros V F; simpl; [done|].
  destruct (h !! c) as [s|]; [|done].
  case_bool_decide; [|done]. etrans; [|apply IH]. set_solver.
Qed.

(** The frontier grows at its end, by a sublist of the successors. *)
Lemma visit_frontier succs V F :
  ∃ K, (visit h succs V F).2 = F ++ K ∧ K `sublist_of` succs ∧
       base.size (visit h succs V F).1 = (base.size V + length K)%nat ∧
       Forall (λ c, ∃ s, h !! c = Some s ∧ board s ∉ V) K ∧
       (∀ v, v ∈ (visit h succs V F).1 → v ∉ V →
             ∃ c s, c ∈ K ∧ h !! c = Some s ∧ board s = v).
Proof.
  revert V F. induction succs as [|c succs IH]; intros V F; simpl.
  { exists []. rewrite app_nil_r. split_and!; [done|done|simpl; lia|done|done]. }
  destruct (h !! c) as [s|] eqn:Hc.
  2:{ exists []. rewrite app_nil_r.
      split_and!; [done|apply sublist_nil_l|simpl; lia|done|done]. }
  case_bool_decide as Hv.
  - destruct (IH ({[board s]} ∪ V) (F ++ [c])) as (K & -> & Hsub & Hsz & Hall & Hnew).
    exists (c :: K). split_and!.
    + by rewrite <- app_assoc.
    + by apply sublist_skip.
    + rewrite Hsz, size_union, size_singleton by set_solver. simpl. lia.
    + constructor; [eauto|]. eapply Forall_impl; [done|].
      intros c' (s' & ? & ?). exists s'. set_solver.
    + intros v Hin Hnin. destruct (decide (v = board s)) as [->|Hne].
      * exists c, s. set_solver.
      * destruct (Hnew v Hin) as (c' & s' & ? & ? & ?); [set_solver|].
        exists c', s'. set_solver.
  - destruct (IH V F) as (K & -> & Hsub & Hsz & Hall & Hnew).
    exists K. split_and!; try done. by apply sublist_cons.
Qed.

Lemma visit_covers succs V F :
  Forall (λ c, is_Some (h !! c)) succs →
  ∀ c s, c ∈ succs → h !! c = Some s → board s ∈ (visit h succs V F).1.
Proof.
  intros Hs. revert V F.
  induction Hs as [|c0 succs [s0 Hc0] Hs IH]; intros V F c s Hin Hc; simpl.
  { by apply elem_of_nil in Hin. }
  rewrite Hc0. apply elem_of_cons in Hin as [->|Hin].
  - assert (s = s0) as -> by congruence.
    case_bool_decide as Hv.
    + apply visit_subseteq. set_solver.
    + by apply visit_subseteq.
  - case_bool_decide; by eapply IH.
Qed.

Lemma visit_origin succs V F :
  ∀ v, v ∈ (visit h succs V F).1 →
       v ∈ V ∨ ∃ c s, c ∈ succs ∧ h !! c = Some s ∧ board s = v.
Proof.
  intros v Hv. destruct (decide (v ∈ V)) as [?|Hn]; [by left|right].
  destruct (visit_frontier succs V F) as (K & _ & Hsub & _ & _ & Hnew).
  destruct (Hnew v Hv Hn) as (c & s & Hc & ? & ?). exists c, s.
  split_and!; try done. by eapply elem_of_sublist.
Qed.
End visit.

(** ** The finite universe of valid boards *)

Lemma elem_of_lists_of {A} (xs : list A) m l :
  l ∈ lists_of xs m ↔ length l = m ∧ Forall (λ x, x ∈ xs) l.
Proof.
  revert l. induction m as [|m IH]; intros l; simpl.
  - rewrite list_elem_of_singleton. split.
    + intros ->. done.
    + intros [Hl _]. by destruct l.
  - rewrite list_elem_of_bind. split.
    + intros (x & (l' & Hl & Hl')%list_elem_of_bind & Hx).
      apply list_elem_of_singleton in Hl as ->. apply IH in Hl' as [<- ?].
      split; [done|]. by constructor.
    + intros [Hlen Hall]. destruct l as [|x l]; [done|].
      apply Forall_cons in Hall as [Hx Hall]. exists x. split; [|done].
      apply list_elem_of_bind. exists l. split; [set_solver|].
      apply IH. split; [simpl in Hlen; lia|done].
Qed.

Lemma valid_in_all_boards n b : valid_board n b → b ∈ all_boards n.
Proof.
  intros [[Hl Hf] Hp]. unfold all_boards. apply elem_of_list_to_set.
  apply elem_of_lists_of. split; [done|].
  apply Forall_forall. intros row Hrow. apply elem_of_lists_of.
  split; [by eapply (proj1 (Forall_forall _ _) Hf)|].
  apply Forall_forall. intros x Hx. rewrite <- Hp.
  apply list_elem_of_join. eauto.
Qed.

(** ** Result dictionaries *)

Lemma success_dict_lookup alg metric path ne mx :
  metric = "max_queue_size" ∨ metric = "max_stack_size" →
  let r := success_dict alg metric path ne mx in
  r !! "success" = Some (VBool true) ∧
  r !! "algorithm" = Some (VStr alg) ∧
  r !! "solution_path" = Some (VPath path) ∧
  r !! "solution_depth" = Some (VInt (Z.of_nat (length path) - 1)) ∧
  r !! "nodes_expanded" = Some (VInt ne) ∧
  r !! metric = Some (VInt mx) ∧
  r !! "error" = None.
Proof. by intros [-> | ->]. Qed.

(** ** Python lists used as stacks *)

Lemma list_pop_Some {A} (l : list A) x l' :
  list_pop l = Some (x, l') ↔ l = l' ++ [x].
Proof.
  unfold list_pop. destruct (reverse l) as [|y r] eqn:E.
  - apply (f_equal reverse) in E. rewrite reverse_involutive in E. subst l.
    split; [done|]. intros H. by destruct l'.
  - apply (f_equal reverse) in E. rewrite reverse_involutive, reverse_cons in E.
    subst l. split.
    + by intros [= <- <-].
    + intros [-> ->]%app_inj_tail. done.
Qed.

Lemma list_pop_None {A} (l : list A) : list_pop l = None ↔ l = [].
Proof.
  unfold list_pop. destruct (reverse l) as [|y r] eqn:E.
  - apply (f_equal reverse) in E. by rewrite reverse_involutive in E.
  - split; [done|]. intros ->. done.
Qed.

Lemma list_pop_snoc {A} (l : list A) x : list_pop (l ++ [x]) = Some (x, l).
Proof. by apply list_pop_Some. Qed.

(** ** [heapq] keeps the elements it is given *)

Section heapq_Forall.
Context {T : Type} (lt : T → T → bool) (P : T → Prop).

Lemma siftdown_loop_Forall fuel heap startpos pos x :
  Forall P heap → P x → Forall P (siftdown_loop lt fuel heap startpos pos x).
Proof.
  revert heap pos. induction fuel as [|fuel IH]; intros heap pos Hh Hx; simpl.
  { by apply Forall_insert. }
  case_bool_decide; [|by apply Forall_insert].
  destruct (heap !! _) as [p|] eqn:Hp; [|by apply Forall_insert].
  destruct (lt x p); [|by apply Forall_insert].
  apply IH; [|done]. apply Forall_insert; [done|].
  by eapply (Forall_lookup_1 P heap).
Qed.

Lemma siftdown_Forall heap startpos pos :
  Forall P heap → Forall P (_siftdown lt heap startpos pos).
Proof.
  intros Hh. unfold _siftdown. destruct (heap !! pos) as [x|] eqn:Hx; [|done].
  apply siftdown_loop_Forall; [done|]. by eapply (Forall_lookup_1 P heap).
Qed.

Lemma siftup_loop_Forall fuel heap endpos pos :
  Forall P heap → Forall P (siftup_loop lt fuel heap endpos pos).1.
Proof.
  revert heap pos. induction fuel as [|fuel IH]; intros heap pos Hh; simpl.
  { done. }
  case_bool_decide; [|done].
  match goal with |- context [heap !! ?i] =>
    destruct (heap !! i) as [c|] eqn:Hc end; [|done].
  apply IH. apply Forall_insert; [done|]. by eapply (Forall_lookup_1 P heap).
Qed.

Lemma siftup_Forall heap pos : Forall P heap → Forall P (_siftup lt heap pos).
Proof.
  intros Hh. unfold _siftup. destruct (heap !! pos) as [x|] eqn:Hx; [|done].
  destruct (siftup_loop lt _ heap _ pos) as [heap' pos'] eqn:E.
  apply siftdown_Forall. apply Forall_insert.
  - pose proof (siftup_loop_Forall (length heap) heap (length heap) pos Hh) as H.
    by rewrite E in H.
  - by eapply (Forall_lookup_1 P heap).
Qed.

Lemma heappush_Forall heap x :
  Forall P heap → P x → Forall P (heappush lt heap x).
Proof.
  intros Hh Hx. unfold heappush. apply siftdown_Forall.
  apply Forall_app. split; [done|]. by constructor.
Qed.

Lemma heappop_Forall heap x heap' :
  heappop lt heap = Some (x, heap') → Forall P heap → P x ∧ Forall P heap'.
Proof.
  unfold heappop. destruct (list_pop heap) as [[lastelt rest]|] eqn:E; [|done].
  apply list_pop_Some in E as ->. intros Hp [Hrest Hlast]%Forall_app.
  rewrite Forall_singleton in Hlast.
  destruct rest as [|returnitem rest'].
  - injection Hp as <- <-. split; [done|constructor].
  - injection Hp as <- <-. apply Forall_cons in Hrest as [? ?].
    split; [done|]. apply siftup_Forall. simpl. by constructor.
Qed.

Lemma heappop_None heap : heappop lt heap = None ↔ heap = [].
Proof.
  unfold heappop. destruct (list_pop heap) as [[lastelt rest]|] eqn:E.
  - apply list_pop_Some in E as ->. split; [by destruct rest|by destruct rest].
  - apply list_pop_None in E as ->. done.
Qed.
End heapq_Forall.

(** ** Invariants of the three search loops

    [P h V a] is a property of a frontier state (it may mention the
    visited set), [S h] a property of the whole store, [G s] what is known
    of a state when its successors are generated.  Whatever is monotone
    and is handed from a parent to its unvisited children holds of every
    state the loops pop. *)

Lemma walk_parents_store fuel st acc h p h' :
  walk_parents fuel st acc h = Ok (p, h') → h' = h.
Proof.
  revert st acc. induction fuel as [|fuel IH]; intros [a|] acc; simpl; try done.
  - by intros [= _ <-].
  - rewrite bind_unfold. unfold deref. destruct (h !! a); [|done]. apply IH.
  - by intros [= _ <-].
Qed.

Lemma reconstruct_path_store a h p h' :
  reconstruct_path a h = Ok (p, h') → h' = h.
Proof.
  unfold reconstruct_path. rewrite bind_unfold.
  destruct (walk_parents _ _ _ h) as [[p0 h0]| |] eqn:E; try done.
  apply walk_parents_store in E as ->. by intros [= _ <-].
Qed.

Section search_inv.
Context (P : store → gset Board → addr → Prop) (S : store → Prop)
        (G : PuzzleState → Prop).
Hypothesis P_mono : ∀ h h' V V' a,
  extends h h' → V ⊆ V' → P h V a → P h' V' a.
Hypothesis P_child : ∀ h V cur s row col l i c,
  S h → P h V cur → h !! cur = Some s → G s →
  find_empty s = Ok (Some (row, col)) →
  child_specs (size s) (board s) row col moves = Ok l →
  l !! i = Some c → c.1 ∉ V →
  P (h ++ (mk_child cur s <$> l)) ({[c.1]} ∪ V) (length h + i)%nat.
Hypothesis S_child : ∀ h V cur s row col l,
  S h → P h V cur → h !! cur = Some s → G s →
  find_empty s = Ok (Some (row, col)) →
  child_specs (size s) (board s) row col moves = Ok l →
  S (h ++ (mk_child cur s <$> l)).

Lemma children_of_seq h l : children_of h l (seq (length h) (length l)).
Proof.
  apply Forall_forall. intros a [Hge Hlt]%elem_of_seq.
  destruct (lookup_lt_is_Some_2 l (a - length h)) as [c Hc]; [lia|].
  exists (a - length h)%nat, c. split; [lia|done].
Qed.

Lemma children_of_reverse h l cs :
  children_of h l cs → children_of h l (reverse cs).
Proof. unfold children_of. by rewrite Forall_reverse. Qed.

Lemma child_lookup h cur s (l : list (Board * string)) i c :
  l !! i = Some c →
  (h ++ (mk_child cur s <$> l)) !! (length h + i)%nat = Some (mk_child cur s c).
Proof.
  intros Hc. rewrite lookup_app_r by lia.
  replace (length h + i - length h)%nat with i by lia.
  by rewrite list_lookup_fmap, Hc.
Qed.

Lemma visit_inv h V cur s row col l cs :
  S h → P h V cur → h !! cur = Some s → G s →
  find_empty s = Ok (Some (row, col)) →
  child_specs (size s) (board s) row col moves = Ok l →
  children_of h l cs →
  let h' := h ++ (mk_child cur s <$> l) in
  ∀ V1 F, V ⊆ V1 → Forall (P h' V1) F →
    Forall (P h' (visit h' cs V1 F).1) (visit h' cs V1 F).2.
Proof.
  intros HS HP Hcur HG Hfe Hl Hcs h'. subst h'.
  induction Hcs as [|a cs (i & c & -> & Hc) Hcs IH]; intros V1 F HV HF; simpl.
  { done. }
  rewrite (child_lookup h cur s l i c Hc). simpl.
  case_bool_decide as Hv; [|by apply IH].
  apply IH; [set_solver|]. apply Forall_app. split.
  - eapply Forall_impl; [done|]. intros a.
    apply P_mono; [done|set_solver].
  - apply Forall_singleton. eapply P_child; try done.
    eapply P_mono; [done|done|done].
Qed.

Lemma bfs_loop_inv fuel Q V ne mq h r h' :
  (∀ s, is_goal s = false → G s) →
  S h → Forall (P h V) Q →
  bfs_loop fuel Q V ne mq h = Ok (r, h') →
  search_post P S "BFS" "max_queue_size" None r h'.
Proof.
  intros HG. revert Q V ne mq h.
  induction fuel as [|fuel IH]; intros Q V ne mq h HS HQ; simpl; [done|].
  destruct Q as [|cur Q].
  { intros [= <- <-]. split; [done|]. by left. }
  apply Forall_cons in HQ as [Hcur HQ].
  rewrite bind_unfold. unfold deref. destruct (h !! cur) as [s|] eqn:Hs; [|done].
  destruct (is_goal s) eqn:Hgoal.
  - rewrite bind_unfold.
    destruct (reconstruct_path cur h) as [[path h1]| |] eqn:Hpath; try done.
    pose proof (reconstruct_path_store _ _ _ _ Hpath) as ->.
    intros [= <- <-]. split; [done|]. right.
    by exists cur, s, V, path, (ne + 1), (mq `max` Z.of_nat (length (cur :: Q))).
  - rewrite bind_unfold.
    destruct (get_successors cur h) as [[succs h1]| |] eqn:Hsucc; try done.
    apply get_successors_Ok in Hsucc as (s' & row & col & l & Hs' & Hfe & Hl & -> & ->).
    assert (s' = s) as -> by congruence.
    rewrite bind_unfold, append_unvisited_spec.
    2:{ apply Forall_forall. intros a [? ?]%elem_of_seq.
        apply lookup_lt_is_Some_2. rewrite length_app, length_fmap. lia. }
    destruct (visit _ _ V Q) as [V' Q'] eqn:Hvis.
    apply IH.
    + by eapply S_child; eauto.
    + pose proof (visit_inv h V cur s row col l _ HS Hcur Hs (HG s Hgoal) Hfe Hl
                    (children_of_seq h l) V Q) as Hv.
      simpl in Hv. rewrite Hvis in Hv. apply Hv; [done|].
      eapply Forall_impl; [done|]. intros a. apply P_mono; [apply extends_app|done].
Qed.

Lemma dfs_loop_inv fuel limit stack V ne ms h r h' :
  (∀ s, is_goal s = false → depth s < limit → G s) →
  S h → Forall (P h V) stack →
  dfs_loop fuel limit stack V ne ms h = Ok (r, h') →
  search_post P S "DFS" "max_stack_size" (Some (dfs_message limit)) r h'.
Proof.
  intros HG. revert stack V ne ms h.
  induction fuel as [|fuel IH]; intros stack V ne ms h HS HQ; simpl; [done|].
  destruct (list_pop stack) as [[cur stack']|] eqn:Hpop.
  2:{ intros [= <- <-]. split; [done|]. by left. }
  apply list_pop_Some in Hpop as ->.
  apply Forall_app in HQ as [HQ Hcur]. rewrite Forall_singleton in Hcur.
  rewrite bind_unfold. unfold deref. destruct (h !! cur) as [s|] eqn:Hs; [|done].
  destruct (is_goal s) eqn:Hgoal.
  - rewrite bind_unfold.
    destruct (reconstruct_path cur h) as [[path h1]| |] eqn:Hpath; try done.
    pose proof (reconstruct_path_store _ _ _ _ Hpath) as ->.
    intros [= <- <-]. split; [done|]. right.
    by exists cur, s, V, path, (ne + 1),
              (ms `max` Z.of_nat (length (stack' ++ [cur]))).
  - case_bool_decide as Hd; [|by apply IH].
    rewrite bind_unfold.
    destruct (get_successors cur h) as [[succs h1]| |] eqn:Hsucc; try done.
    apply get_successors_Ok in Hsucc as (s' & row & col & l & Hs' & Hfe & Hl & -> & ->).
    assert (s' = s) as -> by congruence.
    rewrite bind_unfold, append_unvisited_spec.
    2:{ apply Forall_reverse, Forall_forall. intros a [? ?]%elem_of_seq.
        apply lookup_lt_is_Some_2. rewrite length_app, length_fmap. lia. }
    destruct (visit _ _ V stack') as [V' Q'] eqn:Hvis.
    apply IH.
    + by eapply S_child; eauto.
    + pose proof (visit_inv h V cur s row col l _ HS Hcur Hs (HG s Hgoal Hd) Hfe Hl
                    (children_of_reverse _ _ _ (children_of_seq h l)) V stack') as Hv.
      simpl in Hv. rewrite Hvis in Hv. apply Hv; [done|].
      eapply Forall_impl; [done|]. intros a. apply P_mono; [apply extends_app|done].
Qed.

Hypothesis S_cost : ∀ h a c, S h → S (alter (with_cost c) a h).

Lemma astar_visit_inv h V cur s row col l :
  S h → P h V cur → h !! cur = Some s → G s →
  find_empty s = Ok (Some (row, col)) →
  child_specs (size s) (board s) row col moves = Ok l →
  let h' := h ++ (mk_child cur s <$> l) in
  ∀ cs, children_of h l cs →
  ∀ V1 pq h1 V2 pq2 h2,
    extends h' h1 → S h1 → V ⊆ V1 → Forall (λ x, P h1 V1 x.2) pq →
    astar_visit cs V1 pq h1 = Ok ((V2, pq2), h2) →
    extends h1 h2 ∧ S h2 ∧ Forall (λ x, P h2 V2 x.2) pq2.
Proof.
  intros HS HP Hcur HG Hfe Hl h' cs Hcs. subst h'.
  induction Hcs as [|a cs (i & c & -> & Hc) Hcs IH];
    intros V1 pq h1 V2 pq2 h2 Hext HS1 HV Hpq; simpl.
  { intros [= <- <- <-]. done. }
  rewrite bind_unfold. unfold deref.
  destruct (h1 !! (length h + i)%nat) as [s1|] eqn:Hs1; [|done].
  destruct (extends_lookup _ _ _ _ Hext (child_lookup h cur s l i c Hc))
    as (s1' & Hs1' & Hf).
  assert (s1' = s1) as -> by congruence.
  apply frame_eq in Hf as (Hb & _). simpl in Hb.
  case_bool_decide as Hv; [|by apply IH].
  rewrite bind_unfold. unfold lift.
  destruct (manhattan_distance s1) as [h_n| |]; try done.
  rewrite bind_unfold. unfold set_cost. rewrite Hs1.
  rewrite bind_unfold. intros Hrec.
  apply IH in Hrec as (Hext2 & HS2 & Hpq2).
  - split_and!; [|done|done]. etrans; [apply extends_set_cost|done].
  - etrans; [done|apply extends_set_cost].
  - by apply S_cost.
  - set_solver.
  - apply heappush_Forall.
    + eapply Forall_impl; [done|]. intros x.
      apply P_mono; [apply extends_set_cost|set_solver].
    + simpl. rewrite Hb. eapply P_mono; [..|eapply (P_child h V1)]; try done.
      * etrans; [done|apply extends_set_cost].
      * eapply P_mono; [done|done|done].
      * by rewrite <- Hb.
Qed.

Lemma astar_loop_inv fuel pq V ne mq h r h' :
  (∀ s, is_goal s = false → G s) →
  S h → Forall (λ x, P h V x.2) pq →
  astar_loop fuel pq V ne mq h = Ok (r, h') →
  search_post P S "A*" "max_queue_size" None r h'.
Proof.
  intros HG. revert pq V ne mq h.
  induction fuel as [|fuel IH]; intros pq V ne mq h HS HQ; simpl; [done|].
  rewrite bind_unfold.
  destruct (heappop (item_lt h) pq) as [[[[f_ h_] cur] pq']|] eqn:Hpop.
  2:{ intros [= <- <-]. split; [done|]. by left. }
  destruct (heappop_Forall _ _ _ _ _ Hpop HQ) as [Hcur HQ']. simpl in Hcur.
  rewrite bind_unfold. unfold deref. destruct (h !! cur) as [s|] eqn:Hs; [|done].
  destruct (is_goal s) eqn:Hgoal.
  - rewrite bind_unfold.
    destruct (reconstruct_path cur h) as [[path h1]| |] eqn:Hpath; try done.
    pose proof (reconstruct_path_store _ _ _ _ Hpath) as ->.
    intros [= <- <-]. split; [done|]. right.
    by exists cur, s, V, path, (ne + 1), (mq `max` Z.of_nat (length pq)).
  - rewrite bind_unfold.
    destruct (get_successors cur h) as [[succs h1]| |] eqn:Hsucc; try done.
    apply get_successors_Ok in Hsucc as (s' & row & col & l & Hs' & Hfe & Hl & -> & ->).
    assert (s' = s) as -> by congruence.
    rewrite bind_unfold.
    destruct (astar_visit _ V pq' _) as [[[V2 pq2] h2]| |] eqn:Hvis; try done.
    eapply (astar_visit_inv h V cur s row col l HS Hcur Hs (HG s Hgoal) Hfe Hl)
      in Hvis as (Hext & HS2 & Hpq2); [by apply IH|apply children_of_seq|done| |done|].
    + by eapply S_child; eauto.
    + eapply Forall_impl; [apply HQ'|]. intros x. apply P_mono; [apply extends_app|done].
Qed.
End search_inv.

(** ** Frontier states carry a path of moves *)

Lemma child_length n b row col l c :
  child_specs n b row col moves = Ok l → c ∈ l → length c.1 = length b.
Proof.
  intros Hl Hc. destruct c as [b' mv].
  apply (child_specs_elem _ _ _ _ _ _ Hl) in Hc as (dr & dc & _ & _ & Hsw).
  by apply swap_cells_length in Hsw.
Qed.

Lemma node_ok_mono b0 n h h' V V' a :
  extends h h' → V ⊆ V' → node_ok b0 n h V a → node_ok b0 n h' V' a.
Proof.
  intros Hext HV (s & l & Ha & Hsz & Hlen & Hpath & Hhd & Hlink & Hin).
  destruct (extends_lookup _ _ _ _ Hext Ha) as (s' & Ha' & Hf).
  apply frame_eq in Hf as (Hb & _ & _ & _ & Hs).
  exists s', l. rewrite Hb, Hs. split_and!; try done.
  - by eapply path_to_extends.
  - set_solver.
Qed.

Lemma node_ok_child b0 n h V cur s row col l i c :
  node_ok b0 n h V cur → h !! cur = Some s →
  find_empty s = Ok (Some (row, col)) →
  child_specs (size s) (board s) row col moves = Ok l →
  l !! i = Some c → c.1 ∉ V →
  node_ok b0 n (h ++ (mk_child cur s <$> l)) ({[c.1]} ∪ V) (length h + i)%nat.
Proof.
  intros (s' & p & Ha & Hsz & Hlen & Hpath & Hhd & Hlink & Hin) Hcur Hfe Hl Hc Hfresh.
  assert (s' = s) as -> by congruence.
  apply find_empty_Some in Hfe as (_ & _ & H0).
  pose proof (list_elem_of_lookup_2 _ _ _ Hc) as Hcl.
  assert (slide (board s) c.1) as Hslide.
  { destruct c as [b' mv]. by eapply child_slide. }
  exists (mk_child cur s c), (p ++ [c.1]). split_and!.
  - by apply child_lookup.
  - cbn. by rewrite (child_length _ _ _ _ _ _ Hl Hcl).
  - cbn. by rewrite (child_length _ _ _ _ _ _ Hl Hcl).
  - apply (path_child _ _ (mk_child cur s c) cur); simpl.
    + by apply child_lookup.
    + done.
    + apply lookup_lt_Some in Hcur. lia.
    + eapply path_to_extends; [apply extends_app|done].
  - destruct p; [done|]. done.
  - destruct (path_to_last _ _ _ Hpath) as (s2 & Hs2 & Hlast).
    assert (s2 = s) as -> by congruence.
    eapply linked_snoc; [done|done|]. split; [done|]. intros Heq.
    apply Hfresh. by rewrite <- Heq.
  - set_solver.
Qed.

Lemma node_ok_root a s h :
  h !! a = Some s → parent s = None → size s = length (board s) →
  node_ok (board s) (size s) h {[board s]} a.
Proof.
  intros Ha Hp Hsz. exists s, [board s].
  split_and!; [done|done|done|by apply path_root|done|apply linked_singleton|set_solver].
Qed.

(** What a successful search returns, read off the popped goal state. *)
Lemma node_ok_solution b0 n (S : store → Prop) alg metric msg r h :
  metric = "max_queue_size" ∨ metric = "max_stack_size" →
  search_post (node_ok b0 n) S alg metric msg r h →
  r !! "success" = Some (VBool true) →
  ∃ path,
    r !! "solution_path" = Some (VPath path) ∧
    r !! "solution_depth" = Some (VInt (Z.of_nat (length path) - 1)) ∧
    head path = Some b0 ∧ last path = Some (goal_board n) ∧
    linked blank_move path.
Proof.
  intros Hm [_ [(Hf & _)|(cur & s & V & path & ne & mx & Hok & Hs & Hg & Hp & ->)]] Hsucc.
  { congruence. }
  destruct Hok as (s' & l & Ha & Hsz & Hlen & Hpath & Hhd & Hlink & Hin).
  assert (s' = s) as -> by congruence.
  rewrite (reconstruct_path_spec _ _ _ Hpath) in Hp. injection Hp as <-.
  destruct (success_dict_lookup alg metric l ne mx Hm) as (_ & _ & H1 & H2 & _).
  exists l. split_and!; try done.
  destruct (path_to_last _ _ _ Hpath) as (s2 & Hs2 & Hlast).
  assert (s2 = s) as -> by congruence.
  rewrite Hlast. unfold is_goal in Hg. apply bool_decide_eq_true in Hg.
  rewrite Hg. unfold get_goal_state, goal_board. by rewrite Hsz.
Qed.

Section solution_path.
Context (h : store) (a0 : addr) (s0 : PuzzleState).
Hypothesis (Ha0 : h !! a0 = Some s0) (Hroot : parent s0 = None)
           (Hsize : size s0 = length (board s0)).

Let P := node_ok (board s0) (size s0).
Let S := λ _ : store, True.
Let G := λ _ : PuzzleState, True.

Lemma path_P_mono h1 h2 V V' a :
  extends h1 h2 → V ⊆ V' → P h1 V a → P h2 V' a.
Proof. apply node_ok_mono. Qed.

Lemma path_P_child h1 V cur s row col l i c :
  S h1 → P h1 V cur → h1 !! cur = Some s → G s →
  find_empty s = Ok (Some (row, col)) →
  child_specs (size s) (board s) row col moves = Ok l →
  l !! i = Some c → c.1 ∉ V →
  P (h1 ++ (mk_child cur s <$> l)) ({[c.1]} ∪ V) (length h1 + i)%nat.
Proof. intros _ HP Hs _. by apply node_ok_child. Qed.

Lemma bfs_solve_path fuel r h' :
  bfs_solve fuel a0 h = Ok (r, h') →
  search_post P S "BFS" "max_queue_size" None r h'.
Proof.
  unfold bfs_solve. rewrite bind_unfold. unfold deref. rewrite Ha0.
  apply (bfs_loop_inv P S G path_P_mono path_P_child); try done.
  apply Forall_singleton. by apply node_ok_root.
Qed.

Lemma dfs_solve_path fuel limit r h' :
  dfs_solve fuel a0 limit h = Ok (r, h') →
  search_post P S "DFS" "max_stack_size" (Some (dfs_message limit)) r h'.
Proof.
  unfold dfs_solve. rewrite bind_unfold. unfold deref. rewrite Ha0.
  apply (dfs_loop_inv P S G path_P_mono path_P_child); try done.
  apply Forall_singleton. by apply node_ok_root.
Qed.

Lemma astar_solve_path fuel r h' :
  astar_solve fuel a0 h = Ok (r, h') →
  search_post P S "A*" "max_queue_size" None r h'.
Proof.
  unfold astar_solve. rewrite bind_unfold. unfold deref. rewrite Ha0.
  rewrite bind_unfold. unfold lift.
  destruct (manhattan_distance s0) as [c| |]; try done.
  rewrite bind_unfold. unfold set_cost. rewrite Ha0.
  apply (astar_loop_inv P S G path_P_mono path_P_child); try done.
  apply Forall_singleton. simpl.
  eapply path_P_mono; [apply extends_set_cost|done|]. by apply node_ok_root.
Qed.
End solution_path.

(** ** What the searches do to the store *)

Lemma lookup_alter_cost c i (h : store) a s :
  alter (with_cost c) i h !! a = Some s →
  ∃ s0, h !! a = Some s0 ∧ frame s = frame s0.
Proof.
  destruct (decide (i = a)) as [->|Hne].
  - rewrite list_lookup_alter_eq. intros (s0 & Hs0 & ->)%fmap_Some. eauto.
  - rewrite list_lookup_alter_ne by done. eauto.
Qed.


Section frame_inv.
Context (h0 : store).
Let P := λ (_ : store) (_ : gset Board) (_ : addr), True.
Let G := λ _ : PuzzleState, True.



End frame_inv.

(** ** The permutation invariant *)

Section valid_inv.
Context (n n0 : nat).
Let P := λ (h : store) (_ : gset Board) (a : addr), node_valid n h a.
Let S := created_valid n n0.
Let G := λ _ : PuzzleState, True.

Lemma valid_P_mono (h h' : store) (V V' : gset Board) (a : addr) :
  extends h h' → V ⊆ V' → P h V a → P h' V' a.
Proof.
  intros Hext _ (s & Ha & Hv & Hs).
  destruct (extends_lookup _ _ _ _ Hext Ha) as (s' & Ha' & Hf).
  apply frame_eq in Hf as (Hb & _ & _ & _ & Hsz).
  exists s'. by rewrite Hb, Hsz.
Qed.

Lemma child_node_valid cur s row col l c :
  valid_board n (board s) → size s = n →
  child_specs (size s) (board s) row col moves = Ok l → c ∈ l →
  valid_board n (board (mk_child cur s c)) ∧ size (mk_child cur s c) = n.
Proof.
  intros Hv Hs Hl Hc. rewrite Hs in Hl. destruct c as [b' mv]. cbn.
  pose proof (child_valid _ _ _ _ _ _ _ Hv Hl Hc) as Hv'.
  split; [done|]. apply Hv'.
Qed.

Lemma valid_P_child (h : store) (V : gset Board) cur s row col l i c :
  S h → P h V cur → h !! cur = Some s → G s →
  find_empty s = Ok (Some (row, col)) →
  child_specs (size s) (board s) row col moves = Ok l →
  l !! i = Some c → c.1 ∉ V →
  P (h ++ (mk_child cur s <$> l)) ({[c.1]} ∪ V) (length h + i)%nat.
Proof.
  intros _ (s' & Ha & Hv & Hs) Hcur _ Hfe Hl Hc _.
  assert (s' = s) as -> by congruence.
  exists (mk_child cur s c). split; [by apply child_lookup|].
  eapply child_node_valid; try done. by eapply list_elem_of_lookup_2.
Qed.

Lemma valid_S_child (h : store) (V : gset Board) cur s row col l :
  S h → P h V cur → h !! cur = Some s → G s →
  find_empty s = Ok (Some (row, col)) →
  child_specs (size s) (board s) row col moves = Ok l →
  S (h ++ (mk_child cur s <$> l)).
Proof.
  intros HS (s' & Ha & Hv & Hs) Hcur _ Hfe Hl a sa Hge Hsa.
  assert (s' = s) as -> by congruence.
  destruct (decide (a < length h)%nat) as [Hlt|Hnlt].
  - rewrite lookup_app_l in Hsa by done.
    destruct (HS a sa Hge Hsa) as (? & ? & p & sp & ? & Hp & ?).
    split_and!; try done. exists p, sp. split_and!; try done.
    by apply lookup_app_l_Some.
  - rewrite lookup_app_r in Hsa by lia.
    rewrite list_lookup_fmap in Hsa.
    apply fmap_Some in Hsa as (c & Hc & ->).
    destruct (child_node_valid cur s row col l c Hv Hs Hl) as [? ?].
    { by eapply list_elem_of_lookup_2. }
    split_and!; try done. exists cur, s. split_and!; try done.
    by apply lookup_app_l_Some.
Qed.

Lemma valid_S_cost h a c : S h → S (alter (with_cost c) a h).
Proof.
  intros HS a' s Hge (s0 & Hs0 & Hf)%lookup_alter_cost.
  destruct (HS a' s0 Hge Hs0) as (? & ? & p & sp & ? & Hp & ?).
  apply frame_eq in Hf as (-> & -> & _ & -> & ->).
  split_and!; try done.
  destruct (extends_lookup _ _ _ _ (extends_set_cost h a c) Hp) as (sp' & ? & Hf').
  apply frame_eq in Hf' as (_ & _ & _ & Hd & _).
  exists p, sp'. split_and!; try done. by rewrite Hd.
Qed.

Lemma bfs_loop_valid fuel Q V ne mq h r h' :
  S h → Forall (node_valid n h) Q →
  bfs_loop fuel Q V ne mq h = Ok (r, h') → S h'.
Proof.
  intros HS HQ Hrun.
  by eapply (bfs_loop_inv P S G valid_P_mono valid_P_child valid_S_child)
    in Hrun as [? _].
Qed.

Lemma dfs_loop_valid fuel limit Q V ne mq h r h' :
  S h → Forall (node_valid n h) Q →
  dfs_loop fuel limit Q V ne mq h = Ok (r, h') → S h'.
Proof.
  intros HS HQ Hrun.
  by eapply (dfs_loop_inv P S G valid_P_mono valid_P_child valid_S_child)
    in Hrun as [? _].
Qed.

Lemma astar_loop_valid fuel pq V ne mq h r h' :
  S h → Forall (λ x, node_valid n h x.2) pq →
  astar_loop fuel pq V ne mq h = Ok (r, h') → S h'.
Proof.
  intros HS HQ Hrun.
  by eapply (astar_loop_inv P S G valid_P_mono valid_P_child valid_S_child
               valid_S_cost) in Hrun as [? _].
Qed.
End valid_inv.

(** ** The depth limit of DFS *)

Section depth_limit.
Context (limit : Z) (n0 : nat).
Let P := λ (_ : store) (_ : gset Board) (_ : addr), True.
Let S := created_below limit n0.
Let G := λ s : PuzzleState, depth s < limit.

End depth_limit.

(** ** Breadth-first search finds a shortest path *)

Lemma is_goal_spec s : is_goal s = true ↔ board s = goal_board (size s).
Proof. unfold is_goal, get_goal_state, goal_board. apply bool_decide_eq_true. Qed.

Lemma is_goal_false s : is_goal s = false ↔ board s ≠ goal_board (size s).
Proof. unfold is_goal, get_goal_state, goal_board. apply bool_decide_eq_false. Qed.

Lemma reach_valid n k b b' : valid_board n b → reach k b b' → valid_board n b'.
Proof.
  intros Hv Hr. induction Hr as [|k b b' b'' Hr IH Hs]; [done|].
  apply (slide_valid n b' b''); [by apply IH|done].
Qed.

Lemma reach_pred k b w :
  reach (S k) b w → ∃ u, reach k b u ∧ slide u w.
Proof. inversion 1; subst. eauto. Qed.

Lemma bfs_node_mono (b0 : Board) (n : nat) (h h' : store)
    (V V' : gset Board) (k : nat) (a : addr) :
  extends h h' → V ⊆ V' → bfs_node b0 n h V k a → bfs_node b0 n h' V' k a.
Proof.
  intros Hext HV (s & l & Ha & Hsz & Hpath & Hlen & Hr & Hmin & Hin & Hv).
  destruct (extends_lookup _ _ _ _ Hext Ha) as (s' & Ha' & Hf).
  apply frame_eq in Hf as (Hb & _ & _ & _ & Hs).
  exists s', l. rewrite Hb, Hs. split_and!; try done.
  - by eapply path_to_extends.
  - set_solver.
Qed.

Section bfs.
Context (b0 : Board) (n : nat).
Hypothesis (Hn : (0 < n)%nat).

(** One iteration of the loop on a state that is not the goal. *)
Lemma bfs_step fuel cur Q V ne mq h s :
  h !! cur = Some s → is_goal s = false → size s = n →
  valid_board n (board s) →
  ∃ row col l,
    find_empty s = Ok (Some (row, col)) ∧
    child_specs n (board s) row col moves = Ok l ∧
    get_cell (board s) row col = Ok 0 ∧
    let h' := h ++ (mk_child cur s <$> l) in
    let vf := visit h' (seq (length h) (length l)) V Q in
    bfs_loop (S fuel) (cur :: Q) V ne mq h =
    bfs_loop fuel vf.2 vf.1 (ne + 1)
             (mq `max` Z.of_nat (length (cur :: Q))) h'.
Proof.
  intros Hcur Hg Hsz Hv.
  destruct (valid_find_empty s) as (row & col & Hfe); [lia|by rewrite Hsz|].
  pose proof (find_empty_Some _ _ _ Hfe) as (Hr & Hc & H0).
  destruct (child_specs_shaped n (board s) row col moves) as [l Hl];
    [apply Hv|lia..|].
  exists row, col, l. split_and!; try done. intros h' vf.
  cbn [bfs_loop]. rewrite bind_unfold. unfold deref. rewrite Hcur, Hg.
  rewrite bind_unfold, get_successors_spec, Hcur, Hfe, Hsz, Hl.
  rewrite bind_unfold, append_unvisited_spec.
  - fold h' vf. by destruct vf.
  - apply Forall_forall. intros a [? ?]%elem_of_seq.
    apply lookup_lt_is_Some_2. rewrite length_app, length_fmap. lia.
Qed.

Lemma bfs_goal_step fuel cur Q V ne mq h s p :
  h !! cur = Some s → is_goal s = true → path_to h cur p →
  bfs_loop (S fuel) (cur :: Q) V ne mq h =
  Ok (success_dict "BFS" "max_queue_size" p (ne + 1)
                   (mq `max` Z.of_nat (length (cur :: Q))), h).
Proof.
  intros Hcur Hg Hpath.
  cbn [bfs_loop]. rewrite bind_unfold. unfold deref. rewrite Hcur, Hg.
  by rewrite bind_unfold, (reconstruct_path_spec _ _ _ Hpath).
Qed.

Lemma bfs_inv_init h a0 s0 :
  h !! a0 = Some s0 → parent s0 = None → size s0 = n → board s0 = b0 →
  valid_board n b0 → bfs_inv b0 n h [a0] {[b0]}.
Proof.
  intros Ha Hp Hs Hb Hv. exists 0%nat, [a0], []. split_and!; try done.
  - apply Forall_singleton. exists s0, [b0]. rewrite Hb.
    split_and!; try done.
    + rewrite <- Hb. by apply path_root.
    + constructor.
    + intros; lia.
    + set_solver.
  - intros v ->%elem_of_singleton. done.
  - intros v ->%elem_of_singleton. left. exists a0, s0. set_solver.
  - intros _ w k Hr Hk. assert (k = 0%nat) as -> by lia.
    inversion Hr; subst. set_solver.
  - set_solver.
Qed.

(** With an empty queue every reachable board is a visited non-goal. *)
Lemma bfs_inv_empty h V w k :
  bfs_inv b0 n h [] V → reach k b0 w → w ∈ V ∧ w ≠ goal_board n.
Proof.
  intros (d & Q1 & Q2 & HQ & _ & _ & _ & _ & Hclosed & _ & Hb0) Hr.
  assert (∀ v, v ∈ V → v ≠ goal_board n ∧ ∀ w, slide v w → w ∈ V) as Hc.
  { intros v Hv. destruct (Hclosed v Hv) as [(a & s & Ha & _)|?]; [|done].
    by apply elem_of_nil in Ha. }
  assert (w ∈ V) as Hw.
  { induction Hr as [|k b b' b'' Hr IH Hs]; [done|].
    destruct (Hc b') as [_ Hcl]; [by apply IH|]. by apply Hcl. }
  split; [done|]. by apply Hc.
Qed.

Lemma bfs_inv_head h cur Q V :
  bfs_inv b0 n h (cur :: Q) V →
  ∃ d, bfs_node b0 n h V d cur ∧
       ∀ w k, reach k b0 w → (k ≤ d)%nat → w ∈ V.
Proof.
  intros (d & Q1 & Q2 & HQ & Hne & H1 & H2 & _ & _ & Hnear & _).
  exists d. destruct Q1 as [|a Q1].
  { rewrite Hne in HQ by done. done. }
  injection HQ as <- ->. apply Forall_cons in H1 as [? ?].
  split; [done|]. by apply Hnear.
Qed.

Lemma bfs_inv_step h cur Q V s row col l :
  bfs_inv b0 n h (cur :: Q) V →
  h !! cur = Some s → is_goal s = false →
  find_empty s = Ok (Some (row, col)) →
  child_specs n (board s) row col moves = Ok l →
  let h' := h ++ (mk_child cur s <$> l) in
  let vf := visit h' (seq (length h) (length l)) V Q in
  bfs_inv b0 n h' vf.2 vf.1 ∧
  (base.size vf.1 + length Q = base.size V + length vf.2)%nat.
Proof.
  intros (d & Q1 & Q2 & HQ & Hne & H1 & H2 & Hvalid & Hclosed & Hnear & Hb0)
         Hcur Hg Hfe Hl h' vf.
  destruct Q1 as [|a Q1]; [by rewrite Hne in HQ|].
  injection HQ as <- ->. apply Forall_cons in H1 as [Hnode H1].
  specialize (Hnear ltac:(done)).
  destruct Hnode as (s' & p & Hs' & Hsz & Hpath & Hlen & Hr & Hmin & Hin & Hv).
  assert (s' = s) as -> by congruence.
  pose proof (find_empty_Some _ _ _ Hfe) as (_ & _ & H0).
  assert (extends h h') as Hext by apply extends_app.
  assert (Forall (λ c, is_Some (h' !! c)) (seq (length h) (length l))) as Hsome.
  { apply Forall_forall. intros c [? ?]%elem_of_seq.
    apply lookup_lt_is_Some_2. unfold h'. rewrite length_app, length_fmap. lia. }
  destruct (visit_frontier h' (seq (length h) (length l)) V (Q1 ++ Q2))
    as (K & HK & Hsub & Hsize & Hfresh & Hnew).
  fold vf in HK, Hsize, Hnew.
  pose proof (visit_subseteq h' (seq (length h) (length l)) V (Q1 ++ Q2)) as HVV.
  fold vf in HVV.
  (* the children enqueued are nodes of level d+1 *)
  assert (Forall (bfs_node b0 n h' vf.1 (S d)) K) as HKnodes.
  { apply Forall_forall. intros c Hc.
    pose proof (elem_of_sublist _ _ _ Hc Hsub) as Hcs.
    apply elem_of_seq in Hcs as [Hge Hlt].
    destruct (lookup_lt_is_Some_2 l (c - length h)) as [ch Hch]; [lia|].
    pose proof (child_lookup h cur s l _ ch Hch) as Hlook.
    replace (length h + (c - length h))%nat with c in Hlook by lia.
    fold h' in Hlook.
    pose proof (list_elem_of_lookup_2 _ _ _ Hch) as Hchl.
    assert (slide (board s) ch.1) as Hslide.
    { destruct ch as [b' mv]. by eapply child_slide. }
    exists (mk_child cur s ch), (p ++ [ch.1]). split_and!.
    - done.
    - cbn. rewrite (child_length _ _ _ _ _ _ Hl Hchl). apply Hv.
    - apply (path_child _ _ (mk_child cur s ch) cur); cbn; try done.
      + apply lookup_lt_Some in Hcur. lia.
      + by eapply path_to_extends.
    - rewrite length_app. simpl. lia.
    - cbn. by eapply reach_S.
    - cbn. intros k' Hk'. destruct (decide (k' ≤ d)%nat) as [Hle|]; [|lia].
      exfalso. apply (Forall_forall _ _) with (x := c) in Hfresh; [|done].
      destruct Hfresh as (sc & Hsc & Hnin).
      rewrite Hlook in Hsc. injection Hsc as <-. apply Hnin. cbn. by eapply Hnear.
    - apply (visit_covers h' _ V (Q1 ++ Q2) Hsome c (mk_child cur s ch));
        [apply elem_of_seq; lia|done].
    - cbn. destruct ch as [b' mv]. by eapply child_valid. }
  assert (∀ v, v ∈ vf.1 → valid_board n v) as Hvalid'.
  { intros v Hv'. destruct (visit_origin h' _ V (Q1 ++ Q2) v Hv')
      as [?|(c & sc & Hc & Hsc & <-)]; [by apply Hvalid|].
    apply elem_of_seq in Hc as [Hge Hlt].
    destruct (lookup_lt_is_Some_2 l (c - length h)) as [ch Hch]; [lia|].
    pose proof (child_lookup h cur s l _ ch Hch) as Hlook.
    replace (length h + (c - length h))%nat with c in Hlook by lia.
    fold h' in Hlook. rewrite Hlook in Hsc. injection Hsc as <-. cbn.
    destruct ch as [b' mv]. eapply child_valid; [done|done|].
    by eapply list_elem_of_lookup_2. }
  assert (∀ v, v ∈ vf.1 →
     (∃ a s, a ∈ vf.2 ∧ h' !! a = Some s ∧ board s = v) ∨
     (v ≠ goal_board n ∧ ∀ w, slide v w → w ∈ vf.1)) as Hclosed'.
  { intros v Hv'. destruct (decide (v ∈ V)) as [HvV|HvV].
    - destruct (Hclosed v HvV) as [(a & sa & Ha & Hsa & <-)|[? Hcl]].
      + apply elem_of_cons in Ha as [->|Ha].
        * assert (sa = s) as -> by congruence. right. split.
          { apply is_goal_false in Hg. by rewrite Hsz in Hg. }
          intros w Hw.
          pose proof (slide_child _ _ _ _ _ _ Hv H0 Hl Hw) as Hwl.
          apply list_elem_of_fmap in Hwl as ([w' mv] & -> & Hwl).
          apply list_elem_of_lookup in Hwl as [i Hi].
          apply (visit_covers h' _ V (Q1 ++ Q2) Hsome (length h + i)%nat
                   (mk_child cur s (w', mv))).
          -- apply elem_of_seq. apply lookup_lt_Some in Hi. lia.
          -- by apply child_lookup.
        * left. exists a, sa. rewrite HK. split_and!; [set_solver| |done].
          by apply lookup_app_l_Some.
      + right. split; [done|]. intros w Hw. apply HVV. by apply Hcl.
    - destruct (Hnew v Hv' HvV) as (c & sc & Hc & Hsc & <-).
      left. exists c, sc. rewrite HK. set_solver. }
  split; [|rewrite HK, Hsize, !length_app; lia].
  assert (Forall (bfs_node b0 n h' vf.1 d) Q1) as H1'.
  { eapply Forall_impl; [done|]. intros a. by apply bfs_node_mono. }
  assert (Forall (bfs_node b0 n h' vf.1 (S d)) (Q2 ++ K)) as H2'.
  { apply Forall_app. split; [|done].
    eapply Forall_impl; [done|]. intros a. by apply bfs_node_mono. }
  destruct Q1 as [|a1 Q1].
  - (* the level is exhausted: the queue now holds level d+1 only *)
    exists (S d), (Q2 ++ K), [].
    split_and!; [by rewrite HK, app_nil_r|done|done|constructor|done|done| |by apply HVV].
    intros Hne' w k Hrw Hk.
    destruct (decide (k ≤ d)%nat) as [Hle|Hgt]; [apply HVV; by eapply Hnear|].
    assert (k = S d) as -> by lia.
    apply reach_pred in Hrw as (u & Hru & Hsl).
    assert (u ∈ V) as Hu by (by eapply Hnear).
    destruct (Hclosed' u (HVV _ Hu)) as [(a & sa & Ha & Hsa & <-)|[_ Hcl]];
      [|by apply Hcl].
    rewrite HK in Ha. simpl in Ha.
    apply (Forall_forall _ _) with (x := a) in H2'; [|done].
    destruct H2' as (sa' & ? & Hsa' & _ & _ & _ & _ & Hmin' & _).
    assert (sa' = sa) as -> by congruence.
    apply Hmin' in Hru. lia.
  - exists d, (a1 :: Q1), (Q2 ++ K).
    split_and!; [by rewrite HK, <- app_assoc|done|done|done|done|done| |by apply HVV].
    intros _ w k Hrw Hk. apply HVV. by eapply Hnear.
Qed.

Lemma bfs_loop_complete D fuel :
  shortest b0 (goal_board n) D →
  ∀ h Q V ne mq (E : nat),
    bfs_inv b0 n h Q V →
    (base.size V = E + length Q)%nat →
    (base.size (all_boards n) < fuel + E)%nat →
    ∃ path ne' mq' h',
      bfs_loop fuel Q V ne mq h =
        Ok (success_dict "BFS" "max_queue_size" path ne' mq', h') ∧
      length path = S D.
Proof.
  intros [HD Hmin]. induction fuel as [|fuel IH]; intros h Q V ne mq E Hinv Hsize Hfuel.
  { exfalso.
    assert (V ⊆ all_boards n) as Hsub.
    { destruct Hinv as (_ & _ & _ & _ & _ & _ & _ & Hvalid & _).
      intros v Hv. by apply valid_in_all_boards, Hvalid. }
    apply subseteq_size in Hsub. lia. }
  destruct Q as [|cur Q].
  { exfalso. by destruct (bfs_inv_empty _ _ _ _ Hinv HD). }
  destruct (bfs_inv_head _ _ _ _ Hinv) as (d & Hnode & Hnear).
  destruct Hnode as (s & p & Hs & Hsz & Hpath & Hlen & Hr & Hmin' & Hin & Hv).
  destruct (is_goal s) eqn:Hg.
  - exists p, (ne + 1), (mq `max` Z.of_nat (length (cur :: Q))), h.
    split; [by apply (bfs_goal_step _ _ _ _ _ _ _ s)|]. rewrite Hlen. f_equal.
    apply is_goal_spec in Hg. rewrite Hsz in Hg. rewrite Hg in Hr, Hmin'.
    apply Hmin in Hr. apply Hmin' in HD. lia.
  - destruct (bfs_step fuel cur Q V ne mq h s Hs Hg Hsz Hv)
      as (row & col & l & Hfe & Hl & H0 & Heq).
    cbv zeta in Heq. rewrite Heq.
    destruct (bfs_inv_step h cur Q V s row col l Hinv Hs Hg Hfe Hl) as [Hinv' Hsz'].
    cbv zeta in Hinv', Hsz'.
    eapply (IH _ _ _ _ _ (S E)); [done| |lia].
    simpl in Hsize. lia.
Qed.
End bfs.

(** ** The Manhattan heuristic *)

Lemma manhattan_distance_md s : manhattan_distance s = md (size s) (board s).
Proof. reflexivity. Qed.

Ltac tile_cases t :=
  match goal with
  | H : 0 ≤ t < Z.of_nat (3 * 3) |- _ =>
      assert (t = 0 ∨ t = 1 ∨ t = 2 ∨ t = 3 ∨ t = 4 ∨ t = 5 ∨ t = 6 ∨ t = 7 ∨ t = 8)
        as [-> | [-> | [-> | [-> | [-> | [-> | [-> | [-> | ->]]]]]]]] by lia
  | H : 0 ≤ t < Z.of_nat (2 * 2) |- _ =>
      assert (t = 0 ∨ t = 1 ∨ t = 2 ∨ t = 3) as [-> | [-> | [-> | ->]]] by lia
  end.

(** Evaluates the closed tests and dictionary lookups of [tile_cost]. *)
Ltac eval_tile :=
  unfold tile_cost;
  repeat match goal with
  | |- context [bool_decide ?P] =>
      let v := eval vm_compute in (bool_decide P) in
      change (bool_decide P) with v
  | |- context [goal_positions ?n !! ?t] =>
      let v := eval vm_compute in (goal_positions n !! t) in
      change (goal_positions n !! t) with v
  end;
  cbv iota beta.

Lemma tile_distance_valid n b i j t :
  (n = 2 ∨ n = 3)%nat → get_cell b i j = Ok t → 0 ≤ t < Z.of_nat (n * n) →
  tile_distance n b i j = Ok (tile_cost n t i j).
Proof.
  intros Hn Hc Ht. unfold tile_distance, tile_cost. rewrite Hc.
  case_bool_decide; [|done].
  destruct Hn as [-> | ->]; tile_cases t; done.
Qed.

Lemma tile_cost_blank n i j : tile_cost n 0 i j = 0.
Proof. done. Qed.

Lemma tile_cost_nonneg n t i j : 0 ≤ tile_cost n t i j.
Proof.
  unfold tile_cost. case_bool_decide; [|done].
  destruct (goal_positions n !! t) as [[gr gc]|]; lia.
Qed.

Lemma tile_cost_adjacent n t (i j i' j' : nat) :
  (n = 2 ∨ n = 3)%nat → 0 ≤ t < Z.of_nat (n * n) → adjacent i j i' j' →
  Z.abs (tile_cost n t i j - tile_cost n t i' j') ≤ 1.
Proof.
  intros Hn Ht Hadj. unfold adjacent in Hadj.
  destruct Hn as [-> | ->]; tile_cases t; eval_tile; lia.
Qed.

(** The cells where a tile costs nothing: the blank anywhere, and a
    tile on its goal cell. *)
Lemma tile_cost_zero n t (i j : nat) :
  (n = 2 ∨ n = 3)%nat → 0 ≤ t < Z.of_nat (n * n) →
  (i < n)%nat → (j < n)%nat →
  tile_cost n t i j = 0 ↔
  t = 0 ∨ (t = Z.of_nat (i * n + j) + 1 ∧ (i * n + j + 1 < n * n)%nat).
Proof.
  intros Hn Ht Hi Hj.
  destruct Hn as [-> | ->]; tile_cases t; eval_tile; lia.
Qed.

Lemma shaped2_inv b :
  shaped 2 b → ∃ a1 a2 a3 a4 : Z, b = [[a1; a2]; [a3; a4]].
Proof.
  intros [Hl Hf].
  destruct b as [|r1 [|r2 [|]]]; try done.
  apply Forall_cons in Hf as [H1 Hf]. apply Forall_cons in Hf as [H2 _].
  destruct r1 as [|a1 [|a2 [|]]]; try done.
  destruct r2 as [|a3 [|a4 [|]]]; try done. eauto 10.
Qed.

Lemma shaped3_inv b :
  shaped 3 b →
  ∃ a1 a2 a3 a4 a5 a6 a7 a8 a9 : Z,
    b = [[a1; a2; a3]; [a4; a5; a6]; [a7; a8; a9]].
Proof.
  intros [Hl Hf].
  destruct b as [|r1 [|r2 [|r3 [|]]]]; try done.
  apply Forall_cons in Hf as [H1 Hf]. apply Forall_cons in Hf as [H2 Hf].
  apply Forall_cons in Hf as [H3 _].
  destruct r1 as [|a1 [|a2 [|a3 [|]]]]; try done.
  destruct r2 as [|a4 [|a5 [|a6 [|]]]]; try done.
  destruct r3 as [|a7 [|a8 [|a9 [|]]]]; try done. eauto 20.
Qed.

Lemma md2 a1 a2 a3 a4 :
  Forall (λ t, 0 ≤ t < Z.of_nat (2 * 2)) [a1; a2; a3; a4] →
  md 2 [[a1; a2]; [a3; a4]] =
  Ok (0 + tile_cost 2 a1 0 0 + tile_cost 2 a2 0 1
        + tile_cost 2 a3 1 0 + tile_cost 2 a4 1 1).
Proof.
  intros H. repeat (apply Forall_cons in H as [? H]).
  unfold md. cbn [manhattan_rows manhattan_row seq].
  repeat (erewrite tile_distance_valid; [|by left|reflexivity|done]).
  done.
Qed.

Lemma md3 a1 a2 a3 a4 a5 a6 a7 a8 a9 :
  Forall (λ t, 0 ≤ t < Z.of_nat (3 * 3)) [a1; a2; a3; a4; a5; a6; a7; a8; a9] →
  md 3 [[a1; a2; a3]; [a4; a5; a6]; [a7; a8; a9]] =
  Ok (0 + tile_cost 3 a1 0 0 + tile_cost 3 a2 0 1 + tile_cost 3 a3 0 2
        + tile_cost 3 a4 1 0 + tile_cost 3 a5 1 1 + tile_cost 3 a6 1 2
        + tile_cost 3 a7 2 0 + tile_cost 3 a8 2 1 + tile_cost 3 a9 2 2).
Proof.
  intros H. repeat (apply Forall_cons in H as [? H]).
  unfold md. cbn [manhattan_rows manhattan_row seq].
  repeat (erewrite tile_distance_valid; [|by right|reflexivity|done]).
  done.
Qed.

Lemma valid_cells n b :
  valid_board n b → Forall (λ t, 0 ≤ t < Z.of_nat (n * n)) (mjoin b).
Proof.
  intros [_ Hp]. rewrite Hp. apply Forall_forall. intros t Ht%elem_of_seqZ. lia.
Qed.

Ltac small_index r :=
  match goal with
  | H : (r < 2)%nat |- _ => destruct r as [|[|r]]; [| |exfalso; lia]
  | H : (r < 3)%nat |- _ => destruct r as [|[|[|r]]]; [| | |exfalso; lia]
  end.

Ltac split_range :=
  repeat match goal with
  | H : Forall _ (_ :: _) |- _ => apply Forall_cons in H as [? H]
  end.

Ltac solve_range :=
  repeat (apply Forall_cons; split; [assumption || lia|]); apply Forall_nil_2.

(** One slide changes the heuristic by exactly one tile's distance, which
    moves by at most one. *)
Lemma md_slide n b b' :
  (n = 2 ∨ n = 3)%nat → valid_board n b → slide b b' →
  ∃ d d', md n b = Ok d ∧ md n b' = Ok d' ∧ Z.abs (d - d') ≤ 1.
Proof.
  intros Hn Hv (r & c & r' & c' & t & H0 & Ht & Hadj & ->).
  pose proof (get_cell_bounds _ _ _ _ _ (proj1 Hv) H0) as [Hr Hc].
  pose proof (get_cell_bounds _ _ _ _ _ (proj1 Hv) Ht) as [Hr' Hc'].
  pose proof (valid_cell_range _ _ _ _ _ Hv Ht) as Htr.
  pose proof (tile_cost_adjacent n t r c r' c' Hn Htr Hadj) as Hcost.
  pose proof (valid_cells _ _ Hv) as Hcells.
  destruct Hn as [-> | ->].
  - destruct (shaped2_inv b (proj1 Hv)) as (a1 & a2 & a3 & a4 & ->).
    csimpl in Hcells. split_range.
    small_index r; small_index c; small_index r'; small_index c';
      try (exfalso; unfold adjacent in Hadj; lia);
      cbn in H0, Ht; injection H0 as ->; injection Ht as ->;
      eexists _, _; (split_and!; [apply md2; solve_range|apply md2; solve_range|]);
      rewrite ?tile_cost_blank; lia.
  - destruct (shaped3_inv b (proj1 Hv))
      as (a1 & a2 & a3 & a4 & a5 & a6 & a7 & a8 & a9 & ->).
    csimpl in Hcells. split_range.
    small_index r; small_index c; small_index r'; small_index c';
      try (exfalso; unfold adjacent in Hadj; lia);
      cbn in H0, Ht; injection H0 as ->; injection Ht as ->;
      eexists _, _; (split_and!; [apply md3; solve_range|apply md3; solve_range|]);
      rewrite ?tile_cost_blank; lia.
Qed.

Lemma md_valid n b :
  (n = 2 ∨ n = 3)%nat → valid_board n b → ∃ d, md n b = Ok d ∧ 0 ≤ d.
Proof.
  intros Hn Hv. pose proof (valid_cells _ _ Hv) as Hcells.
  destruct Hn as [-> | ->].
  - destruct (shaped2_inv b (proj1 Hv)) as (a1 & a2 & a3 & a4 & ->).
    csimpl in Hcells. eexists. split; [by apply md2|].
    pose proof (tile_cost_nonneg 2 a1 0 0). pose proof (tile_cost_nonneg 2 a2 0 1).
    pose proof (tile_cost_nonneg 2 a3 1 0). pose proof (tile_cost_nonneg 2 a4 1 1).
    lia.
  - destruct (shaped3_inv b (proj1 Hv))
      as (a1 & a2 & a3 & a4 & a5 & a6 & a7 & a8 & a9 & ->).
    csimpl in Hcells. eexists. split; [by apply md3|].
    pose proof (tile_cost_nonneg 3 a1 0 0). pose proof (tile_cost_nonneg 3 a2 0 1).
    pose proof (tile_cost_nonneg 3 a3 0 2). pose proof (tile_cost_nonneg 3 a4 1 0).
    pose proof (tile_cost_nonneg 3 a5 1 1). pose proof (tile_cost_nonneg 3 a6 1 2).
    pose proof (tile_cost_nonneg 3 a7 2 0). pose proof (tile_cost_nonneg 3 a8 2 1).
    pose proof (tile_cost_nonneg 3 a9 2 2). lia.
Qed.

Lemma md_goal n : (n = 2 ∨ n = 3)%nat → md n (goal_board n) = Ok 0.
Proof. by intros [-> | ->]. Qed.

Ltac split_NoDup H :=
  repeat (apply NoDup_cons in H as [? H]);
  repeat match goal with
  | H' : _ ∉ _ :: _ |- _ => apply not_elem_of_cons in H' as [? H']
  end.

Lemma md_zero_goal n b :
  (n = 2 ∨ n = 3)%nat → valid_board n b → md n b = Ok 0 → b = goal_board n.
Proof.
  intros Hn Hv Hz. pose proof (valid_cells _ _ Hv) as Hcells.
  assert (NoDup (mjoin b)) as Hnd.
  { destruct Hv as [_ Hp]. rewrite Hp. apply NoDup_seqZ. }
  destruct Hn as [-> | ->].
  - destruct (shaped2_inv b (proj1 Hv)) as (a1 & a2 & a3 & a4 & ->).
    csimpl in Hcells; csimpl in Hnd. rewrite md2 in Hz by done. injection Hz as Hz.
    split_range.
    pose proof (tile_cost_nonneg 2 a1 0 0). pose proof (tile_cost_nonneg 2 a2 0 1).
    pose proof (tile_cost_nonneg 2 a3 1 0). pose proof (tile_cost_nonneg 2 a4 1 1).
    assert (tile_cost 2 a1 0 0 = 0) as E1 by lia.
    assert (tile_cost 2 a2 0 1 = 0) as E2 by lia.
    assert (tile_cost 2 a3 1 0 = 0) as E3 by lia.
    assert (tile_cost 2 a4 1 1 = 0) as E4 by lia.
    apply tile_cost_zero in E1, E2, E3, E4; try done; try lia; try (by left).
    assert (a4 = 0) as -> by lia.
    split_NoDup Hnd.
    destruct E1 as [?|[-> _]]; [congruence|].
    destruct E2 as [?|[-> _]]; [congruence|].
    destruct E3 as [?|[-> _]]; [congruence|].
    reflexivity.
  - destruct (shaped3_inv b (proj1 Hv))
      as (a1 & a2 & a3 & a4 & a5 & a6 & a7 & a8 & a9 & ->).
    csimpl in Hcells; csimpl in Hnd. rewrite md3 in Hz by done. injection Hz as Hz.
    split_range.
    pose proof (tile_cost_nonneg 3 a1 0 0). pose proof (tile_cost_nonneg 3 a2 0 1).
    pose proof (tile_cost_nonneg 3 a3 0 2). pose proof (tile_cost_nonneg 3 a4 1 0).
    pose proof (tile_cost_nonneg 3 a5 1 1). pose proof (tile_cost_nonneg 3 a6 1 2).
    pose proof (tile_cost_nonneg 3 a7 2 0). pose proof (tile_cost_nonneg 3 a8 2 1).
    pose proof (tile_cost_nonneg 3 a9 2 2).
    assert (tile_cost 3 a1 0 0 = 0) as E1 by lia.
    assert (tile_cost 3 a2 0 1 = 0) as E2 by lia.
    assert (tile_cost 3 a3 0 2 = 0) as E3 by lia.
    assert (tile_cost 3 a4 1 0 = 0) as E4 by lia.
    assert (tile_cost 3 a5 1 1 = 0) as E5 by lia.
    assert (tile_cost 3 a6 1 2 = 0) as E6 by lia.
    assert (tile_cost 3 a7 2 0 = 0) as E7 by lia.
    assert (tile_cost 3 a8 2 1 = 0) as E8 by lia.
    assert (tile_cost 3 a9 2 2 = 0) as E9 by lia.
    apply tile_cost_zero in E1, E2, E3, E4, E5, E6, E7, E8, E9;
      try done; try lia; try (by right).
    assert (a9 = 0) as -> by lia.
    split_NoDup Hnd.
    destruct E1 as [?|[-> _]]; [congruence|].
    destruct E2 as [?|[-> _]]; [congruence|].
    destruct E3 as [?|[-> _]]; [congruence|].
    destruct E4 as [?|[-> _]]; [congruence|].
    destruct E5 as [?|[-> _]]; [congruence|].
    destruct E6 as [?|[-> _]]; [congruence|].
    destruct E7 as [?|[-> _]]; [congruence|].
    destruct E8 as [?|[-> _]]; [congruence|].
    reflexivity.
Qed.

Lemma md_reach n k b b' :
  (n = 2 ∨ n = 3)%nat → valid_board n b → reach k b b' →
  ∃ d d', md n b = Ok d ∧ md n b' = Ok d' ∧ d ≤ Z.of_nat k + d'.
Proof.
  intros Hn Hv Hr. induction Hr as [|k b b' b'' Hr IH Hs].
  - destruct (md_valid n b Hn Hv) as (d & Hd & _). exists d, d. split_and!; [done..|lia].
  - destruct (IH Hv) as (d & d' & Hd & Hd' & Hle).
    destruct (md_slide n b' b'' Hn (reach_valid _ _ _ _ Hv Hr) Hs)
      as (e & e' & He & He' & Habs).
    assert (e = d') as -> by congruence.
    exists d, e'. split_and!; [done..|lia].
Qed.

Lemma md_admissible n k b d :
  (n = 2 ∨ n = 3)%nat → valid_board n b → reach k b (goal_board n) →
  md n b = Ok d → d ≤ Z.of_nat k.
Proof.
  intros Hn Hv Hr Hd.
  destruct (md_reach n k b _ Hn Hv Hr) as (d1 & d2 & Hd1 & Hd2 & Hle).
  rewrite md_goal in Hd2 by done. injection Hd2 as <-.
  assert (d1 = d) as -> by congruence. lia.
Qed.

(** ** Checking a path by computation *)

Lemma next_boards_slide n b b' : b' ∈ next_boards n b → slide b b'.
Proof.
  unfold next_boards.
  destruct (find_empty_rows b n (seq 0 n)) as [[[row col]|]| |] eqn:Hfe;
    try (by intros ?%elem_of_nil).
  destruct (child_specs n b row col moves) as [l| |] eqn:Hl;
    try (by intros ?%elem_of_nil).
  intros ([b'' mv] & -> & Hin)%list_elem_of_fmap.
  apply find_empty_rows_Some in Hfe as (_ & _ & H0).
  by eapply child_slide.
Qed.

Lemma reach_cons k b b' b'' : slide b b' → reach k b' b'' → reach (S k) b b''.
Proof.
  intros Hs Hr. induction Hr as [|k b' c c' Hr IH Hs'].
  - eapply reach_S; [constructor|done].
  - eapply reach_S; [by apply IH|done].
Qed.

Lemma path_ok_reach n l b g :
  path_ok n (b :: l) = true → last (b :: l) = Some g → reach (length l) b g.
Proof.
  revert b. induction l as [|b' l IH]; intros b Hp Hlast.
  { injection Hlast as <-. constructor. }
  simpl in Hp. apply andb_true_iff in Hp as [Hstep Hp].
  apply bool_decide_eq_true in Hstep. rewrite last_cons_cons in Hlast.
  simpl. eapply reach_cons; [by apply (next_boards_slide n)|by apply IH].
Qed.

(** ** Sublists and reversal *)


(** ** Single iterations of [dfs_loop] *)

Lemma dfs_limit_step fuel limit stack cur V ne ms h s :
  h !! cur = Some s → is_goal s = false → limit ≤ depth s →
  dfs_loop (S fuel) limit (stack ++ [cur]) V ne ms h =
  dfs_loop fuel limit stack V (ne + 1)
           (ms `max` Z.of_nat (length (stack ++ [cur]))) h.
Proof.
  intros Hcur Hg Hd. cbn [dfs_loop]. rewrite list_pop_snoc.
  rewrite bind_unfold. unfold deref. rewrite Hcur, Hg.
  by rewrite bool_decide_eq_false_2 by lia.
Qed.


Lemma dfs_expand_step fuel limit stack cur V ne ms h s succs h' :
  h !! cur = Some s → is_goal s = false → depth s < limit →
  get_successors cur h = Ok (succs, h') →
  dfs_loop (S fuel) limit (stack ++ [cur]) V ne ms h =
  dfs_loop fuel limit (visit h' (reverse succs) V stack).2
           (visit h' (reverse succs) V stack).1 (ne + 1)
           (ms `max` Z.of_nat (length (stack ++ [cur]))) h'.
Proof.
  intros Hcur Hg Hd Hsucc. cbn [dfs_loop]. rewrite list_pop_snoc.
  rewrite bind_unfold. unfold deref. rewrite Hcur, Hg.
  rewrite bool_decide_eq_true_2 by done.
  rewrite bind_unfold, Hsucc, bind_unfold, append_unvisited_spec.
  - by destruct (visit h' (reverse succs) V stack).
  - apply get_successors_Ok in Hsucc as (s' & row & col & l & _ & _ & _ & -> & ->).
    apply Forall_reverse, Forall_forall. intros a [? ?]%elem_of_seq.
    apply lookup_lt_is_Some_2. rewrite length_app, length_fmap. lia.
Qed.

(** ** The dispatch function *)

Lemma solve_puzzle_shape_ok fuel board alg h :
  (length board = 2 ∨ length board = 3)%nat →
  Forall (λ row, length row = length board) board →
  solve_puzzle fuel board alg h =
  let a := length h in
  let h1 := h ++ [initial_state board] in
  if bool_decide (alg = "BFS") then bfs_solve fuel a h1
  else if bool_decide (alg = "DFS") then dfs_solve fuel a 50 h1
  else if bool_decide (alg = "A*") then astar_solve fuel a h1
  else Ok (list_to_map [("success", VBool false);
                        ("error", VStr ("Unknown algorithm: " +:+ alg))], h1).
Proof.
  intros Hlen Hrows. unfold solve_puzzle.
  rewrite bool_decide_eq_false_2 by (destruct Hlen as [-> | ->]; set_solver).
  assert (existsb (λ row, bool_decide (length row ≠ length board)) board = false)
    as ->.
  { apply not_true_is_false. intros (row & Hin & Hne)%existsb_exists.
    apply bool_decide_eq_true in Hne. apply Hne.
    apply list_elem_of_In in Hin. by apply (proj1 (Forall_forall _ _) Hrows). }
  rewrite bind_unfold. unfold PuzzleState_init, initial_state. simpl.
  repeat case_bool_decide; done.
Qed.

(** ** Boards without a blank *)

Lemma no_blank_not_goal s :
  (∀ r c v, get_cell (board s) r c = Ok v → v ≠ 0) → is_goal s = false.
Proof.
  intros Hno. apply is_goal_false. intros Hg.
  unfold goal_board in Hg. case_bool_decide.
  - apply (Hno 1%nat 1%nat 0 ltac:(by rewrite Hg) eq_refl).
  - apply (Hno 2%nat 2%nat 0 ltac:(by rewrite Hg) eq_refl).
Qed.

Lemma no_blank_get_successors a h s :
  h !! a = Some s → shaped (size s) (board s) →
  (∀ r c v, get_cell (board s) r c = Ok v → v ≠ 0) →
  get_successors a h = Raise TypeError.
Proof.
  intros Ha Hs Hno. rewrite get_successors_spec, Ha.
  destruct (find_empty_shaped s Hs) as [(r & c & Hfe)|[-> _]]; [|done].
  apply find_empty_Some in Hfe as (_ & _ & H0). by apply Hno in H0.
Qed.

Lemma tile_distance_shaped n b i j v :
  get_cell b i j = Ok v →
  (∃ d, tile_distance n b i j = Ok d) ∨ tile_distance n b i j = Raise KeyError.
Proof.
  intros Hv. unfold tile_distance. rewrite Hv. case_bool_decide; [|eauto].
  destruct (goal_positions n !! v) as [[gr gc]|]; eauto.
Qed.

Lemma manhattan_row_shaped n b i js acc :
  (∀ j, j ∈ js → ∃ v, get_cell b i j = Ok v) →
  (∃ d, manhattan_row n b i js acc = Ok d) ∨
  manhattan_row n b i js acc = Raise KeyError.
Proof.
  revert acc. induction js as [|j js IH]; intros acc Hc; simpl; [eauto|].
  destruct (Hc j) as [v Hv]; [set_solver|].
  destruct (tile_distance_shaped n b i j v Hv) as [[d ->]| ->]; [|by right].
  apply IH. intros. apply Hc. set_solver.
Qed.

Lemma manhattan_rows_shaped n b rows acc :
  (∀ i j, i ∈ rows → (j < n)%nat → ∃ v, get_cell b i j = Ok v) →
  (∃ d, manhattan_rows n b rows acc = Ok d) ∨
  manhattan_rows n b rows acc = Raise KeyError.
Proof.
  revert acc. induction rows as [|i rows IH]; intros acc Hc; simpl; [eauto|].
  destruct (manhattan_row_shaped n b i (seq 0 n) acc) as [[d ->]| ->].
  - intros j Hj%elem_of_seq. apply Hc; [set_solver|lia].
  - apply IH. intros. apply Hc; [set_solver|done].
  - by right.
Qed.

Lemma md_shaped n b :
  shaped n b → (∃ d, md n b = Ok d) ∨ md n b = Raise KeyError.
Proof.
  intros Hs. apply manhattan_rows_shaped.
  intros i j Hi%elem_of_seq Hj. apply (get_cell_shaped n); [done|lia|done].
Qed.

(** * The claims *)

(** ** C1: breadth-first search is optimal *)

Lemma bfs_solve_complete n b D h a0 s0 :
  (0 < n)%nat → valid_board n b → shortest b (goal_board n) D →
  h !! a0 = Some s0 → board s0 = b → size s0 = n → parent s0 = None →
  ∀ fuel, (base.size (all_boards n) < fuel)%nat →
    ∃ path ne mq h',
      bfs_solve fuel a0 h =
        Ok (success_dict "BFS" "max_queue_size" path ne mq, h') ∧
      length path = S D.
Proof.
  intros Hn Hv Hsh Ha Hb Hs Hp fuel Hfuel.
  unfold bfs_solve. rewrite bind_unfold. unfold deref. rewrite Ha, Hb.
  apply (bfs_loop_complete b n Hn D fuel Hsh h [a0] {[b]} 0 0 0%nat).
  - by eapply bfs_inv_init.
  - by rewrite size_singleton.
  - lia.
Qed.

(** C1.  For every solvable 2×2 or 3×3 board, [bfs_solve] given enough
    fuel returns a dictionary with [success = True] whose
    [solution_depth] is the length of a shortest path of slides from the
    board to the goal. *)
Theorem bfs_solve_shortest n b D h a0 s0 :
  (n = 2 ∨ n = 3)%nat → valid_board n b → shortest b (goal_board n) D →
  h !! a0 = Some s0 → board s0 = b → size s0 = n → parent s0 = None →
  ∃ fuel0, ∀ fuel, (fuel0 ≤ fuel)%nat →
    ∃ r h', bfs_solve fuel a0 h = Ok (r, h') ∧
            r !! "success" = Some (VBool true) ∧
            r !! "solution_depth" = Some (VInt (Z.of_nat D)).
Proof.
  intros Hn Hv Hsh Ha Hb Hs Hp.
  exists (S (base.size (all_boards n))). intros fuel Hfuel.
  destruct (bfs_solve_complete n b D h a0 s0) with (fuel := fuel)
    as (path & ne & mq & h' & Hrun & Hlen); try done; [lia..|].
  eexists _, h'. split; [done|].
  destruct (success_dict_lookup "BFS" "max_queue_size" path ne mq)
    as (H1 & _ & _ & H2 & _); [by left|].
  split; [done|]. rewrite H2, Hlen. do 2 f_equal. lia.
Qed.

Lemma bfs_solve_shortest_witness :
  ∃ fuel0, ∀ fuel, (fuel0 ≤ fuel)%nat →
    ∃ r h', bfs_solve fuel 0 [initial_state [[1; 2]; [0; 3]]] = Ok (r, h') ∧
            r !! "success" = Some (VBool true) ∧
            r !! "solution_depth" = Some (VInt 1).
Proof.
  apply (bfs_solve_shortest 2 [[1; 2]; [0; 3]] 1
           [initial_state [[1; 2]; [0; 3]]] 0 (initial_state [[1; 2]; [0; 3]])).
  - by left.
  - split; [split; [reflexivity|repeat constructor]|].
    apply (bool_decide_unpack _). vm_compute. exact I.
  - split.
    + apply (path_ok_reach 2 [goal2]); reflexivity.
    + intros [|k] Hr; [inversion Hr|lia].
  - reflexivity.
  - reflexivity.
  - reflexivity.
  - reflexivity.
Defined.

(** ** C3: the returned path *)

(** C3.  Whenever one of the three searches, started on a parentless
    state, returns [success = True], its [solution_path] starts with the
    input board, ends with the goal board of the input's size, every
    consecutive pair is one exchange of the blank with an orthogonally
    adjacent cell that changes the board, and [solution_depth] is the
    path's length minus one. *)
Theorem solution_path_wellformed fuel limit h a0 s0 r h' :
  h !! a0 = Some s0 → parent s0 = None → size s0 = length (board s0) →
  bfs_solve fuel a0 h = Ok (r, h') ∨ dfs_solve fuel a0 limit h = Ok (r, h')
    ∨ astar_solve fuel a0 h = Ok (r, h') →
  r !! "success" = Some (VBool true) →
  ∃ path,
    r !! "solution_path" = Some (VPath path) ∧
    head path = Some (board s0) ∧
    last path = Some (get_goal_state s0) ∧
    linked blank_move path ∧
    r !! "solution_depth" = Some (VInt (Z.of_nat (length path) - 1)).
Proof.
  intros Ha Hp Hs Hrun Hsucc.
  assert (∃ alg metric msg,
            (metric = "max_queue_size" ∨ metric = "max_stack_size") ∧
            search_post (node_ok (board s0) (size s0)) (λ _, True)
                        alg metric msg r h') as (alg & metric & msg & Hm & Hpost).
  { destruct Hrun as [Hrun|[Hrun|Hrun]].
    - eexists _, _, _. split; [|by eapply bfs_solve_path]. by left.
    - eexists _, _, _. split; [|by eapply dfs_solve_path]. by right.
    - eexists _, _, _. split; [|by eapply astar_solve_path]. by left. }
  destruct (node_ok_solution _ _ _ _ _ _ _ _ Hm Hpost Hsucc)
    as (path & H1 & H2 & H3 & H4 & H5).
  exists path. split_and!; try done.
Qed.

Lemma solution_path_wellformed_witness :
  ∃ r h' path,
    bfs_solve 5 0 [initial_state [[1; 2]; [0; 3]]] = Ok (r, h') ∧
    r !! "solution_path" = Some (VPath path) ∧
    head path = Some [[1; 2]; [0; 3]] ∧
    last path = Some goal2 ∧
    linked blank_move path ∧
    r !! "solution_depth" = Some (VInt (Z.of_nat (length path) - 1)).
Proof.
  assert (HokE : is_Ok (bfs_solve 5 0 [initial_state [[1; 2]; [0; 3]]]) = true)
    by (vm_compute; reflexivity).
  destruct (is_Ok_inv _ HokE) as [[r h'] E].
  assert (r !! "success" = Some (VBool true)) as Hsucc.
  { assert (Hobs : observe (λ x : result * store, x.1 !! "success")
                           (bfs_solve 5 0 [initial_state [[1; 2]; [0; 3]]])
                   = Some (Some (VBool true))) by (vm_compute; reflexivity).
    rewrite E in Hobs. injection Hobs as Hobs. exact Hobs. }
  destruct (solution_path_wellformed 5 0 [initial_state [[1; 2]; [0; 3]]] 0
              (initial_state [[1; 2]; [0; 3]]) r h'
              eq_refl eq_refl eq_refl (or_introl E) Hsucc)
    as (path & H1 & H2 & H3 & H4 & H5).
  exists r, h', path. split_and!; done.
Defined.

(** ** C4: the Manhattan heuristic *)

(** C4.  On a valid 2×2 or 3×3 state [manhattan_distance] returns a
    number that never exceeds the number of moves of any path to the
    goal (admissible), is at most one more than the value at any
    successor (consistent), and is 0 exactly on the goal state. *)
Theorem manhattan_admissible_consistent n s :
  (n = 2 ∨ n = 3)%nat → size s = n → valid_board n (board s) →
  ∃ d, manhattan_distance s = Ok d ∧
    (∀ k, reach k (board s) (goal_board n) → d ≤ Z.of_nat k) ∧
    (∀ h a succs h' c sc,
       h !! a = Some s → get_successors a h = Ok (succs, h') →
       c ∈ succs → h' !! c = Some sc →
       ∃ d', manhattan_distance sc = Ok d' ∧ d ≤ 1 + d') ∧
    (d = 0 ↔ is_goal s = true).
Proof.
  intros Hn Hs Hv. rewrite manhattan_distance_md, Hs.
  destruct (md_valid n (board s) Hn Hv) as (d & Hd & Hpos).
  exists d. split_and!; [done| | |].
  - intros k Hr. by eapply md_admissible.
  - intros h a succs h' c sc Ha Hsucc Hc Hsc.
    apply get_successors_Ok in Hsucc as (s' & row & col & l & Ha' & Hfe & Hl & -> & ->).
    assert (s' = s) as -> by congruence.
    apply elem_of_seq in Hc as [Hge Hlt].
    destruct (lookup_lt_is_Some_2 l (c - length h)) as [ch Hch]; [lia|].
    pose proof (child_lookup h a s l _ ch Hch) as Hlook.
    replace (length h + (c - length h))%nat with c in Hlook by lia.
    assert (sc = mk_child a s ch) as -> by congruence.
    pose proof (list_elem_of_lookup_2 _ _ _ Hch) as Hin.
    apply find_empty_Some in Hfe as (_ & _ & H0).
    assert (slide (board s) ch.1) as Hslide.
    { destruct ch as [b' mv]. by eapply child_slide. }
    rewrite manhattan_distance_md. cbn.
    rewrite (child_length _ _ _ _ _ _ Hl Hin), (proj1 (proj1 Hv)).
    destruct (md_slide n _ _ Hn Hv Hslide) as (e & e' & He & He' & Habs).
    assert (e = d) as -> by congruence.
    exists e'. split; [done|lia].
  - rewrite is_goal_spec, Hs. split.
    + intros ->. by apply md_zero_goal.
    + intros Hg. rewrite Hg, md_goal in Hd by done. by injection Hd.
Qed.

Lemma manhattan_admissible_consistent_witness :
  ∃ d, manhattan_distance (initial_state [[1; 2]; [0; 3]]) = Ok d ∧
    (∀ k, reach k [[1; 2]; [0; 3]] goal2 → d ≤ Z.of_nat k) ∧
    (d = 0 ↔ is_goal (initial_state [[1; 2]; [0; 3]]) = true).
Proof.
  destruct (manhattan_admissible_consistent 2 (initial_state [[1; 2]; [0; 3]]))
    as (d & H1 & H2 & _ & H4).
  - by left.
  - reflexivity.
  - split; [split; [reflexivity|repeat constructor]|].
    apply (bool_decide_unpack _). vm_compute. exact I.
  - exists d. split_and!; done.
Defined.

(** ** C5: malformed input and unknown algorithm names *)

Lemma existsb_rows_false (board : Board) :
  existsb (λ row, bool_decide (length row ≠ length board)) board = false ↔
  Forall (λ row, length row = length board) board.
Proof.
  rewrite Forall_forall. split.
  - intros He row Hin. destruct (decide (length row = length board)) as [|Hne]; [done|].
    assert (existsb (λ row, bool_decide (length row ≠ length board)) board = true)
      as Ht; [|congruence].
    apply existsb_exists. exists row. split; [by apply list_elem_of_In|].
    by apply bool_decide_eq_true.
  - intros Hall. apply not_true_is_false.
    intros (row & Hin%list_elem_of_In & Hne%bool_decide_eq_true)%existsb_exists.
    by apply Hne, Hall.
Qed.

(** C5 (as amended).  For a board whose number of rows is not 2 or 3, or
    with a row of another length, or for an algorithm name other than
    "BFS", "DFS", "A*", [solve_puzzle] returns a dictionary with
    [success = False] and a non-empty [error] string, without
    [solution_path] and without search metrics.  No state is expanded.
    No state is constructed when the shape is rejected; when the shape is
    accepted and only the name is unknown, the initial state, and nothing
    else, has been constructed. *)
Theorem solve_puzzle_rejects fuel board alg h :
  ¬ shape_ok board ∨ alg ∉ ["BFS"; "DFS"; "A*"] →
  ∃ r h' e,
    solve_puzzle fuel board alg h = Ok (r, h') ∧
    r !! "success" = Some (VBool false) ∧
    r !! "error" = Some (VStr e) ∧ e ≠ "" ∧
    r !! "solution_path" = None ∧ r !! "nodes_expanded" = None ∧
    (¬ shape_ok board → h' = h) ∧
    (shape_ok board → h' = h ++ [initial_state board]).
Proof.
  intros Hbad. destruct (decide (length board ∈ [2; 3]%nat)) as [Hlen|Hlen].
  - destruct (existsb (λ row, bool_decide (length row ≠ length board)) board)
      eqn:Hrows.
    + eexists _, h, _. unfold solve_puzzle.
      rewrite bool_decide_eq_false_2 by (by intros ?). rewrite Hrows.
      split; [reflexivity|]. split_and!; try done.
      intros [_ Hok%existsb_rows_false]. congruence.
    + assert (shape_ok board) as Hok.
      { split; [set_solver|by apply existsb_rows_false]. }
      destruct Hbad as [?|Halg]; [done|].
      eexists _, _, _. rewrite solve_puzzle_shape_ok by apply Hok. cbv zeta.
      rewrite !bool_decide_eq_false_2 by set_solver.
      split; [reflexivity|]. split_and!; done.
  - eexists _, h, _. unfold solve_puzzle.
    rewrite bool_decide_eq_true_2 by done.
    split; [reflexivity|]. split_and!; try done.
    intros [Hl _]. destruct Hlen. set_solver.
Qed.

Lemma solve_puzzle_rejects_witness :
  ∃ r h' e,
    solve_puzzle 7 [[1; 2; 3]; [4; 5]] "BFS" [] = Ok (r, h') ∧
    r !! "success" = Some (VBool false) ∧
    r !! "error" = Some (VStr e) ∧ e ≠ "" ∧
    r !! "solution_path" = None ∧ h' = [].
Proof.
  assert (¬ shape_ok [[1; 2; 3]; [4; 5]]) as Hshape.
  { intros [_ Hrows]. apply Forall_cons in Hrows as [Hrow _]. simpl in Hrow. lia. }
  destruct (solve_puzzle_rejects 7 [[1; 2; 3]; [4; 5]] "BFS" [] (or_introl Hshape))
    as (r & h' & e & H1 & H2 & H3 & H4 & H5 & _ & H7 & _).
  exists r, h', e. split_and!; try done. by apply H7.
Defined.

(** The claim as first stated fails for an unknown name on a well-shaped
    board: the initial state is constructed before the name is looked at. *)
Lemma solve_puzzle_unknown_constructs :
  ∃ r, solve_puzzle 0 [[1; 2]; [3; 0]] "IDA*" [] =
         Ok (r, [initial_state [[1; 2]; [3; 0]]]) ∧
       r !! "success" = Some (VBool false) ∧
       [initial_state [[1; 2]; [3; 0]]] ≠ ([] : store).
Proof. eexists. split; [reflexivity|]. split; done. Qed.

(** ** C6: which attributes are ever assigned *)




(** ** C9: the permutation invariant *)

(** C9.  From a state whose board is a permutation of 0 .. n*n-1,
    [get_successors] returns states whose boards are permutations of the
    same size, one level deeper; and every state any of the three searches
    has constructed when it returns is such a state.  (Stated for every
    [n]; the solver is used at 2 and 3.) *)
Theorem permutation_invariant n fuel limit h a s :
  h !! a = Some s → valid_board n (board s) → size s = n →
  (∀ succs h', get_successors a h = Ok (succs, h') →
     ∀ c, c ∈ succs →
       ∃ sc, h' !! c = Some sc ∧ valid_board n (board sc) ∧ size sc = n ∧
             depth sc = depth s + 1) ∧
  (∀ r h', bfs_solve fuel a h = Ok (r, h') ∨
           dfs_solve fuel a limit h = Ok (r, h') ∨
           astar_solve fuel a h = Ok (r, h') →
     created_valid n (length h) h').
Proof.
  intros Ha Hv Hs.
  assert (created_valid n (length h) h) as HS0.
  { intros a' s' Hge Hs'. apply lookup_lt_Some in Hs'. lia. }
  assert (node_valid n h a) as Hnode by (by exists s).
  split.
  - intros succs h' Hsucc c Hc.
    apply get_successors_Ok in Hsucc as (s' & row & col & l & Ha' & Hfe & Hl & -> & ->).
    assert (s' = s) as -> by congruence.
    apply elem_of_seq in Hc as [Hge Hlt].
    destruct (lookup_lt_is_Some_2 l (c - length h)) as [ch Hch]; [lia|].
    pose proof (child_lookup h a s l _ ch Hch) as Hlook.
    replace (length h + (c - length h))%nat with c in Hlook by lia.
    exists (mk_child a s ch). split; [done|].
    destruct (child_node_valid n a s row col l ch Hv Hs Hl) as [? ?].
    { by eapply list_elem_of_lookup_2. }
    done.
  - intros r h' [H|[H|H]].
    + unfold bfs_solve in H. rewrite bind_unfold in H. unfold deref in H.
      rewrite Ha in H. eapply bfs_loop_valid; [apply HS0| |done].
      by apply Forall_singleton.
    + unfold dfs_solve in H. rewrite bind_unfold in H. unfold deref in H.
      rewrite Ha in H. eapply dfs_loop_valid; [apply HS0| |done].
      by apply Forall_singleton.
    + unfold astar_solve in H. rewrite bind_unfold in H. unfold deref in H.
      rewrite Ha in H. rewrite bind_unfold in H. unfold lift in H.
      destruct (manhattan_distance s) as [c| |]; try done.
      rewrite bind_unfold in H. unfold set_cost in H. rewrite Ha in H.
      assert (created_valid n (length h) (alter (with_cost c) a h)) as HS1.
      { by apply valid_S_cost. }
      eapply astar_loop_valid; [apply HS1| |done].
      apply Forall_singleton. simpl.
      eapply (valid_P_mono n h _ ∅ ∅); [apply extends_set_cost|done|done].
Qed.

Lemma permutation_invariant_witness :
  ∃ r h',
    bfs_solve 5 0 [initial_state [[1; 2]; [0; 3]]] = Ok (r, h') ∧
    created_valid 2 1 h'.
Proof.
  assert (HokE : is_Ok (bfs_solve 5 0 [initial_state [[1; 2]; [0; 3]]]) = true)
    by (vm_compute; reflexivity).
  destruct (is_Ok_inv _ HokE) as [[r h'] E].
  exists r, h'. split; [done|].
  eapply (proj2 (permutation_invariant 2 5 0 [initial_state [[1; 2]; [0; 3]]] 0
                   (initial_state [[1; 2]; [0; 3]]) eq_refl _ eq_refl)).
  by left.
  Unshelve.
  split; [split; [reflexivity|repeat constructor]|].
  apply (bool_decide_unpack _). vm_compute. exact I.
Defined.

(** ** C7: the order of successors *)




(** ** C8: the depth limit of DFS *)



(** ** C10: boards without a blank *)

Lemma no_blank_first_step a h s :
  h !! a = Some s → shaped (size s) (board s) →
  (∀ r c v, get_cell (board s) r c = Ok v → v ≠ 0) →
  is_goal s = false ∧ find_empty s = Ok None ∧
  get_successors a h = Raise TypeError.
Proof.
  intros Ha Hs Hno. split_and!.
  - by apply no_blank_not_goal.
  - destruct (find_empty_shaped s Hs) as [(r & c & Hfe)|[-> _]]; [|done].
    apply find_empty_Some in Hfe as (_ & _ & H0). by apply Hno in H0.
  - by apply (no_blank_get_successors a h s).
Qed.

(** C10.  On a board of the accepted shape that has no cell 0, and with
    at least one loop iteration allowed, [solve_puzzle] returns no
    dictionary.  The board is not the goal and [find_empty] returns
    [None].  BFS and DFS raise [TypeError], which is what
    [get_successors] raises on the initial state.  A* first evaluates
    [manhattan_distance] on the initial state: when that returns, A*
    raises the same [TypeError]; when it raises [KeyError] (a tile that
    the goal table of the size does not list), A* raises that [KeyError]
    and never calls [get_successors]. *)
Theorem no_blank_raises fuel b h :
  (0 < fuel)%nat → shape_ok b →
  (∀ r c v, get_cell b r c = Ok v → v ≠ 0) →
  is_goal (initial_state b) = false ∧
  find_empty (initial_state b) = Ok None ∧
  get_successors (length h) (h ++ [initial_state b]) = Raise TypeError ∧
  solve_puzzle fuel b "BFS" h = Raise TypeError ∧
  solve_puzzle fuel b "DFS" h = Raise TypeError ∧
  (((∃ d, manhattan_distance (initial_state b) = Ok d) ∧
    solve_puzzle fuel b "A*" h = Raise TypeError) ∨
   (manhattan_distance (initial_state b) = Raise KeyError ∧
    solve_puzzle fuel b "A*" h = Raise KeyError)).
Proof.
  intros Hfuel [Hlen Hrows] Hno.
  assert (Hlook : (h ++ [initial_state b]) !! length h
                  = Some (initial_state b)).
  { by rewrite lookup_app_r, Nat.sub_diag by lia. }
  assert (Hshaped : shaped (size (initial_state b))
                           (board (initial_state b))) by done.
  destruct (no_blank_first_step _ _ _ Hlook Hshaped Hno) as (Hg & Hfe & Hsucc).
  destruct fuel as [|fuel]; [lia|].
  split_and!; [done..| | |].
  - rewrite solve_puzzle_shape_ok by done. cbv zeta.
    rewrite bool_decide_eq_true_2 by done.
    unfold bfs_solve. rewrite bind_unfold. unfold deref at 1. rewrite Hlook.
    cbn [bfs_loop]. rewrite bind_unfold. unfold deref at 1. rewrite Hlook, Hg.
    by rewrite bind_unfold, Hsucc.
  - rewrite solve_puzzle_shape_ok by done. cbv zeta.
    rewrite bool_decide_eq_false_2 by done.
    rewrite bool_decide_eq_true_2 by done.
    unfold dfs_solve. rewrite bind_unfold. unfold deref at 1. rewrite Hlook.
    cbn [dfs_loop list_pop reverse rev_append].
    rewrite bind_unfold. unfold deref at 1. rewrite Hlook, Hg.
    rewrite bool_decide_eq_true_2 by (simpl; lia).
    by rewrite bind_unfold, Hsucc.
  - rewrite solve_puzzle_shape_ok by done. cbv zeta.
    rewrite bool_decide_eq_false_2 by done.
    rewrite bool_decide_eq_false_2 by done.
    rewrite bool_decide_eq_true_2 by done.
    unfold astar_solve. rewrite bind_unfold. unfold deref. rewrite Hlook.
    rewrite bind_unfold.
    rewrite manhattan_distance_md. simpl size. simpl board.
    destruct (md_shaped (length b) b) as [[d Hd]|Hd]; [done| |]; rewrite Hd.
    + left. split; [by exists d|].
      unfold lift. rewrite bind_unfold. unfold set_cost. rewrite Hlook.
      set (h2 := alter (with_cost d) (length h) (h ++ [initial_state b])).
      assert (Hlook2 : h2 !! length h = Some (with_cost d (initial_state b))).
      { unfold h2. rewrite list_lookup_alter, Hlook. by rewrite decide_True. }
      destruct (no_blank_first_step _ _ _ Hlook2 Hshaped Hno) as (Hg2 & _ & Hsucc2).
      cbn [astar_loop]. rewrite bind_unfold.
      cbn [heappop list_pop reverse rev_append].
      rewrite bind_unfold. unfold deref at 1. rewrite Hlook2, Hg2.
      by rewrite bind_unfold, Hsucc2.
    + by right.
Qed.

Lemma no_blank_raises_witness :
  solve_puzzle 1 [[1; 2]; [3; 3]] "BFS" [] = Raise TypeError ∧
  solve_puzzle 1 [[1; 2]; [3; 3]] "DFS" [] = Raise TypeError ∧
  solve_puzzle 1 [[1; 2]; [3; 3]] "A*" [] = Raise TypeError.
Proof.
  assert (Hno : ∀ r c v, get_cell [[1; 2]; [3; 3]] r c = Ok v → v ≠ 0).
  { intros [|[|r]] [|[|c]] v; simpl; intros [= <-]; lia. }
  destruct (no_blank_raises 1 [[1; 2]; [3; 3]] [] ltac:(lia)
              ltac:(split; [by left|by repeat constructor]) Hno)
    as (_ & _ & _ & Hb & Hd & [[_ Ha]|[Hk _]]).
  - done.
  - vm_compute in Hk. discriminate.
Defined.

(** The exception of A* need not come from [get_successors]: with the
    tile 4 on a 2×2 board, [manhattan_distance] raises [KeyError] before
    the loop starts, whatever the fuel. *)
Lemma astar_no_blank_keyerror :
  shape_ok [[1; 2]; [3; 4]] ∧
  (∀ r c v, get_cell [[1; 2]; [3; 4]] r c = Ok v → v ≠ 0) ∧
  manhattan_distance (initial_state [[1; 2]; [3; 4]]) = Raise KeyError ∧
  ∀ fuel, solve_puzzle fuel [[1; 2]; [3; 4]] "A*" [] = Raise KeyError.
Proof.
  split_and!.
  - split; [by left|by repeat constructor].
  - intros [|[|r]] [|[|c]] v; simpl; intros [= <-]; lia.
  - reflexivity.
  - intros fuel. reflexivity.
Qed.

(** ** C2: A* against breadth-first search *)

Lemma astar_loop_fuel_mono (fuel fuel' : nat) (pq : list (Z * Z * addr))
    (V : gset Board) (ne mq : Z) (h : store) (x : result * store) :
  (fuel ≤ fuel')%nat →
  astar_loop fuel pq V ne mq h = Ok x → astar_loop fuel' pq V ne mq h = Ok x.
Proof.
  revert fuel' pq V ne mq h.
  induction fuel as [|fuel IH]; intros fuel' pq V ne mq h Hle Hrun; [done|].
  destruct fuel' as [|fuel']; [lia|].
  cbn [astar_loop] in Hrun |- *. rewrite bind_unfold in Hrun. rewrite bind_unfold.
  destruct (heappop _ pq) as [[[[f hn] cur] pq']|]; [|done].
  rewrite bind_unfold in Hrun. rewrite bind_unfold.
  destruct (deref cur h) as [[s h1]| |]; [|done..].
  destruct (is_goal s); [done|].
  rewrite bind_unfold in Hrun. rewrite bind_unfold.
  destruct (get_successors cur h1) as [[succs h2]| |]; [|done..].
  rewrite bind_unfold in Hrun. rewrite bind_unfold.
  destruct (astar_visit succs V pq' h2) as [[[V' pq''] h3]| |]; [|done..].
  apply IH; [lia|done].
Qed.

(** C2.  On [detour_board], a valid 3×3 board whose shortest solution
    has 10 moves, [solve_puzzle] with BFS returns [solution_depth = 10]
    (for every sufficient fuel) while [solve_puzzle] with A* returns
    success with [solution_depth = 12] (for every fuel of at least 21
    iterations): the two depths differ and the depth of A* is not
    optimal. *)
Theorem astar_not_optimal :
  valid_board 3 detour_board ∧
  shortest detour_board (goal_board 3) 10 ∧
  (∃ fuel0, ∀ fuel, (fuel0 ≤ fuel)%nat →
     ∃ r h', solve_puzzle fuel detour_board "BFS" [] = Ok (r, h') ∧
             r !! "success" = Some (VBool true) ∧
             r !! "solution_depth" = Some (VInt 10)) ∧
  (∀ fuel, (21 ≤ fuel)%nat →
     ∃ r h', solve_puzzle fuel detour_board "A*" [] = Ok (r, h') ∧
             r !! "success" = Some (VBool true) ∧
             r !! "solution_depth" = Some (VInt 12)).
Proof.
  assert (Hv : valid_board 3 detour_board).
  { split; [split; [reflexivity|repeat constructor]|].
    apply (bool_decide_unpack _). vm_compute. exact I. }
  assert (Hsh : shortest detour_board (goal_board 3) 10).
  { split.
    - apply (path_ok_reach 3
        [ [[1; 3; 5]; [4; 8; 0]; [7; 6; 2]]; [[1; 3; 5]; [4; 8; 2]; [7; 6; 0]];
          [[1; 3; 5]; [4; 8; 2]; [7; 0; 6]]; [[1; 3; 5]; [4; 0; 2]; [7; 8; 6]];
          [[1; 3; 5]; [4; 2; 0]; [7; 8; 6]]; [[1; 3; 0]; [4; 2; 5]; [7; 8; 6]];
          [[1; 0; 3]; [4; 2; 5]; [7; 8; 6]]; [[1; 2; 3]; [4; 0; 5]; [7; 8; 6]];
          [[1; 2; 3]; [4; 5; 0]; [7; 8; 6]]; [[1; 2; 3]; [4; 5; 6]; [7; 8; 0]] ]);
        reflexivity.
    - intros k Hr.
      pose proof (md_admissible 3 k detour_board 10 ltac:(by right) Hv Hr eq_refl).
      lia. }
  split_and!; [done..| |].
  - exists (S (base.size (all_boards 3))). intros fuel Hfuel.
    rewrite solve_puzzle_shape_ok by (first [by right | by repeat constructor]).
    cbv zeta. rewrite bool_decide_eq_true_2 by done.
    destruct (bfs_solve_complete 3 detour_board 10
                ([] ++ [initial_state detour_board]) (length (@nil PuzzleState))
                (initial_state detour_board))
      with (fuel := fuel) as (path & ne & mq & h' & Hrun & Hlen);
      [lia|done..|lia|].
    eexists _, h'. split; [done|].
    destruct (success_dict_lookup "BFS" "max_queue_size" path ne mq)
      as (H1 & _ & _ & H2 & _); [by left|].
    split; [done|]. by rewrite H2, Hlen.
  - intros fuel Hfuel.
    rewrite solve_puzzle_shape_ok by (first [by right | by repeat constructor]).
    cbv zeta. rewrite bool_decide_eq_false_2 by done.
    rewrite bool_decide_eq_false_2 by done.
    rewrite bool_decide_eq_true_2 by done.
    change (astar_solve fuel (length (@nil PuzzleState))
              ([] ++ [initial_state detour_board]))
      with (astar_loop fuel [(10, 10, length (@nil PuzzleState))]
              {[board (initial_state detour_board)]} 0 0
              [with_cost 10 (initial_state detour_board)]).
    assert (HokE : is_Ok (astar_loop 21 [(10, 10, length (@nil PuzzleState))]
                   {[board (initial_state detour_board)]} 0 0
                   [with_cost 10 (initial_state detour_board)]) = true)
      by (vm_compute; reflexivity).
    destruct (is_Ok_inv _ HokE) as [[r h'] E].
    exists r, h'. split; [by apply (astar_loop_fuel_mono 21)|].
    assert (Hobs : observe (λ x : result * store,
                              (x.1 !! "success", x.1 !! "solution_depth"))
                     (astar_loop 21 [(10, 10, length (@nil PuzzleState))]
                        {[board (initial_state detour_board)]} 0 0
                        [with_cost 10 (initial_state detour_board)])
                   = Some (Some (VBool true), Some (VInt 12)))
      by (vm_compute; reflexivity).
    rewrite E in Hobs. injection Hobs as Hobs1 Hobs2. by split.
Qed.

(** * Further properties of the code *)

(** ** [find_empty] scans in row-major order *)

Lemma find_empty_row_first b i k m r c :
  find_empty_row b i (seq k m) = Ok (Some (r, c)) ↔
  r = i ∧ (k ≤ c < k + m)%nat ∧ get_cell b i c = Ok 0 ∧
  ∀ j, (k ≤ j < c)%nat → ∃ v, get_cell b i j = Ok v ∧ v ≠ 0.
Proof.
  revert k. induction m as [|m IH]; intros k; simpl.
  { split; [done|]. intros (_ & ? & _). lia. }
  destruct (get_cell b i k) as [v| |] eqn:Hk.
  - case_bool_decide as Hv.
    + subst v. split.
      * intros [= <- <-]. refine (conj _ (conj _ (conj _ _))); [done|lia|done|]. intros j ?. lia.
      * intros (-> & Hc & H0 & Hbefore).
        destruct (decide (c = k)) as [->|Hne]; [done|].
        destruct (Hbefore k) as (v & Hv & Hv0); [lia|]. congruence.
    + rewrite IH. split.
      * intros (-> & Hc & H0 & Hbefore). refine (conj _ (conj _ (conj _ _))); [done|lia|done|].
        intros j Hj. destruct (decide (j = k)) as [->|Hne]; [eauto|].
        apply Hbefore. lia.
      * intros (-> & Hc & H0 & Hbefore). refine (conj _ (conj _ (conj _ _))); [done| |done|].
        -- destruct (decide (c = k)) as [->|Hne]; [congruence|lia].
        -- intros j Hj. apply Hbefore. lia.
  - split; [done|]. intros (-> & Hc & H0 & Hbefore).
    destruct (decide (c = k)) as [->|Hne]; [congruence|].
    destruct (Hbefore k) as (v & Hv & _); [lia|]. congruence.
  - split; [done|]. intros (-> & Hc & H0 & Hbefore).
    destruct (decide (c = k)) as [->|Hne]; [congruence|].
    destruct (Hbefore k) as (v & Hv & _); [lia|]. congruence.
Qed.

Lemma find_empty_row_none b i k m :
  find_empty_row b i (seq k m) = Ok None ↔
  ∀ j, (k ≤ j < k + m)%nat → ∃ v, get_cell b i j = Ok v ∧ v ≠ 0.
Proof.
  revert k. induction m as [|m IH]; intros k; simpl.
  { split; [|done]. intros _ j ?. lia. }
  destruct (get_cell b i k) as [v| |] eqn:Hk.
  - case_bool_decide as Hv.
    + subst v. split; [done|]. intros Hall.
      destruct (Hall k) as (v & Hv & Hv0); [lia|]. congruence.
    + rewrite IH. split.
      * intros Hall j Hj. destruct (decide (j = k)) as [->|Hne]; [eauto|].
        apply Hall. lia.
      * intros Hall j Hj. apply Hall. lia.
  - split; [done|]. intros Hall.
    destruct (Hall k) as (v & Hv & _); [lia|]. congruence.
  - split; [done|]. intros Hall.
    destruct (Hall k) as (v & Hv & _); [lia|]. congruence.
Qed.

Lemma find_empty_rows_first b n k m r c :
  find_empty_rows b n (seq k m) = Ok (Some (r, c)) ↔
  (k ≤ r < k + m)%nat ∧ (c < n)%nat ∧ get_cell b r c = Ok 0 ∧
  ∀ i j, (k ≤ i)%nat → scanned_before n i j r c →
         ∃ v, get_cell b i j = Ok v ∧ v ≠ 0.
Proof.
  unfold scanned_before.
  revert k. induction m as [|m IH]; intros k; simpl.
  { split; [done|]. intros (? & _). lia. }
  destruct (find_empty_row b k (seq 0 n)) as [[[r1 c1]|]| |] eqn:Hrow.
  - apply find_empty_row_first in Hrow as (-> & Hc1 & H01 & Hbefore1). split.
    + intros [= <- <-]. refine (conj _ (conj _ (conj _ _))); [lia|lia|done|].
      intros i j Hi [[? ?]|[-> ?]]; [lia|]. apply Hbefore1. lia.
    + intros (Hr & Hc & H0 & Hbefore).
      destruct (decide (r = k)) as [->|Hne].
      * destruct (Nat.lt_trichotomy c c1) as [Hlt|[->|Hgt]]; [|done|].
        -- destruct (Hbefore1 c) as (v & Hv & Hv0); [lia|]. congruence.
        -- destruct (Hbefore k c1) as (v & Hv & Hv0); [lia|right; lia|]. congruence.
      * destruct (Hbefore k c1) as (v & Hv & Hv0); [lia|left; lia|]. congruence.
  - rewrite IH. pose proof (proj1 (find_empty_row_none b k 0 n) Hrow) as Hnone.
    split.
    + intros (Hr & Hc & H0 & Hbefore). refine (conj _ (conj _ (conj _ _))); [lia|done|done|].
      intros i j Hi Hij. destruct (decide (i = k)) as [->|Hne].
      * apply Hnone. lia.
      * apply Hbefore; [lia|done].
    + intros (Hr & Hc & H0 & Hbefore).
      destruct (decide (r = k)) as [->|Hne].
      * destruct (Hnone c) as (v & Hv & Hv0); [lia|]. congruence.
      * refine (conj _ (conj _ (conj _ _))); [lia|done|done|]. intros i j Hi Hij. apply Hbefore; [lia|done].
  - split; [done|]. intros (Hr & Hc & H0 & Hbefore). exfalso.
    destruct (decide (r = k)) as [->|Hne].
    + assert (find_empty_row b k (seq 0 n) = Ok (Some (k, c))) as Hc'; [|congruence].
      apply find_empty_row_first. refine (conj _ (conj _ (conj _ _))); [done|lia|done|].
      intros j Hj. apply (Hbefore k j); [lia|right; lia].
    + assert (find_empty_row b k (seq 0 n) = Ok None) as Hc'; [|congruence].
      apply find_empty_row_none. intros j Hj. apply (Hbefore k j); [lia|left; lia].
  - split; [done|]. intros (Hr & Hc & H0 & Hbefore). exfalso.
    destruct (decide (r = k)) as [->|Hne].
    + assert (find_empty_row b k (seq 0 n) = Ok (Some (k, c))) as Hc'; [|congruence].
      apply find_empty_row_first. refine (conj _ (conj _ (conj _ _))); [done|lia|done|].
      intros j Hj. apply (Hbefore k j); [lia|right; lia].
    + assert (find_empty_row b k (seq 0 n) = Ok None) as Hc'; [|congruence].
      apply find_empty_row_none. intros j Hj. apply (Hbefore k j); [lia|left; lia].
Qed.

Lemma find_empty_rows_none b n k m :
  find_empty_rows b n (seq k m) = Ok None ↔
  ∀ i j, (k ≤ i < k + m)%nat → (j < n)%nat →
         ∃ v, get_cell b i j = Ok v ∧ v ≠ 0.
Proof.
  revert k. induction m as [|m IH]; intros k; simpl.
  { split; [|done]. intros _ i j ?. lia. }
  destruct (find_empty_row b k (seq 0 n)) as [[[r1 c1]|]| |] eqn:Hrow.
  - split; [done|]. intros Hall.
    apply find_empty_row_first in Hrow as (-> & Hc1 & H01 & _).
    destruct (Hall k c1) as (v & Hv & Hv0); [lia|lia|]. congruence.
  - rewrite IH. pose proof (proj1 (find_empty_row_none b k 0 n) Hrow) as Hnone.
    split.
    + intros Hall i j Hi Hj. destruct (decide (i = k)) as [->|Hne].
      * apply Hnone. lia.
      * apply Hall; [lia|done].
    + intros Hall i j Hi Hj. apply Hall; [lia|done].
  - split; [done|]. intros Hall. exfalso.
    assert (find_empty_row b k (seq 0 n) = Ok None) as Hc'; [|congruence].
    apply find_empty_row_none. intros j Hj. apply Hall; lia.
  - split; [done|]. intros Hall. exfalso.
    assert (find_empty_row b k (seq 0 n) = Ok None) as Hc'; [|congruence].
    apply find_empty_row_none. intros j Hj. apply Hall; lia.
Qed.

(** X1.  [find_empty] returns the first cell holding 0 in row-major
    order over the [size]×[size] cells, having read every cell before it;
    it returns [None] exactly when all [size]×[size] cells can be read and
    none is 0.  (In every other case a cell it reads is missing and it
    raises.) *)
Theorem find_empty_first s :
  (∀ r c, find_empty s = Ok (Some (r, c)) ↔
     (r < size s)%nat ∧ (c < size s)%nat ∧ get_cell (board s) r c = Ok 0 ∧
     ∀ i j, scanned_before (size s) i j r c →
            ∃ v, get_cell (board s) i j = Ok v ∧ v ≠ 0) ∧
  (find_empty s = Ok None ↔
     ∀ i j, (i < size s)%nat → (j < size s)%nat →
            ∃ v, get_cell (board s) i j = Ok v ∧ v ≠ 0).
Proof.
  unfold find_empty. split.
  - intros r c. rewrite find_empty_rows_first. split.
    + intros (Hr & Hc & H0 & Hbefore). refine (conj _ (conj _ (conj _ _))); [lia|done|done|].
      intros i j Hij. apply Hbefore; [lia|done].
    + intros (Hr & Hc & H0 & Hbefore). refine (conj _ (conj _ (conj _ _))); [lia|done|done|].
      intros i j _ Hij. by apply Hbefore.
  - rewrite find_empty_rows_none. split.
    + intros Hall i j Hi Hj. apply Hall; [lia|done].
    + intros Hall i j Hi Hj. apply Hall; [lia|done].
Qed.

(** ** Moves can be undone *)

Lemma board_ext n (b b' : Board) :
  shaped n b → shaped n b' →
  (∀ r c, (r < n)%nat → (c < n)%nat → get_cell b r c = get_cell b' r c) →
  b = b'.
Proof.
  intros [Hl Hrows] [Hl' Hrows'] Hcells.
  apply list_eq_same_length with n; [done..|].
  intros r row row' Hr Hrow Hrow'.
  assert (length row = n) as Hlen
    by (by eapply (proj1 (Forall_forall _ _) Hrows), list_elem_of_lookup_2).
  assert (length row' = n) as Hlen'
    by (by eapply (proj1 (Forall_forall _ _) Hrows'), list_elem_of_lookup_2).
  apply list_eq_same_length with n; [done..|].
  intros c v v' Hc Hv Hv'.
  specialize (Hcells r c Hr Hc). unfold get_cell in Hcells.
  rewrite Hrow, Hrow', Hv, Hv' in Hcells. congruence.
Qed.

Lemma adjacent_sym r c r' c' : adjacent r c r' c' → adjacent r' c' r c.
Proof. unfold adjacent. lia. Qed.

Lemma adjacent_ne r c r' c' : adjacent r c r' c' → (r, c) ≠ (r', c').
Proof. unfold adjacent. intros H [= -> ->]. lia. Qed.

(** Exchanging the same two cells again restores the board. *)
Lemma swap_back n b (r c r' c' : nat) t :
  shaped n b → (r, c) ≠ (r', c') →
  get_cell b r c = Ok 0 → get_cell b r' c' = Ok t →
  let b' := set_cell (set_cell b r c t) r' c' 0 in
  get_cell b' r' c' = Ok 0 ∧ get_cell b' r c = Ok t ∧
  set_cell (set_cell b' r' c' t) r c 0 = b.
Proof.
  intros Hs Hne H0 Ht b'.
  assert (get_cell (set_cell b r c t) r' c' = Ok t) as H1
    by (by rewrite get_set_cell_ne).
  assert (get_cell b' r' c' = Ok 0) as H2 by (by eapply get_set_cell_eq).
  assert (get_cell b' r c = Ok t) as H3.
  { unfold b'. rewrite get_set_cell_ne by congruence. by eapply get_set_cell_eq. }
  split_and!; [done..|].
  destruct (get_cell_bounds _ _ _ _ _ Hs H0) as [? ?].
  destruct (get_cell_bounds _ _ _ _ _ Hs Ht) as [? ?].
  apply (board_ext n); [by repeat apply shaped_set_cell|done|].
  intros i j Hi Hj.
  destruct (decide ((r, c) = (i, j))) as [[= <- <-]|Hne1].
  { rewrite H0. eapply get_set_cell_eq. by rewrite get_set_cell_ne by congruence. }
  rewrite get_set_cell_ne by done.
  destruct (decide ((r', c') = (i, j))) as [[= <- <-]|Hne2].
  { rewrite Ht. by eapply get_set_cell_eq. }
  rewrite get_set_cell_ne by done. unfold b'.
  by rewrite !get_set_cell_ne by done.
Qed.

Lemma slide_sym n b b' : shaped n b → slide b b' → slide b' b.
Proof.
  intros Hs (r & c & r' & c' & t & H0 & Ht & Hadj & ->).
  destruct (swap_back n b r c r' c' t Hs (adjacent_ne _ _ _ _ Hadj) H0 Ht)
    as (H1 & H2 & H3).
  exists r', c', r, c, t. split_and!; [done|done|by apply adjacent_sym|done].
Qed.

Lemma moves_opposite dr dc mv :
  (dr, dc, mv) ∈ moves → (- dr, - dc, opposite_move mv) ∈ moves.
Proof.
  unfold moves. rewrite !elem_of_cons, elem_of_nil.
  intros [[= -> -> ->]|[[= -> -> ->]|[[= -> -> ->]|[[= -> -> ->]|[]]]]];
    vm_compute; tauto.
Qed.

(** X2.  Every move can be undone by the next call: when
    [get_successors] on a valid state yields a successor by some move,
    [get_successors] on that successor yields a state by the opposite
    move (UP/DOWN, LEFT/RIGHT) whose board is the board of the original
    state. *)
Theorem moves_reversible h a s succs h' c sc :
  h !! a = Some s → valid_board (size s) (board s) →
  get_successors a h = Ok (succs, h') → c ∈ succs → h' !! c = Some sc →
  ∃ mv succs2 h'' c2 sc2,
    move sc = Some mv ∧
    get_successors c h' = Ok (succs2, h'') ∧
    c2 ∈ succs2 ∧ h'' !! c2 = Some sc2 ∧
    board sc2 = board s ∧ move sc2 = Some (opposite_move mv).
Proof.
  intros Ha Hv Hsucc Hc Hsc.
  apply get_successors_Ok in Hsucc as (s' & row & col & l & Ha' & Hfe & Hl & -> & ->).
  assert (s' = s) as -> by congruence.
  apply elem_of_seq in Hc as [Hge Hlt].
  destruct (lookup_lt_is_Some_2 l (c - length h)) as [[b' mv] Hch]; [lia|].
  pose proof (child_lookup h a s l _ _ Hch) as Hlook.
  replace (length h + (c - length h))%nat with c in Hlook by lia.
  assert (sc = mk_child a s (b', mv)) as -> by congruence.
  pose proof (list_elem_of_lookup_2 _ _ _ Hch) as Hin.
  apply find_empty_Some in Hfe as (Hrow & Hcol & H0).
  pose proof (proj1 (child_specs_elem _ _ _ _ _ _ Hl b' mv) Hin)
    as (dr & dc & Hm & Hb & Hsw).
  apply in_bounds_spec in Hb as Hb'.
  apply swap_cells_Ok in Hsw as (v1 & v2 & H1 & H2 & ->).
  assert (v2 = 0) as -> by congruence.
  set (nr := Z.to_nat (Z.of_nat row + dr)) in *.
  set (nc := Z.to_nat (Z.of_nat col + dc)) in *.
  pose proof (moves_adjacent row col dr dc mv (size s) Hm Hb) as Hadj.
  fold nr nc in Hadj.
  destruct (swap_back (size s) (board s) row col nr nc v1 (proj1 Hv)
              (adjacent_ne _ _ _ _ Hadj) H0 H1) as (H0' & Hv1' & Hback).
  set (b' := set_cell (set_cell (board s) row col v1) nr nc 0) in *.
  assert (valid_board (size s) b') as Hv'
    by (by eapply (child_valid _ _ _ _ _ b' mv Hv Hl)).
  assert (length b' = size s) as Hlen' by apply Hv'.
  assert (find_empty (mk_child a s (b', mv)) = Ok (Some (nr, nc))) as Hfe'.
  { destruct (valid_find_empty (mk_child a s (b', mv))) as (r2 & c2 & Hfe2).
    - simpl. rewrite Hlen'. lia.
    - simpl. by rewrite Hlen'.
    - rewrite Hfe2. apply find_empty_Some in Hfe2 as (_ & _ & H02). simpl in H02.
      by destruct (valid_cell_unique _ _ _ _ _ _ _ Hv' H0' H02) as [-> ->]. }
  destruct (child_specs_shaped (size s) b' nr nc moves) as [l2 Hl2];
    [apply Hv'|unfold nr; lia|unfold nc; lia|].
  assert ((board s, opposite_move mv) ∈ l2) as Hin2.
  { apply (child_specs_elem _ _ _ _ _ _ Hl2). exists (- dr), (- dc).
    assert (Z.of_nat nr + - dr = Z.of_nat row) as -> by (unfold nr; lia).
    assert (Z.of_nat nc + - dc = Z.of_nat col) as -> by (unfold nc; lia).
    split_and!; [by apply moves_opposite|apply in_bounds_spec; lia|].
    rewrite !Nat2Z.id. apply swap_cells_Ok. exists v1, 0. by rewrite Hback. }
  apply list_elem_of_lookup_1 in Hin2 as [i Hi].
  exists mv, (seq (length (h ++ (mk_child a s <$> l))) (length l2)),
    ((h ++ (mk_child a s <$> l)) ++ (mk_child c (mk_child a s (b', mv)) <$> l2)),
    (length (h ++ (mk_child a s <$> l)) + i)%nat,
    (mk_child c (mk_child a s (b', mv)) (board s, opposite_move mv)).
  split_and!; [done| | |by apply child_lookup|done|done].
  - rewrite get_successors_spec, Hlook, Hfe'. simpl size. simpl board.
    by rewrite Hlen', Hl2.
  - apply elem_of_seq. apply lookup_lt_Some in Hi. lia.
Qed.

Lemma moves_reversible_witness :
  ∃ mv succs2 h'' c2 sc2,
    move (mkPuzzleState [[0; 2]; [1; 3]] (Some 0%nat) (Some "UP") 1 1 2)
      = Some mv ∧
    get_successors 1
      [initial_state [[1; 2]; [0; 3]];
       mkPuzzleState [[0; 2]; [1; 3]] (Some 0%nat) (Some "UP") 1 1 2;
       mkPuzzleState [[1; 2]; [3; 0]] (Some 0%nat) (Some "RIGHT") 1 1 2]
      = Ok (succs2, h'') ∧
    c2 ∈ succs2 ∧ h'' !! c2 = Some sc2 ∧
    board sc2 = [[1; 2]; [0; 3]] ∧ move sc2 = Some (opposite_move mv).
Proof.
  apply (moves_reversible [initial_state [[1; 2]; [0; 3]]] 0
           (initial_state [[1; 2]; [0; 3]]) [1; 2]%nat).
  - reflexivity.
  - split; [split; [reflexivity|repeat constructor]|].
    apply (bool_decide_unpack _). vm_compute. exact I.
  - reflexivity.
  - set_solver.
  - reflexivity.
Defined.

(** ** The number of successors *)

Lemma moves_in_bounds_count (n row col : nat) :
  (row < n)%nat → (col < n)%nat →
  length (filter (λ m : Z * Z * string,
                    in_bounds n (Z.of_nat row + m.1.1)
                                (Z.of_nat col + m.1.2) = true) moves) =
  (Nat.b2n (0 <? row) + Nat.b2n (S row <? n)
   + Nat.b2n (0 <? col) + Nat.b2n (S col <? n))%nat.
Proof.
  intros Hr Hc.
  unfold moves. rewrite !filter_cons, filter_nil. simpl fst. simpl snd.
  repeat case_decide;
    repeat match goal with
    | H : in_bounds _ _ _ = true |- _ => apply in_bounds_spec in H
    | H : ¬ in_bounds _ _ _ = true |- _ => rewrite in_bounds_spec in H
    end;
    destruct (Nat.ltb_spec 0 row); destruct (Nat.ltb_spec (S row) n);
    destruct (Nat.ltb_spec 0 col); destruct (Nat.ltb_spec (S col) n);
    simpl; lia.
Qed.

(** X3.  [get_successors] constructs one state per neighbour of the
    blank that lies on the board, at consecutive fresh addresses, and
    returns exactly those addresses: one state for each of "a row above",
    "a row below", "a column to the left", "a column to the right" that
    exists.  On a board of two or more rows that is between 2 and 4
    states. *)
Theorem successors_count h a s row col succs h' :
  h !! a = Some s → find_empty s = Ok (Some (row, col)) →
  get_successors a h = Ok (succs, h') →
  length succs =
    (Nat.b2n (0 <? row) + Nat.b2n (S row <? size s)
     + Nat.b2n (0 <? col) + Nat.b2n (S col <? size s))%nat ∧
  succs = seq (length h) (length succs) ∧
  length h' = (length h + length succs)%nat ∧
  take (length h) h' = h ∧
  ((2 ≤ size s)%nat → (2 ≤ length succs ≤ 4)%nat).
Proof.
  intros Ha Hfe Hsucc.
  apply get_successors_Ok in Hsucc as (s' & row' & col' & l & Ha' & Hfe' & Hl & -> & ->).
  assert (s' = s) as -> by congruence.
  assert (row' = row ∧ col' = col) as [-> ->] by (split; congruence).
  apply find_empty_Some in Hfe as (Hrow & Hcol & _).
  assert (length l =
    (Nat.b2n (0 <? row) + Nat.b2n (S row <? size s)
     + Nat.b2n (0 <? col) + Nat.b2n (S col <? size s))%nat) as Hlen.
  { rewrite <- (moves_in_bounds_count (size s) row col Hrow Hcol).
    rewrite <- (length_fmap snd l), (child_specs_moves _ _ _ _ _ _ Hl).
    by rewrite length_fmap. }
  rewrite length_seq. split_and!; [done|done| | |].
  - by rewrite length_app, length_fmap.
  - by rewrite take_app_length.
  - intros Hn. rewrite Hlen.
    destruct (Nat.ltb_spec 0 row); destruct (Nat.ltb_spec (S row) (size s));
      destruct (Nat.ltb_spec 0 col); destruct (Nat.ltb_spec (S col) (size s));
      simpl; lia.
Qed.

Lemma successors_count_witness :
  ∃ succs h',
    get_successors 0 [initial_state [[1; 2; 3]; [4; 5; 6]; [0; 7; 8]]]
      = Ok (succs, h') ∧
    length succs = 2%nat ∧ length h' = 3%nat.
Proof.
  assert (Hok : is_Ok (get_successors 0
                         [initial_state [[1; 2; 3]; [4; 5; 6]; [0; 7; 8]]])
                = true) by (vm_compute; reflexivity).
  destruct (is_Ok_inv _ Hok) as [[succs h'] E].
  destruct (successors_count [initial_state [[1; 2; 3]; [4; 5; 6]; [0; 7; 8]]] 0
              (initial_state [[1; 2; 3]; [4; 5; 6]; [0; 7; 8]]) 2 0 succs h'
              eq_refl eq_refl E) as (H1 & _ & H3 & _).
  exists succs, h'. split; [done|]. split; [exact H1|]. rewrite H3, H1. reflexivity.
Defined.

(** ** The heuristic moves by exactly one per move *)

Lemma tile_cost_adjacent_exact n t (i j i' j' : nat) :
  (n = 2 ∨ n = 3)%nat → 0 < t < Z.of_nat (n * n) → adjacent i j i' j' →
  Z.abs (tile_cost n t i j - tile_cost n t i' j') = 1.
Proof.
  intros Hn Ht Hadj. unfold adjacent in Hadj.
  assert (0 ≤ t < Z.of_nat (n * n)) as Ht' by lia.
  destruct Hn as [-> | ->]; tile_cases t; try lia; eval_tile; lia.
Qed.

Lemma md_slide_exact n b b' :
  (n = 2 ∨ n = 3)%nat → valid_board n b → slide b b' →
  ∃ d d', md n b = Ok d ∧ md n b' = Ok d' ∧ Z.abs (d - d') = 1.
Proof.
  intros Hn Hv (r & c & r' & c' & t & H0 & Ht & Hadj & ->).
  pose proof (get_cell_bounds _ _ _ _ _ (proj1 Hv) H0) as [Hr Hc].
  pose proof (get_cell_bounds _ _ _ _ _ (proj1 Hv) Ht) as [Hr' Hc'].
  pose proof (valid_cell_range _ _ _ _ _ Hv Ht) as Htr.
  assert (t ≠ 0) as Ht0.
  { intros ->. destruct (valid_cell_unique _ _ _ _ _ _ _ Hv H0 Ht) as [-> ->].
    by apply adjacent_ne in Hadj. }
  pose proof (tile_cost_adjacent_exact n t r c r' c' Hn ltac:(lia) Hadj) as Hcost.
  pose proof (valid_cells _ _ Hv) as Hcells.
  destruct Hn as [-> | ->].
  - destruct (shaped2_inv b (proj1 Hv)) as (a1 & a2 & a3 & a4 & ->).
    csimpl in Hcells. split_range.
    small_index r; small_index c; small_index r'; small_index c';
      try (exfalso; unfold adjacent in Hadj; lia);
      cbn in H0, Ht; injection H0 as ->; injection Ht as ->;
      eexists _, _; (split_and!; [apply md2; solve_range|apply md2; solve_range|]);
      rewrite ?tile_cost_blank; lia.
  - destruct (shaped3_inv b (proj1 Hv))
      as (a1 & a2 & a3 & a4 & a5 & a6 & a7 & a8 & a9 & ->).
    csimpl in Hcells. split_range.
    small_index r; small_index c; small_index r'; small_index c';
      try (exfalso; unfold adjacent in Hadj; lia);
      cbn in H0, Ht; injection H0 as ->; injection Ht as ->;
      eexists _, _; (split_and!; [apply md3; solve_range|apply md3; solve_range|]);
      rewrite ?tile_cost_blank; lia.
Qed.

(** X4.  On a valid 2×2 or 3×3 state every move changes
    [manhattan_distance] by exactly one: each successor's value is the
    state's value plus one or minus one, never equal to it. *)
Theorem manhattan_step n h a s succs h' c sc :
  (n = 2 ∨ n = 3)%nat → size s = n → valid_board n (board s) →
  h !! a = Some s → get_successors a h = Ok (succs, h') →
  c ∈ succs → h' !! c = Some sc →
  ∃ d d', manhattan_distance s = Ok d ∧ manhattan_distance sc = Ok d' ∧
          (d' = d + 1 ∨ d' = d - 1).
Proof.
  intros Hn Hs Hv Ha Hsucc Hc Hsc.
  apply get_successors_Ok in Hsucc as (s' & row & col & l & Ha' & Hfe & Hl & -> & ->).
  assert (s' = s) as -> by congruence.
  apply elem_of_seq in Hc as [Hge Hlt].
  destruct (lookup_lt_is_Some_2 l (c - length h)) as [ch Hch]; [lia|].
  pose proof (child_lookup h a s l _ ch Hch) as Hlook.
  replace (length h + (c - length h))%nat with c in Hlook by lia.
  assert (sc = mk_child a s ch) as -> by congruence.
  pose proof (list_elem_of_lookup_2 _ _ _ Hch) as Hin.
  apply find_empty_Some in Hfe as (_ & _ & H0).
  assert (slide (board s) ch.1) as Hslide.
  { destruct ch as [b' mv]. by eapply child_slide. }
  rewrite !manhattan_distance_md. cbn.
  rewrite (child_length _ _ _ _ _ _ Hl Hin), (proj1 (proj1 Hv)), Hs.
  destruct (md_slide_exact n (board s) ch.1 Hn Hv Hslide) as (d & d' & Hd & Hd' & Habs).
  exists d, d'. split_and!; [done..|lia].
Qed.

Lemma manhattan_step_witness :
  ∃ d d',
    manhattan_distance (initial_state [[1; 2]; [0; 3]]) = Ok d ∧
    manhattan_distance
      (mkPuzzleState [[0; 2]; [1; 3]] (Some 0%nat) (Some "UP") 1 1 2) = Ok d' ∧
    (d' = d + 1 ∨ d' = d - 1).
Proof.
  apply (manhattan_step 2 [initial_state [[1; 2]; [0; 3]]] 0
           (initial_state [[1; 2]; [0; 3]]) [1; 2]%nat
           [initial_state [[1; 2]; [0; 3]];
            mkPuzzleState [[0; 2]; [1; 3]] (Some 0%nat) (Some "UP") 1 1 2;
            mkPuzzleState [[1; 2]; [3; 0]] (Some 0%nat) (Some "RIGHT") 1 1 2]
           1).
  - by left.
  - reflexivity.
  - split; [split; [reflexivity|repeat constructor]|].
    apply (bool_decide_unpack _). vm_compute. exact I.
  - reflexivity.
  - reflexivity.
  - set_solver.
  - reflexivity.
Defined.

(** ** When [manhattan_distance] returns *)

Lemma goal_positions_is_Some n t :
  (n = 2 ∨ n = 3)%nat →
  is_Some (goal_positions n !! t) ↔ 0 ≤ t < Z.of_nat (n * n).
Proof.
  intros Hn. split.
  - intros [p Hp]. destruct (decide (0 ≤ t < Z.of_nat (n * n))) as [|Hout]; [done|].
    exfalso. assert (goal_positions n !! t = None) as Hnone; [|congruence].
    destruct Hn as [-> | ->]; unfold goal_positions;
      [rewrite bool_decide_eq_true_2 by done; unfold goal_positions2
      |rewrite bool_decide_eq_false_2 by done; unfold goal_positions3];
      apply not_elem_of_list_to_map_1; csimpl;
      rewrite !elem_of_cons, elem_of_nil; lia.
  - intros Ht. destruct Hn as [-> | ->]; tile_cases t; vm_compute; eauto.
Qed.

Lemma tile_distance_Ok n b i j d :
  (n = 2 ∨ n = 3)%nat → tile_distance n b i j = Ok d →
  ∃ t, get_cell b i j = Ok t ∧ 0 ≤ t < Z.of_nat (n * n) ∧ 0 ≤ d.
Proof.
  intros Hn. unfold tile_distance.
  destruct (get_cell b i j) as [t| |]; [|done..].
  case_bool_decide as Ht.
  - destruct (goal_positions n !! t) as [[gr gc]|] eqn:Hg; [|done].
    intros [= <-]. exists t. split; [done|].
    split; [by apply (goal_positions_is_Some n t Hn)|lia].
  - intros [= <-]. exists t. split; [done|].
    assert (t = 0) as -> by (by destruct (decide (t = 0))).
    destruct Hn as [-> | ->]; lia.
Qed.

Lemma manhattan_row_Ok n b i js acc d :
  (n = 2 ∨ n = 3)%nat → manhattan_row n b i js acc = Ok d →
  (0 ≤ acc → 0 ≤ d) ∧
  ∀ j, j ∈ js → ∃ t, get_cell b i j = Ok t ∧ 0 ≤ t < Z.of_nat (n * n).
Proof.
  intros Hn. revert acc. induction js as [|j js IH]; intros acc; simpl.
  { intros [= <-]. split; [done|]. set_solver. }
  destruct (tile_distance n b i j) as [dj| |] eqn:Hj; [|done..].
  intros Hrest. apply IH in Hrest as [Hpos Hall].
  apply (tile_distance_Ok n b i j dj Hn) in Hj as (t & Ht & Hr & Hdj).
  split; [intros; apply Hpos; lia|].
  intros j' [->|Hin]%elem_of_cons; [eauto|by apply Hall].
Qed.

Lemma manhattan_rows_Ok n b rows acc d :
  (n = 2 ∨ n = 3)%nat → manhattan_rows n b rows acc = Ok d →
  (0 ≤ acc → 0 ≤ d) ∧
  ∀ i j, i ∈ rows → (j < n)%nat →
         ∃ t, get_cell b i j = Ok t ∧ 0 ≤ t < Z.of_nat (n * n).
Proof.
  intros Hn. revert acc. induction rows as [|i rows IH]; intros acc; simpl.
  { intros [= <-]. split; [done|]. set_solver. }
  destruct (manhattan_row n b i (seq 0 n) acc) as [di| |] eqn:Hi; [|done..].
  intros Hrest. apply IH in Hrest as [Hpos Hall].
  apply (manhattan_row_Ok n b i _ acc di Hn) in Hi as [Hposi Halli].
  split; [intros; by apply Hpos, Hposi|].
  intros i' j [->|Hin]%elem_of_cons Hj; [|by apply Hall].
  apply Halli, elem_of_seq. lia.
Qed.

Lemma elem_of_join_cell n (b : Board) t :
  shaped n b → t ∈ mjoin b →
  ∃ i j, (i < n)%nat ∧ (j < n)%nat ∧ get_cell b i j = Ok t.
Proof.
  intros [Hl Hrows] (row & Ht & Hrow)%list_elem_of_join.
  apply list_elem_of_lookup_1 in Hrow as [i Hi].
  apply list_elem_of_lookup_1 in Ht as [j Hj].
  exists i, j. split_and!.
  - apply lookup_lt_Some in Hi. lia.
  - apply lookup_lt_Some in Hj.
    assert (length row = n); [|lia].
    by eapply (proj1 (Forall_forall _ _) Hrows), list_elem_of_lookup_2.
  - apply get_cell_Ok. eauto.
Qed.

(** X5.  On a state of size 2 or 3 whose board has that many rows and
    columns, [manhattan_distance] returns a number, which is not
    negative, exactly when every cell holds one of 0 .. size*size-1
    (repeated values are not noticed); otherwise it raises [KeyError],
    the failed lookup of a tile in the goal-position table. *)
Theorem manhattan_distance_defined s :
  (size s = 2 ∨ size s = 3)%nat → shaped (size s) (board s) →
  ((∃ d, manhattan_distance s = Ok d ∧ 0 ≤ d) ↔
   Forall (λ t, 0 ≤ t < Z.of_nat (size s * size s)) (mjoin (board s))) ∧
  (manhattan_distance s = Raise KeyError ↔
   ¬ Forall (λ t, 0 ≤ t < Z.of_nat (size s * size s)) (mjoin (board s))).
Proof.
  intros Hn Hs. rewrite manhattan_distance_md.
  assert ((∃ d, md (size s) (board s) = Ok d ∧ 0 ≤ d) ↔
          Forall (λ t, 0 ≤ t < Z.of_nat (size s * size s)) (mjoin (board s)))
    as Hiff.
  { split.
    - intros (d & Hd & _). apply Forall_forall. intros t Ht.
      destruct (elem_of_join_cell _ _ _ Hs Ht) as (i & j & Hi & Hj & Hc).
      apply (manhattan_rows_Ok _ _ _ _ _ Hn) in Hd as [_ Hall].
      destruct (Hall i j) as (t' & Ht' & Hr); [apply elem_of_seq; lia|done|].
      congruence.
    - intros Hall. destruct Hn as [Hn|Hn]; rewrite Hn in *.
      + destruct (shaped2_inv _ Hs) as (a1 & a2 & a3 & a4 & Hb).
        rewrite Hb in *. csimpl in Hall. eexists. split; [by apply md2|].
        pose proof (tile_cost_nonneg 2 a1 0 0). pose proof (tile_cost_nonneg 2 a2 0 1).
        pose proof (tile_cost_nonneg 2 a3 1 0). pose proof (tile_cost_nonneg 2 a4 1 1).
        lia.
      + destruct (shaped3_inv _ Hs)
          as (a1 & a2 & a3 & a4 & a5 & a6 & a7 & a8 & a9 & Hb).
        rewrite Hb in *. csimpl in Hall. eexists. split; [by apply md3|].
        pose proof (tile_cost_nonneg 3 a1 0 0). pose proof (tile_cost_nonneg 3 a2 0 1).
        pose proof (tile_cost_nonneg 3 a3 0 2). pose proof (tile_cost_nonneg 3 a4 1 0).
        pose proof (tile_cost_nonneg 3 a5 1 1). pose proof (tile_cost_nonneg 3 a6 1 2).
        pose proof (tile_cost_nonneg 3 a7 2 0). pose proof (tile_cost_nonneg 3 a8 2 1).
        pose proof (tile_cost_nonneg 3 a9 2 2). lia. }
  split; [done|]. rewrite <- Hiff. split.
  - intros Hk (d & Hd & _). congruence.
  - intros Hno. destruct (md_shaped _ _ Hs) as [[d Hd]|Hk]; [|done].
    exfalso. apply Hno. exists d. split; [done|].
    apply (manhattan_rows_Ok _ _ _ _ _ Hn) in Hd as [Hpos _]. by apply Hpos.
Qed.

Lemma manhattan_distance_defined_witness :
  manhattan_distance (initial_state [[3; 3]; [1; 1]]) = Ok 6 ∧
  manhattan_distance (initial_state [[1; 2]; [3; 4]]) = Raise KeyError.
Proof.
  split; [reflexivity|].
  apply (proj2 (manhattan_distance_defined (initial_state [[1; 2]; [3; 4]])
                  (or_introl eq_refl)
                  ltac:(split; [reflexivity|repeat constructor]))).
  intros Hall. apply Forall_forall with (x := 4) in Hall; [simpl in Hall; lia|].
  set_solver.
Defined.

(** ** The priority queue keeps its entries *)

Section heapq_perm.
Context {T : Type} (lt : T → T → bool).

Lemma insert_move_Permutation (l : list T) (i j : nat) x y :
  i ≠ j → (i < length l)%nat → l !! j = Some y →
  <[j := x]> (<[i := y]> l) ≡ₚ <[i := x]> l.
Proof.
  intros Hne Hi Hj.
  rewrite <- (list_insert_insert_eq l i y x).
  apply insert_swap_Permutation.
  - by apply list_lookup_insert_eq.
  - by rewrite list_lookup_insert_ne.
Qed.

Lemma siftdown_loop_perm fuel (heap : list T) startpos pos newitem :
  (pos < length heap)%nat →
  siftdown_loop lt fuel heap startpos pos newitem ≡ₚ <[pos := newitem]> heap.
Proof.
  revert heap pos. induction fuel as [|fuel IH]; intros heap pos Hpos; cbn [siftdown_loop];
    [reflexivity|].
  case_bool_decide as Hstart; [|reflexivity].
  destruct (heap !! ((pos - 1) `div` 2)%nat) as [parent_item|] eqn:Hp;
    [|reflexivity].
  destruct (lt newitem parent_item); [|reflexivity].
  assert ((pos - 1) `div` 2 < pos)%nat as Hlt.
  { apply Nat.Div0.div_lt_upper_bound; lia. }
  rewrite IH by (rewrite length_insert; lia).
  apply insert_move_Permutation; [lia|done|done].
Qed.

Lemma siftdown_perm (heap : list T) startpos pos :
  _siftdown lt heap startpos pos ≡ₚ heap.
Proof.
  unfold _siftdown. destruct (heap !! pos) as [newitem|] eqn:Hp; [|reflexivity].
  rewrite siftdown_loop_perm by (by eapply lookup_lt_Some).
  by rewrite list_insert_id.
Qed.

Lemma siftup_loop_perm fuel (heap : list T) endpos pos heap' pos' :
  (pos < length heap)%nat →
  siftup_loop lt fuel heap endpos pos = (heap', pos') →
  (pos' < length heap')%nat ∧
  ∀ x, <[pos' := x]> heap' ≡ₚ <[pos := x]> heap.
Proof.
  revert heap pos.
  induction fuel as [|fuel IH]; intros heap pos Hpos; cbn [siftup_loop].
  { by intros [= <- <-]. }
  case_bool_decide as Hchild; [|by intros [= <- <-]].
  set (childpos :=
    if bool_decide (2 * pos + 1 + 1 < endpos)%nat
    then match heap !! (2 * pos + 1)%nat, heap !! (2 * pos + 1 + 1)%nat with
         | Some c, Some r => if negb (lt c r) then (2 * pos + 1 + 1)%nat
                             else (2 * pos + 1)%nat
         | _, _ => (2 * pos + 1)%nat
         end
    else (2 * pos + 1)%nat).
  assert (pos < childpos)%nat as Hgt.
  { unfold childpos. case_bool_decide; [|lia].
    destruct (heap !! (2 * pos + 1)%nat); [|lia].
    destruct (heap !! (2 * pos + 1 + 1)%nat); [|lia].
    destruct (negb _); lia. }
  destruct (heap !! childpos) as [c|] eqn:Hc; [|by intros [= <- <-]].
  intros Hrec. apply IH in Hrec as [Hlen Hperm].
  2:{ rewrite length_insert. by eapply lookup_lt_Some. }
  split; [done|]. intros x. rewrite Hperm.
  apply insert_move_Permutation; [lia|done|done].
Qed.

Lemma siftup_perm (heap : list T) pos : _siftup lt heap pos ≡ₚ heap.
Proof.
  unfold _siftup. destruct (heap !! pos) as [newitem|] eqn:Hp; [|reflexivity].
  destruct (siftup_loop lt (length heap) heap (length heap) pos)
    as [heap' pos'] eqn:Hloop.
  apply siftup_loop_perm in Hloop as [Hlen Hperm]; [|by eapply lookup_lt_Some].
  rewrite siftdown_perm, Hperm. by rewrite list_insert_id.
Qed.

Lemma heappush_perm (heap : list T) item : heappush lt heap item ≡ₚ item :: heap.
Proof.
  unfold heappush. rewrite siftdown_perm. by rewrite Permutation_app_comm.
Qed.

Lemma heappop_perm (heap : list T) x heap' :
  heappop lt heap = Some (x, heap') → heap ≡ₚ x :: heap'.
Proof.
  unfold heappop. destruct (list_pop heap) as [[lastelt rest]|] eqn:Hpop; [|done].
  apply list_pop_Some in Hpop as ->.
  destruct rest as [|returnitem rest].
  - by intros [= <- <-].
  - intros [= <- <-]. rewrite siftup_perm. simpl. constructor.
    by rewrite <- Permutation_cons_append.
Qed.
End heapq_perm.

(** X6.  The queue operations A* uses neither lose nor duplicate an
    entry, whatever the order relation: [heappush] returns a rearrangement
    of the heap with the new item, [heappop] of a non-empty heap returns
    one of its entries and a rearrangement of the others, and only the
    empty heap cannot be popped. *)
Theorem heapq_keeps_entries {T} (lt : T → T → bool) (heap : list T) :
  (∀ item, heappush lt heap item ≡ₚ item :: heap) ∧
  (∀ x heap', heappop lt heap = Some (x, heap') → heap ≡ₚ x :: heap') ∧
  (heappop lt heap = None ↔ heap = []).
Proof.
  split_and!.
  - apply heappush_perm.
  - apply heappop_perm.
  - apply heappop_None.
Qed.

(** ** What a returned solution depth can be *)

Lemma linked_reach (l : list Board) b g :
  head l = Some b → last l = Some g → linked blank_move l →
  reach (length l - 1) b g.
Proof.
  revert g. induction l as [|y l IH] using rev_ind; intros g Hhd Hlast Hlink; [done|].
  rewrite last_snoc in Hlast. injection Hlast as ->.
  destruct l as [|x l] using rev_ind.
  { simpl in Hhd. injection Hhd as ->. constructor. }
  clear IHl. rewrite !length_app. simpl.
  replace (length l + 1 + 1 - 1)%nat with (S (length (l ++ [x]) - 1))
    by (rewrite length_app; simpl; lia).
  apply reach_S with x.
  - apply IH.
    + destruct l; done.
    + by rewrite last_snoc.
    + intros i u v Hu Hv. apply (Hlink i).
      * by apply lookup_app_l_Some.
      * by apply lookup_app_l_Some.
  - apply (Hlink (length l)).
    + rewrite lookup_app_l by (rewrite length_app; simpl; lia).
      by rewrite lookup_app_r, Nat.sub_diag by lia.
    + rewrite lookup_app_r by (rewrite length_app; simpl; lia).
      rewrite length_app. simpl.
      by replace (S (length l) - (length l + 1))%nat with 0%nat by lia.
Qed.

Lemma md_reach_parity n k b b' :
  (n = 2 ∨ n = 3)%nat → valid_board n b → reach k b b' →
  ∃ d d' q, md n b = Ok d ∧ md n b' = Ok d' ∧
            Z.of_nat k = d - d' + 2 * q ∧ 0 ≤ q.
Proof.
  intros Hn Hv Hr. induction Hr as [|k b b' b'' Hr IH Hs].
  - destruct (md_valid n b Hn Hv) as (d & Hd & _).
    exists d, d, 0. split_and!; [done..|lia|lia].
  - destruct (IH Hv) as (d & d' & q & Hd & Hd' & Hk & Hq).
    destruct (md_slide_exact n b' b'' Hn (reach_valid _ _ _ _ Hv Hr) Hs)
      as (e & e' & He & He' & Habs).
    assert (e = d') as -> by congruence.
    destruct (decide (e' = d' + 1)) as [->|Hne].
    + exists d, (d' + 1), (q + 1). split_and!; [done..|lia|lia].
    + exists d, e', q. split_and!; [done..|lia|lia].
Qed.

(** X7.  On a valid 2×2 or 3×3 board, a solution depth returned by any
    of the three searches is the length of a real path of moves from the
    board to the goal.  Hence it is never below the length of a shortest
    path, and it is the Manhattan distance of the input board plus an
    even number (at least that distance, and of the same parity). *)
Theorem solution_depth_bounds n fuel limit h a0 s0 r h' :
  (n = 2 ∨ n = 3)%nat →
  h !! a0 = Some s0 → parent s0 = None → size s0 = n →
  valid_board n (board s0) →
  bfs_solve fuel a0 h = Ok (r, h') ∨ dfs_solve fuel a0 limit h = Ok (r, h')
    ∨ astar_solve fuel a0 h = Ok (r, h') →
  r !! "success" = Some (VBool true) →
  ∃ (k : nat) d q,
    r !! "solution_depth" = Some (VInt (Z.of_nat k)) ∧
    reach k (board s0) (goal_board n) ∧
    (∀ D, shortest (board s0) (goal_board n) D → (D ≤ k)%nat) ∧
    manhattan_distance s0 = Ok d ∧ Z.of_nat k = d + 2 * q ∧ 0 ≤ q.
Proof.
  intros Hn Ha Hp Hs Hv Hrun Hsucc.
  assert (size s0 = length (board s0)) as Hsz.
  { rewrite Hs. symmetry. apply Hv. }
  assert (∃ alg metric msg,
            (metric = "max_queue_size" ∨ metric = "max_stack_size") ∧
            search_post (node_ok (board s0) (size s0)) (λ _, True)
                        alg metric msg r h') as (alg & metric & msg & Hm & Hpost).
  { destruct Hrun as [Hrun|[Hrun|Hrun]].
    - eexists _, _, _. split; [|by eapply bfs_solve_path]. by left.
    - eexists _, _, _. split; [|by eapply dfs_solve_path]. by right.
    - eexists _, _, _. split; [|by eapply astar_solve_path]. by left. }
  destruct (node_ok_solution _ _ _ _ _ _ _ _ Hm Hpost Hsucc)
    as (path & H1 & H2 & H3 & H4 & H5).
  rewrite Hs in H4.
  pose proof (linked_reach path _ _ H3 H4 H5) as Hreach.
  destruct (md_reach_parity n _ _ _ Hn Hv Hreach) as (d & d' & q & Hd & Hd' & Hk & Hq).
  rewrite md_goal in Hd' by done. injection Hd' as <-.
  exists (length path - 1)%nat, d, q. split_and!.
  - rewrite H2. do 2 f_equal. destruct path; [done|]. simpl. lia.
  - done.
  - intros D [_ Hmin]. by apply Hmin.
  - by rewrite manhattan_distance_md, Hs.
  - lia.
  - done.
Qed.

Lemma solution_depth_bounds_witness :
  ∃ r h' (k : nat) d q,
    astar_solve 5 0 [initial_state [[1; 2]; [0; 3]]] = Ok (r, h') ∧
    r !! "solution_depth" = Some (VInt (Z.of_nat k)) ∧
    manhattan_distance (initial_state [[1; 2]; [0; 3]]) = Ok d ∧
    Z.of_nat k = d + 2 * q ∧ 0 ≤ q.
Proof.
  assert (Hok : is_Ok (astar_solve 5 0 [initial_state [[1; 2]; [0; 3]]]) = true)
    by (vm_compute; reflexivity).
  destruct (is_Ok_inv _ Hok) as [[r h'] E].
  assert (r !! "success" = Some (VBool true)) as Hsucc.
  { assert (Hobs : observe (λ x : result * store, x.1 !! "success")
                           (astar_solve 5 0 [initial_state [[1; 2]; [0; 3]]])
                   = Some (Some (VBool true))) by (vm_compute; reflexivity).
    rewrite E in Hobs. injection Hobs as Hobs. exact Hobs. }
  assert (valid_board 2 [[1; 2]; [0; 3]]) as Hv.
  { split; [split; [reflexivity|repeat constructor]|].
    apply (bool_decide_unpack _). vm_compute. exact I. }
  destruct (solution_depth_bounds 2 5 0 [initial_state [[1; 2]; [0; 3]]] 0
              (initial_state [[1; 2]; [0; 3]]) r h'
              (or_introl eq_refl) eq_refl eq_refl eq_refl Hv
              (or_intror (or_intror E)) Hsucc)
    as (k & d & q & H1 & _ & _ & H4 & H5 & H6).
  by exists r, h', k, d, q.
Defined.

(** ** The depth of a solution found by DFS *)

Section depth_bound.
Context (limit d0 : Z).
Let P := λ (h : store) (_ : gset Board) (a : addr),
  ∃ s l, h !! a = Some s ∧ path_to h a l ∧
         Z.of_nat (length l) = depth s - d0 + 1 ∧ depth s ≤ Z.max limit d0.
Let S := λ _ : store, True.
Let G := λ s : PuzzleState, depth s < limit.

Lemma dfs_loop_depth fuel Q V ne mq h r h' :
  Forall (P h V) Q → dfs_loop fuel limit Q V ne mq h = Ok (r, h') →
  search_post P S "DFS" "max_stack_size" (Some (dfs_message limit)) r h'.
Proof.
  intros HQ Hrun.
  eapply (dfs_loop_inv P S G) in Hrun; try done.
  - intros h1 h2 V1 V2 a Hext _ (s & l & Hs & Hpath & Hlen & Hd).
    destruct (extends_lookup _ _ _ _ Hext Hs) as (s' & Hs' & Hfr).
    apply frame_eq in Hfr as (_ & _ & _ & Hdep & _).
    exists s', l. rewrite Hdep. split_and!; [done| |done|done].
    by eapply path_to_extends.
  - intros h1 V1 cur s row col l i c _ (s' & p & Hs' & Hpath & Hlen & Hd)
      Hcur HG _ _ Hc _.
    assert (s' = s) as -> by congruence.
    exists (mk_child cur s c), (p ++ [c.1]). split_and!.
    + by apply child_lookup.
    + apply (path_child _ _ (mk_child cur s c) cur p).
      * by apply child_lookup.
      * done.
      * apply lookup_lt_Some in Hcur. lia.
      * eapply path_to_extends; [apply extends_app|done].
    + rewrite length_app. simpl. lia.
    + unfold G in HG. simpl. lia.
Qed.
End depth_bound.

(** X8.  A solution found by [dfs_solve] from a parentless state is
    never deeper than the limit allows: its [solution_depth] is between 0
    and [depth_limit] minus the depth of the initial state (or is 0 when
    that difference is negative, the initial state being the goal). *)
Theorem dfs_solution_depth fuel limit h a0 s0 r h' :
  h !! a0 = Some s0 → parent s0 = None →
  dfs_solve fuel a0 limit h = Ok (r, h') →
  r !! "success" = Some (VBool true) →
  ∃ k, r !! "solution_depth" = Some (VInt k) ∧
       0 ≤ k ≤ Z.max 0 (limit - depth s0).
Proof.
  intros Ha Hp Hrun Hsucc.
  unfold dfs_solve in Hrun. rewrite bind_unfold in Hrun. unfold deref in Hrun.
  rewrite Ha in Hrun.
  apply (dfs_loop_depth limit (depth s0)) in Hrun.
  2:{ apply Forall_singleton. exists s0, [board s0].
      split_and!; [done|by apply path_root|simpl; lia|lia]. }
  destruct Hrun as [_ [(Hf & _)|(cur & s & V & path & ne & mx & Hok & Hs & Hg & Hpath & ->)]].
  { congruence. }
  destruct Hok as (s' & l & Hs' & Hl & Hlen & Hd).
  assert (s' = s) as -> by congruence.
  rewrite (reconstruct_path_spec _ _ _ Hl) in Hpath. injection Hpath as <-.
  destruct (success_dict_lookup "DFS" "max_stack_size" l ne mx)
    as (_ & _ & _ & H2 & _); [by right|].
  exists (Z.of_nat (length l) - 1). split; [done|].
  apply path_to_nonempty in Hl. destruct l; [done|]. simpl in *. lia.
Qed.

Lemma dfs_solution_depth_witness :
  ∃ r h' k,
    dfs_solve 20 0 50 [initial_state [[1; 2]; [0; 3]]] = Ok (r, h') ∧
    r !! "solution_depth" = Some (VInt k) ∧ 0 ≤ k ≤ 50.
Proof.
  assert (Hok : is_Ok (dfs_solve 20 0 50 [initial_state [[1; 2]; [0; 3]]]) = true)
    by (vm_compute; reflexivity).
  destruct (is_Ok_inv _ Hok) as [[r h'] E].
  assert (r !! "success" = Some (VBool true)) as Hsucc.
  { assert (Hobs : observe (λ x : result * store, x.1 !! "success")
                           (dfs_solve 20 0 50 [initial_state [[1; 2]; [0; 3]]])
                   = Some (Some (VBool true))) by (vm_compute; reflexivity).
    rewrite E in Hobs. injection Hobs as Hobs. exact Hobs. }
  destruct (dfs_solution_depth 20 50 [initial_state [[1; 2]; [0; 3]]] 0
              (initial_state [[1; 2]; [0; 3]]) r h' eq_refl eq_refl E Hsucc)
    as (k & H1 & H2).
  exists r, h', k. split_and!; [done|done|lia|simpl in H2; lia].
Defined.

(** ** A board that is already solved *)

Lemma dfs_goal_run fuel limit stack cur V ne ms h s p :
  h !! cur = Some s → is_goal s = true → path_to h cur p →
  dfs_loop (S fuel) limit (stack ++ [cur]) V ne ms h =
  Ok (success_dict "DFS" "max_stack_size" p (ne + 1)
                   (ms `max` Z.of_nat (length (stack ++ [cur]))), h).
Proof.
  intros Hcur Hg Hpath. cbn [dfs_loop]. rewrite list_pop_snoc.
  rewrite bind_unfold. unfold deref. rewrite Hcur, Hg.
  by rewrite bind_unfold, (reconstruct_path_spec _ _ _ Hpath).
Qed.

Lemma astar_goal_run fuel pq f hn cur pq' V ne mq h s p :
  heappop (item_lt h) pq = Some ((f, hn, cur), pq') →
  h !! cur = Some s → is_goal s = true → path_to h cur p →
  astar_loop (S fuel) pq V ne mq h =
  Ok (success_dict "A*" "max_queue_size" p (ne + 1)
                   (mq `max` Z.of_nat (length pq)), h).
Proof.
  intros Hpop Hcur Hg Hpath. cbn [astar_loop]. rewrite bind_unfold, Hpop.
  rewrite bind_unfold. unfold deref. rewrite Hcur, Hg.
  by rewrite bind_unfold, (reconstruct_path_spec _ _ _ Hpath).
Qed.

(** X9.  Started on a parentless state that is already the goal, each
    search returns at its first iteration: the path is the input board
    alone, [solution_depth] is 0, [nodes_expanded] is 1 and the largest
    frontier size is 1.  BFS and DFS (whatever its depth limit) leave the
    store as it was; A* (on a state of size 2 or 3) has only written the
    heuristic value 0 to [cost] of the initial state. *)
Theorem solved_input fuel limit h a0 s0 :
  h !! a0 = Some s0 → parent s0 = None → is_goal s0 = true →
  bfs_solve (S fuel) a0 h =
    Ok (success_dict "BFS" "max_queue_size" [board s0] 1 1, h) ∧
  dfs_solve (S fuel) a0 limit h =
    Ok (success_dict "DFS" "max_stack_size" [board s0] 1 1, h) ∧
  ((size s0 = 2 ∨ size s0 = 3)%nat →
   astar_solve (S fuel) a0 h =
     Ok (success_dict "A*" "max_queue_size" [board s0] 1 1,
         alter (with_cost 0) a0 h)).
Proof.
  intros Ha Hp Hg.
  assert (path_to h a0 [board s0]) as Hpath by (by apply path_root).
  split_and!.
  - unfold bfs_solve. rewrite bind_unfold. unfold deref. rewrite Ha.
    by rewrite (bfs_goal_step fuel a0 [] _ 0 0 h s0 [board s0]).
  - unfold dfs_solve. rewrite bind_unfold. unfold deref. rewrite Ha.
    by rewrite (dfs_goal_run fuel limit [] a0 _ 0 0 h s0 [board s0]).
  - intros Hn. unfold astar_solve. rewrite bind_unfold. unfold deref. rewrite Ha.
    rewrite bind_unfold, manhattan_distance_md.
    apply is_goal_spec in Hg as Hb. rewrite Hb, md_goal by done.
    unfold lift. rewrite bind_unfold. unfold set_cost. rewrite Ha.
    assert (alter (with_cost 0) a0 h !! a0 = Some (with_cost 0 s0)) as Ha'.
    { rewrite list_lookup_alter, Ha. by rewrite decide_True. }
    rewrite (astar_goal_run fuel [(0, 0, a0)] 0 0 a0 [] _ 0 0 _
               (with_cost 0 s0) [board s0]);
      [by rewrite Hb|done|done|exact Hg|by apply (path_root _ _ (with_cost 0 s0))].
Qed.

Lemma solved_input_witness :
  bfs_solve 1 0 [initial_state goal3] =
    Ok (success_dict "BFS" "max_queue_size" [goal3] 1 1, [initial_state goal3]) ∧
  dfs_solve 1 0 0 [initial_state goal3] =
    Ok (success_dict "DFS" "max_stack_size" [goal3] 1 1, [initial_state goal3]) ∧
  astar_solve 1 0 [initial_state goal3] =
    Ok (success_dict "A*" "max_queue_size" [goal3] 1 1, [initial_state goal3]).
Proof.
  destruct (solved_input 0 0 [initial_state goal3] 0 (initial_state goal3)
              eq_refl eq_refl eq_refl) as (H1 & H2 & H3).
  split_and!; [exact H1|exact H2|].
  apply H3. by right.
Defined.

(** ** The searches return, and the complete ones decide solvability *)

Lemma live_node_mono (b0 : Board) (n : nat) (h h' : store) (V V' : gset Board) (a : addr) :
  extends h h' → V ⊆ V' → live_node b0 n h V a → live_node b0 n h' V' a.
Proof.
  intros Hext HV (s & l & k & Hs & Hsz & Hv & Hpath & Hr & Hin).
  destruct (extends_lookup _ _ _ _ Hext Hs) as (s' & Hs' & Hfr).
  apply frame_eq in Hfr as (Hb & _ & _ & _ & Hsize).
  exists s', l, k. rewrite Hb, Hsize.
  split_and!; [done|done|done|by eapply path_to_extends|done|by apply HV].
Qed.

Lemma closed_unreachable (b0 : Board) (n : nat) (h : store) (V : gset Board)
    (w : Board) (k : nat) :
  closed_inv b0 n h [] V → reach k b0 w → w ∈ V ∧ w ≠ goal_board n.
Proof.
  intros [Hb0 Hclosed] Hr.
  assert (∀ v, v ∈ V → v ≠ goal_board n ∧ ∀ w, slide v w → w ∈ V) as Hc.
  { intros v Hv. destruct (Hclosed v Hv) as [(a & s & Ha & _)|?]; [|done].
    by apply elem_of_nil in Ha. }
  assert (w ∈ V) as Hw.
  { induction Hr as [|k b b' b'' Hr IH Hs]; [done|].
    destruct (Hc b') as [_ Hcl]; [by apply IH|]. by apply Hcl. }
  split; [done|]. by apply Hc.
Qed.

Lemma closed_inv_frame (b0 : Board) (n : nat) (h h' : store) (F F' : list addr) (V : gset Board) :
  extends h h' → (∀ a, a ∈ F → a ∈ F') →
  closed_inv b0 n h F V → closed_inv b0 n h' F' V.
Proof.
  intros Hext HF [Hb0 Hclosed]. split; [done|]. intros v Hv.
  destruct (Hclosed v Hv) as [(a & s & Ha & Hs & Hb)|?]; [|by right].
  destruct (extends_lookup _ _ _ _ Hext Hs) as (s' & Hs' & Hfr).
  apply frame_eq in Hfr as (Hb' & _).
  left. exists a, s'. split_and!; [by apply HF|done|congruence].
Qed.

(** One expansion: the children that [visit] keeps are frontier states,
    the visited set stays valid, and it stays closed. *)
Section expand.
Context (b0 : Board) (n : nat) (h : store) (cur : addr) (s : PuzzleState)
        (row col : nat) (l : list (Board * string)) (cs : list addr)
        (V : gset Board) (F0 F1 : list addr).
Hypothesis (Hcur : h !! cur = Some s) (Hlive : live_node b0 n h V cur)
           (Hg : is_goal s = false)
           (Hfe : find_empty s = Ok (Some (row, col)))
           (Hl : child_specs n (board s) row col moves = Ok l)
           (Hcs : ∀ c, c ∈ cs ↔ c ∈ seq (length h) (length l))
           (Hvalid : ∀ v, v ∈ V → valid_board n v).
Let h' := h ++ (mk_child cur s <$> l).
Let vf := visit h' cs V F1.

Lemma expand_some : Forall (λ c, is_Some (h' !! c)) cs.
Proof.
  apply Forall_forall. intros c [? ?]%Hcs%elem_of_seq.
  apply lookup_lt_is_Some_2. unfold h'. rewrite length_app, length_fmap. lia.
Qed.

Lemma expand_child c :
  c ∈ cs →
  ∃ ch, ch ∈ l ∧ h' !! c = Some (mk_child cur s ch) ∧
        live_node b0 n h' vf.1 c.
Proof.
  intros Hc. pose proof Hc as [Hge Hlt]%Hcs%elem_of_seq.
  destruct Hlive as (s' & p & k & Hs' & Hsz & Hv & Hpath & Hr & Hin).
  assert (s' = s) as -> by congruence.
  pose proof (find_empty_Some _ _ _ Hfe) as (_ & _ & H0).
  destruct (lookup_lt_is_Some_2 l (c - length h)) as [ch Hch]; [lia|].
  pose proof (child_lookup h cur s l _ ch Hch) as Hlook.
  replace (length h + (c - length h))%nat with c in Hlook by lia.
  fold h' in Hlook.
  pose proof (list_elem_of_lookup_2 _ _ _ Hch) as Hchl.
  assert (slide (board s) ch.1) as Hslide.
  { destruct ch as [b' mv]. by eapply child_slide. }
  exists ch. split; [done|]. split; [done|].
  exists (mk_child cur s ch), (p ++ [ch.1]), (S k). split_and!.
  - done.
  - cbn. rewrite (child_length _ _ _ _ _ _ Hl Hchl). apply Hv.
  - cbn. destruct ch as [b' mv]. by eapply child_valid.
  - apply (path_child _ _ (mk_child cur s ch) cur); cbn; try done.
    + apply lookup_lt_Some in Hcur. lia.
    + eapply path_to_extends; [apply extends_app|done].
  - cbn. by eapply reach_S.
  - by apply (visit_covers h' cs V F1 expand_some c (mk_child cur s ch)).
Qed.

Lemma expand_valid v : v ∈ vf.1 → valid_board n v.
Proof.
  intros Hv'. destruct (visit_origin h' cs V F1 v Hv')
    as [?|(c & sc & Hc & Hsc & <-)]; [by apply Hvalid|].
  destruct (expand_child c Hc) as (ch & _ & Hlook & (s2 & _ & _ & Hs2 & _ & Hv2 & _)).
  by assert (sc = s2) as -> by congruence.
Qed.

Lemma expand_frontier :
  ∃ K, vf.2 = F1 ++ K ∧
       base.size vf.1 = (base.size V + length K)%nat ∧
       V ⊆ vf.1 ∧
       Forall (live_node b0 n h' vf.1) K ∧
       (closed_inv b0 n h (cur :: F0) V → closed_inv b0 n h' (F0 ++ K) vf.1).
Proof.
  destruct (visit_frontier h' cs V F1) as (K & HK & Hsub & Hsize & Hfresh & Hnew).
  fold vf in HK, Hsize, Hnew.
  pose proof (visit_subseteq h' cs V F1) as HVV. fold vf in HVV.
  exists K. split_and!; [done..| |].
  - apply Forall_forall. intros c Hc.
    pose proof (elem_of_sublist _ _ _ Hc Hsub) as Hccs.
    by destruct (expand_child c Hccs) as (ch & _ & _ & ?).
  - intros [Hb0 Hclosed]. split; [by apply HVV|]. intros v Hv'.
    destruct Hlive as (s' & p & k & Hs' & Hsz & Hv & Hpath & Hr & Hin).
    assert (s' = s) as -> by congruence.
    pose proof (find_empty_Some _ _ _ Hfe) as (_ & _ & H0).
    destruct (decide (v ∈ V)) as [HvV|HvV].
    + destruct (Hclosed v HvV) as [(a & sa & Ha & Hsa & <-)|[? Hcl]].
      * apply elem_of_cons in Ha as [->|Ha].
        -- assert (sa = s) as -> by congruence. right. split.
           { apply is_goal_false in Hg. by rewrite Hsz in Hg. }
           intros w Hw.
           pose proof (slide_child _ _ _ _ _ _ Hv H0 Hl Hw) as Hwl.
           apply list_elem_of_fmap in Hwl as ([w' mv] & -> & Hwl).
           apply list_elem_of_lookup in Hwl as [i Hi].
           pose proof (child_lookup h cur s l _ _ Hi) as Hlook. fold h' in Hlook.
           apply (visit_covers h' cs V F1 expand_some (length h + i)%nat
                    (mk_child cur s (w', mv))); [|done].
           apply Hcs, elem_of_seq. apply lookup_lt_Some in Hi. lia.
        -- left. exists a, sa. split_and!; [set_solver| |done].
           by apply lookup_app_l_Some.
      * right. split; [done|]. intros w Hw. by apply HVV, Hcl.
    + destruct (Hnew v Hv' HvV) as (c & sc & Hc & Hsc & <-).
      left. exists c, sc. split_and!; [set_solver|done|done].
Qed.
End expand.

Section returns.
Context (b0 : Board) (n : nat).
Hypothesis (Hn : (0 < n)%nat).

Lemma visited_bound (V : gset Board) (E k fuel : nat) :
  (∀ v, v ∈ V → valid_board n v) →
  (base.size V = E + k)%nat → (base.size (all_boards n) < fuel + E)%nat →
  (0 < fuel)%nat.
Proof.
  intros Hvalid Hsize Hfuel.
  assert (V ⊆ all_boards n) as Hsub.
  { intros v Hv. by apply valid_in_all_boards, Hvalid. }
  apply subseteq_size in Hsub. lia.
Qed.

Lemma live_goal (h : store) (V : gset Board) (cur : addr) (s : PuzzleState) :
  live_node b0 n h V cur → h !! cur = Some s → is_goal s = true →
  ∃ k, reach k b0 (goal_board n).
Proof.
  intros (s' & p & k & Hs' & Hsz & _ & _ & Hr & _) Hs Hg.
  assert (s' = s) as -> by congruence.
  exists k. apply is_goal_spec in Hg. by rewrite <- Hsz, <- Hg.
Qed.

Lemma live_expandable (h : store) (V : gset Board) (cur : addr)
    (s : PuzzleState) :
  live_node b0 n h V cur → h !! cur = Some s →
  ∃ row col l,
    find_empty s = Ok (Some (row, col)) ∧
    child_specs n (board s) row col moves = Ok l ∧
    get_successors cur h =
      Ok (seq (length h) (length l), h ++ (mk_child cur s <$> l)).
Proof.
  intros (s' & p & k & Hs' & Hsz & Hv & _) Hs.
  assert (s' = s) as -> by congruence.
  destruct (valid_find_empty s) as (row & col & Hfe); [lia|by rewrite Hsz|].
  pose proof (find_empty_Some _ _ _ Hfe) as (Hrow & Hcol & _).
  destruct (child_specs_shaped n (board s) row col moves) as [l Hl];
    [apply Hv|lia..|].
  exists row, col, l. split_and!; [done..|].
  by rewrite get_successors_spec, Hs, Hfe, Hsz, Hl.
Qed.

Lemma bfs_loop_decides fuel :
  ∀ (h : store) (Q : list addr) (V : gset Board) (ne mq : Z) (E : nat),
    Forall (live_node b0 n h V) Q → (∀ v, v ∈ V → valid_board n v) →
    closed_inv b0 n h Q V →
    (base.size V = E + length Q)%nat →
    (base.size (all_boards n) < fuel + E)%nat →
    ∃ r h', bfs_loop fuel Q V ne mq h = Ok (r, h') ∧ decides b0 n r.
Proof.
  induction fuel as [|fuel IH]; intros h Q V ne mq E HQ Hvalid Hclosed Hsize Hfuel.
  { pose proof (visited_bound V E _ 0 Hvalid Hsize Hfuel). lia. }
  destruct Q as [|cur Q].
  { eexists _, h. split; [reflexivity|]. right. split; [done|].
    intros k Hr. by destruct (closed_unreachable _ _ _ _ _ _ Hclosed Hr). }
  apply Forall_cons in HQ as [Hcur HQ].
  pose proof Hcur as (s & p & k & Hs & Hsz & Hv & Hpath & Hr & Hin).
  destruct (is_goal s) eqn:Hg.
  - eexists _, h. split; [by apply (bfs_goal_step _ _ _ _ _ _ _ s p)|].
    left. split; [|by eapply live_goal].
    by destruct (success_dict_lookup "BFS" "max_queue_size" p (ne + 1)
                   (mq `max` Z.of_nat (length (cur :: Q)))) as (? & _);
      [by left|].
  - destruct (bfs_step n Hn fuel cur Q V ne mq h s Hs Hg Hsz Hv)
      as (row & col & l & Hfe & Hl & H0 & Heq).
    cbv zeta in Heq. rewrite Heq.
    destruct (expand_frontier b0 n h cur s row col l (seq (length h) (length l))
                V Q Q Hs Hcur Hg Hfe Hl ltac:(done) Hvalid)
      as (K & HK & HsizeK & HVV & HKlive & Hcl).
    apply (IH _ _ _ _ _ (S E)).
    + rewrite HK. apply Forall_app. split; [|done].
      eapply Forall_impl; [exact HQ|]. intros a Ha.
      eapply live_node_mono; [apply extends_app|done|done].
    + by eapply expand_valid.
    + rewrite HK. by apply Hcl.
    + rewrite HsizeK, HK, length_app. simpl in Hsize. lia.
    + lia.
Qed.

Lemma dfs_loop_returns limit fuel :
  ∀ (h : store) (stack : list addr) (V : gset Board) (ne ms : Z) (E : nat),
    Forall (live_node b0 n h V) stack → (∀ v, v ∈ V → valid_board n v) →
    (base.size V = E + length stack)%nat →
    (base.size (all_boards n) < fuel + E)%nat →
    ∃ r h' bo, dfs_loop fuel limit stack V ne ms h = Ok (r, h') ∧
               r !! "success" = Some (VBool bo) ∧
               (bo = true → ∃ k, reach k b0 (goal_board n)).
Proof.
  induction fuel as [|fuel IH]; intros h stack V ne ms E HQ Hvalid Hsize Hfuel.
  { pose proof (visited_bound V E _ 0 Hvalid Hsize Hfuel). lia. }
  destruct stack as [|cur F0 _] using rev_ind.
  { eexists _, h, false. split; [reflexivity|]. by split. }
  apply Forall_app in HQ as [HQ Hcur]. rewrite Forall_singleton in Hcur.
  rewrite length_app in Hsize. simpl in Hsize.
  pose proof Hcur as (s & p & k & Hs & Hsz & Hv & Hpath & Hr & Hin).
  destruct (is_goal s) eqn:Hg.
  - eexists _, h, true.
    split; [by apply (dfs_goal_run _ _ _ _ _ _ _ _ s p)|].
    split; [|intros _; by eapply live_goal].
    by destruct (success_dict_lookup "DFS" "max_stack_size" p (ne + 1)
                   (ms `max` Z.of_nat (length (F0 ++ [cur])))) as (? & _);
      [by right|].
  - destruct (decide (depth s < limit)) as [Hd|Hd].
    + destruct (live_expandable h V cur s Hcur Hs)
        as (row & col & l & Hfe & Hl & Hsucc).
      rewrite (dfs_expand_step fuel limit F0 cur V ne ms h s _ _ Hs Hg Hd Hsucc).
      destruct (expand_frontier b0 n h cur s row col l
                  (reverse (seq (length h) (length l)))
                  V F0 F0 Hs Hcur Hg Hfe Hl
                  ltac:(intros c; by rewrite elem_of_reverse) Hvalid)
        as (K & HK & HsizeK & HVV & HKlive & _).
      apply (IH _ _ _ _ _ (S E)).
      * rewrite HK. apply Forall_app. split; [|done].
        eapply Forall_impl; [exact HQ|]. intros a Ha.
        eapply live_node_mono; [apply extends_app|done|done].
      * eapply expand_valid; try done.
        intros c; by rewrite elem_of_reverse.
      * rewrite HsizeK, HK, length_app. lia.
      * lia.
    + rewrite (dfs_limit_step fuel limit F0 cur V ne ms h s Hs Hg ltac:(lia)).
      apply (IH _ _ _ _ _ (S E)); [done|done|lia|lia].
Qed.
End returns.

(** ** A* as a search of the same graph *)

Lemma frames_lookup (h1 h2 : store) (c : addr) :
  frame <$> h2 = frame <$> h1 → frame <$> (h2 !! c) = frame <$> (h1 !! c).
Proof. intros H. by rewrite <- !list_lookup_fmap, H. Qed.

Lemma frames_alter_cost (h : store) (a : addr) (c : Z) :
  frame <$> alter (with_cost c) a h = frame <$> h.
Proof.
  apply list_eq. intros i. rewrite !list_lookup_fmap, list_lookup_alter.
  case_decide as Hi; [subst i|done]. destruct (h !! a); reflexivity.
Qed.

Lemma frames_extends (h1 h2 : store) :
  frame <$> h2 = frame <$> h1 → extends h1 h2.
Proof. intros H. unfold extends. by rewrite H. Qed.

Lemma visit_frames (h1 h2 : store) (cs : list addr) (V : gset Board)
    (F : list addr) :
  frame <$> h2 = frame <$> h1 → visit h2 cs V F = visit h1 cs V F.
Proof.
  intros Hfr. revert V F. induction cs as [|c cs IH]; intros V F; simpl; [done|].
  pose proof (frames_lookup h1 h2 c Hfr) as Hc.
  destruct (h1 !! c) as [s1|], (h2 !! c) as [s2|]; simpl in Hc; try done.
  assert (frame s2 = frame s1) as Hf by congruence.
  apply frame_eq in Hf as (-> & _).
  case_bool_decide; apply IH.
Qed.

Lemma astar_visit_total (n : nat) (cs : list addr) :
  (n = 2 ∨ n = 3)%nat →
  ∀ (V : gset Board) (pq : list (Z * Z * addr)) (h1 : store) (F : list addr),
    Forall (λ c, ∃ s, h1 !! c = Some s ∧ size s = n ∧ valid_board n (board s))
           cs →
    ∃ pq' h2,
      astar_visit cs V pq h1 = Ok (((visit h1 cs V F).1, pq'), h2) ∧
      frame <$> h2 = frame <$> h1 ∧
      F ++ pq'.*2 ≡ₚ pq.*2 ++ (visit h1 cs V F).2.
Proof.
  intros Hn. induction cs as [|c cs IH]; intros V pq h1 F Hcs.
  { exists pq, h1. simpl. split_and!; [done|done|apply Permutation_app_comm]. }
  apply Forall_cons in Hcs as [(s & Hs & Hsz & Hv) Hcs].
  cbn [astar_visit visit]. rewrite bind_unfold. unfold deref. rewrite Hs.
  case_bool_decide as Hin; [|by apply IH].
  destruct (md_valid n (board s) Hn Hv) as (d & Hd & _).
  rewrite bind_unfold, manhattan_distance_md, Hsz, Hd. unfold lift.
  rewrite bind_unfold. unfold set_cost. rewrite Hs. rewrite bind_unfold.
  set (h1' := alter (with_cost (depth s + d)) c h1).
  set (pq1 := heappush (item_lt h1') pq (depth s + d, d, c)).
  assert (frame <$> h1' = frame <$> h1) as Hfr by apply frames_alter_cost.
  destruct (IH ({[board s]} ∪ V) pq1 h1' (F ++ [c]))
    as (pq' & h2 & Hrun & Hfr2 & Hperm).
  { eapply Forall_impl; [exact Hcs|]. intros c' (s' & Hs' & Hsz' & Hv').
    pose proof (frames_lookup h1 h1' c' Hfr) as Hc'. rewrite Hs' in Hc'.
    destruct (h1' !! c') as [s2|]; [|done].
    assert (frame s2 = frame s') as Hf by (simpl in Hc'; congruence).
    apply frame_eq in Hf as (Hb & _ & _ & _ & Hsize).
    exists s2. by rewrite Hb, Hsize. }
  rewrite (visit_frames h1 h1') in Hrun, Hperm by done.
  exists pq', h2. split_and!; [done|congruence|].
  assert (pq1.*2 ≡ₚ c :: pq.*2) as Hpq1.
  { unfold pq1. by rewrite heappush_perm. }
  rewrite Hpq1 in Hperm. simpl in Hperm.
  apply (Permutation_cons_inv (a := c)).
  rewrite <- Hperm, <- app_assoc. simpl. by rewrite Permutation_middle.
Qed.

Lemma astar_expand_step (fuel : nat) (pq : list (Z * Z * addr)) (f hn : Z)
    (cur : addr) (pq' : list (Z * Z * addr)) (V : gset Board) (ne mq : Z)
    (h : store) (s : PuzzleState) (succs : list addr) (h1 : store)
    (V' : gset Board) (pq2 : list (Z * Z * addr)) (h2 : store) :
  heappop (item_lt h) pq = Some ((f, hn, cur), pq') →
  h !! cur = Some s → is_goal s = false →
  get_successors cur h = Ok (succs, h1) →
  astar_visit succs V pq' h1 = Ok ((V', pq2), h2) →
  astar_loop (S fuel) pq V ne mq h =
  astar_loop fuel pq2 V' (ne + 1) (mq `max` Z.of_nat (length pq)) h2.
Proof.
  intros Hpop Hcur Hg Hsucc Hvisit. cbn [astar_loop]. rewrite bind_unfold, Hpop.
  rewrite bind_unfold. unfold deref. rewrite Hcur, Hg.
  by rewrite bind_unfold, Hsucc, bind_unfold, Hvisit.
Qed.

Section astar_returns.
Context (b0 : Board) (n : nat).
Hypothesis (Hn : (n = 2 ∨ n = 3)%nat).

Lemma astar_loop_decides fuel :
  ∀ (h : store) (pq : list (Z * Z * addr)) (V : gset Board) (ne mq : Z)
    (E : nat),
    Forall (live_node b0 n h V) pq.*2 → (∀ v, v ∈ V → valid_board n v) →
    closed_inv b0 n h pq.*2 V →
    (base.size V = E + length pq)%nat →
    (base.size (all_boards n) < fuel + E)%nat →
    ∃ r h', astar_loop fuel pq V ne mq h = Ok (r, h') ∧ decides b0 n r.
Proof.
  assert (0 < n)%nat as Hpos by lia.
  induction fuel as [|fuel IH]; intros h pq V ne mq E HQ Hvalid Hclosed Hsize Hfuel.
  { pose proof (visited_bound n Hpos V E _ 0 Hvalid Hsize Hfuel). lia. }
  destruct (heappop (item_lt h) pq) as [[[[f hn] cur] pq']|] eqn:Hpop.
  2:{ apply heappop_None in Hpop as ->.
      eexists _, h. split; [reflexivity|]. right. split; [done|].
      intros k Hr. by destruct (closed_unreachable _ _ _ _ _ _ Hclosed Hr). }
  pose proof (heappop_perm _ _ _ _ Hpop) as Hperm.
  assert (pq.*2 ≡ₚ cur :: pq'.*2) as Hperm2 by (by rewrite Hperm).
  rewrite Hperm2 in HQ. apply Forall_cons in HQ as [Hcur HQ].
  assert (length pq = S (length pq')) as Hlen by (by rewrite Hperm).
  pose proof Hcur as (s & p & k & Hs & Hsz & Hv & Hpath & Hr & Hin).
  destruct (is_goal s) eqn:Hg.
  - eexists _, h. split; [by apply (astar_goal_run _ _ _ _ _ _ _ _ _ _ s p Hpop)|].
    left. split; [|by eapply live_goal].
    by destruct (success_dict_lookup "A*" "max_queue_size" p (ne + 1)
                   (mq `max` Z.of_nat (length pq))) as (? & _);
      [by left|].
  - destruct (live_expandable b0 n Hpos h V cur s Hcur Hs)
      as (row & col & l & Hfe & Hl & Hsucc).
    set (h1 := h ++ (mk_child cur s <$> l)) in *.
    set (cs := seq (length h) (length l)) in *.
    destruct (astar_visit_total n cs Hn V pq' h1 [])
      as (pq2 & h2 & Hvisit & Hfr & Hperm3).
    { apply Forall_forall. intros c Hc.
      destruct (expand_child b0 n h cur s row col l cs V [] Hs Hcur Hfe Hl
                  ltac:(done) c Hc)
        as (ch & _ & Hlook & (s2 & _ & _ & Hs2 & Hsz2 & Hv2 & _)).
      by exists s2. }
    rewrite (astar_expand_step fuel pq f hn cur pq' V ne mq h s _ _ _ _ _
               Hpop Hs Hg Hsucc Hvisit).
    destruct (expand_frontier b0 n h cur s row col l cs V (pq'.*2) []
                Hs Hcur Hg Hfe Hl ltac:(done) Hvalid)
      as (K & HK & HsizeK & HVV & HKlive & Hcl).
    fold h1 in HK, HsizeK, HVV, HKlive, Hcl.
    simpl in HK, Hperm3. rewrite HK in Hperm3.
    pose proof (frames_extends h1 h2 Hfr) as Hext.
    apply (IH _ _ _ _ _ (S E)).
    + rewrite Hperm3. apply Forall_app. split.
      * eapply Forall_impl; [exact HQ|]. intros a Ha.
        eapply live_node_mono; [|done|done].
        etrans; [apply extends_app|done].
      * eapply Forall_impl; [exact HKlive|]. intros a Ha.
        eapply live_node_mono; [exact Hext|reflexivity|exact Ha].
    + by eapply expand_valid.
    + eapply closed_inv_frame; [exact Hext| |apply Hcl].
      * intros a Ha. by rewrite Hperm3.
      * eapply closed_inv_frame; [done| |exact Hclosed].
        intros a Ha. by rewrite <- Hperm2.
    + rewrite HsizeK. apply Permutation_length in Hperm3.
      rewrite length_app, !length_fmap in Hperm3. lia.
    + lia.
Qed.
End astar_returns.

Lemma root_live (h : store) (a0 : addr) (s0 : PuzzleState) :
  h !! a0 = Some s0 → parent s0 = None →
  valid_board (size s0) (board s0) →
  live_node (board s0) (size s0) h {[board s0]} a0 ∧
  (∀ v, v ∈ ({[board s0]} : gset Board) → valid_board (size s0) v) ∧
  closed_inv (board s0) (size s0) h [a0] {[board s0]}.
Proof.
  intros Ha Hp Hv. split_and!.
  - exists s0, [board s0], 0%nat.
    split_and!; [done|done|done|by apply path_root|constructor|set_solver].
  - intros v ->%elem_of_singleton. done.
  - split; [set_solver|]. intros v ->%elem_of_singleton.
    left. exists a0, s0. split_and!; [set_solver|done|done].
Qed.

(** X10.  BFS and A* decide solvability.  On a valid 2×2 or 3×3 board,
    started on a parentless state and allowed more iterations than there
    are boards, [bfs_solve] and [astar_solve] each return a dictionary
    (they neither raise nor run on), and its [success] is [True] exactly
    when the goal can be reached from the board by moves. *)
Theorem complete_search_decides n fuel h a0 s0 :
  (n = 2 ∨ n = 3)%nat →
  h !! a0 = Some s0 → parent s0 = None → size s0 = n →
  valid_board n (board s0) →
  (base.size (all_boards n) < fuel)%nat →
  (∃ r h', bfs_solve fuel a0 h = Ok (r, h') ∧ decides (board s0) n r) ∧
  (∃ r h', astar_solve fuel a0 h = Ok (r, h') ∧ decides (board s0) n r).
Proof.
  intros Hn Ha Hp Hs Hv Hfuel. subst n.
  destruct (root_live h a0 s0 Ha Hp Hv) as (Hlive & Hvalid & Hclosed).
  split.
  - unfold bfs_solve. rewrite bind_unfold. unfold deref. rewrite Ha.
    apply (bfs_loop_decides (board s0) (size s0) ltac:(lia) fuel h [a0] _ 0 0 0%nat);
      [by apply Forall_singleton|done|done|by rewrite size_singleton|lia].
  - unfold astar_solve. rewrite bind_unfold. unfold deref. rewrite Ha.
    destruct (md_valid _ _ Hn Hv) as (d & Hd & _).
    rewrite bind_unfold, manhattan_distance_md, Hd. unfold lift.
    rewrite bind_unfold. unfold set_cost. rewrite Ha.
    pose proof (frames_extends h (alter (with_cost d) a0 h)
                  (frames_alter_cost h a0 d)) as Hext.
    apply (astar_loop_decides (board s0) (size s0) Hn fuel _ [(d, d, a0)] _ 0 0 0%nat).
    + apply Forall_singleton. by eapply live_node_mono.
    + done.
    + by eapply closed_inv_frame.
    + by rewrite size_singleton.
    + lia.
Qed.

Lemma complete_search_decides_witness :
  (∃ r h', bfs_solve (S (base.size (all_boards 2))) 0
             [initial_state [[2; 1]; [3; 0]]] = Ok (r, h') ∧
           decides [[2; 1]; [3; 0]] 2 r) ∧
  (∃ r h', astar_solve (S (base.size (all_boards 2))) 0
             [initial_state [[2; 1]; [3; 0]]] = Ok (r, h') ∧
           decides [[2; 1]; [3; 0]] 2 r).
Proof.
  apply (complete_search_decides 2 _ [initial_state [[2; 1]; [3; 0]]] 0
           (initial_state [[2; 1]; [3; 0]])).
  - by left.
  - reflexivity.
  - reflexivity.
  - reflexivity.
  - split; [split; [reflexivity|repeat constructor]|].
    apply (bool_decide_unpack _). vm_compute. exact I.
  - apply Nat.lt_succ_diag_r.
Defined.

(** X11.  Depth-limited DFS always returns.  On a valid 2×2 or 3×3
    board, started on a parentless state and allowed more iterations than
    there are boards, [dfs_solve] returns a dictionary for every depth
    limit; when its [success] is [True] the goal can indeed be reached.
    (A [False] says nothing: the limit may have cut the search.) *)
Theorem dfs_returns n fuel limit h a0 s0 :
  (n = 2 ∨ n = 3)%nat →
  h !! a0 = Some s0 → parent s0 = None → size s0 = n →
  valid_board n (board s0) →
  (base.size (all_boards n) < fuel)%nat →
  ∃ r h' bo, dfs_solve fuel a0 limit h = Ok (r, h') ∧
             r !! "success" = Some (VBool bo) ∧
             (bo = true → ∃ k, reach k (board s0) (goal_board n)).
Proof.
  intros Hn Ha Hp Hs Hv Hfuel. subst n.
  destruct (root_live h a0 s0 Ha Hp Hv) as (Hlive & Hvalid & _).
  unfold dfs_solve. rewrite bind_unfold. unfold deref. rewrite Ha.
  apply (dfs_loop_returns (board s0) (size s0) ltac:(lia) limit fuel h [a0] _
           0 0 0%nat);
    [by apply Forall_singleton|done|by rewrite size_singleton|lia].
Qed.

Lemma dfs_returns_witness :
  ∃ r h' bo,
    dfs_solve (S (base.size (all_boards 2))) 0 3
      [initial_state [[2; 1]; [3; 0]]] = Ok (r, h') ∧
    r !! "success" = Some (VBool bo) ∧
    (bo = true → ∃ k, reach k [[2; 1]; [3; 0]] (goal_board 2)).
Proof.
  apply (dfs_returns 2 _ 3 [initial_state [[2; 1]; [3; 0]]] 0
           (initial_state [[2; 1]; [3; 0]])).
  - by left.
  - reflexivity.
  - reflexivity.
  - reflexivity.
  - split; [split; [reflexivity|repeat constructor]|].
    apply (bool_decide_unpack _). vm_compute. exact I.
  - apply Nat.lt_succ_diag_r.
Defined.

(** ** [solve_puzzle] on valid boards *)

(** X12.  On a valid 2×2 or 3×3 board and with one of the three
    algorithm names, [solve_puzzle] (allowed more iterations than there
    are boards) returns a dictionary with a boolean [success]: it does not
    raise.  A [True] means the goal can be reached; with "BFS" and "A*" a
    [False] means it cannot. *)
Theorem solve_puzzle_returns n fuel b alg h :
  (n = 2 ∨ n = 3)%nat → valid_board n b →
  alg ∈ ["BFS"; "DFS"; "A*"] →
  (base.size (all_boards n) < fuel)%nat →
  ∃ r h' bo,
    solve_puzzle fuel b alg h = Ok (r, h') ∧
    r !! "success" = Some (VBool bo) ∧
    (bo = true → ∃ k, reach k b (goal_board n)) ∧
    (alg ≠ "DFS" → bo = false → ∀ k, ¬ reach k b (goal_board n)).
Proof.
  intros Hn Hv Halg Hfuel.
  assert (length b = n) as Hlen by apply Hv.
  assert (Forall (λ row, length row = length b) b) as Hrows.
  { rewrite Hlen. apply Hv. }
  rewrite (solve_puzzle_shape_ok fuel b alg h ltac:(by rewrite Hlen) Hrows).
  cbv zeta.
  assert ((h ++ [initial_state b]) !! length h = Some (initial_state b)) as Hlook.
  { by rewrite lookup_app_r, Nat.sub_diag by lia. }
  assert (size (initial_state b) = n) as Hsz by done.
  assert (∀ r, decides b n r →
            ∃ bo, r !! "success" = Some (VBool bo) ∧
                  (bo = true → ∃ k, reach k b (goal_board n)) ∧
                  (bo = false → ∀ k, ¬ reach k b (goal_board n))) as Hdec.
  { intros r [[Hs Hr]|[Hs Hr]].
    - exists true. by split_and!.
    - exists false. by split_and!. }
  destruct (complete_search_decides n fuel (h ++ [initial_state b]) (length h)
              (initial_state b) Hn Hlook eq_refl Hsz Hv Hfuel)
    as [(r1 & h1 & Hbfs & Hd1) (r2 & h2 & Hastar & Hd2)].
  destruct (dfs_returns n fuel 50 (h ++ [initial_state b]) (length h)
              (initial_state b) Hn Hlook eq_refl Hsz Hv Hfuel)
    as (r3 & h3 & bo3 & Hdfs & Hs3 & Hr3).
  apply elem_of_cons in Halg as [->|Halg];
    [|apply elem_of_cons in Halg as [->|Halg];
      [|apply list_elem_of_singleton in Halg as ->]].
  - rewrite bool_decide_eq_true_2 by done.
    destruct (Hdec r1 Hd1) as (bo & ? & ? & ?). exists r1, h1, bo. by split_and!.
  - rewrite bool_decide_eq_false_2 by done. rewrite bool_decide_eq_true_2 by done.
    exists r3, h3, bo3. by split_and!.
  - rewrite bool_decide_eq_false_2 by done. rewrite bool_decide_eq_false_2 by done.
    rewrite bool_decide_eq_true_2 by done.
    destruct (Hdec r2 Hd2) as (bo & ? & ? & ?). exists r2, h2, bo. by split_and!.
Qed.

Lemma solve_puzzle_returns_witness :
  ∃ r h' bo,
    solve_puzzle (S (base.size (all_boards 2))) [[1; 2]; [0; 3]] "A*" []
      = Ok (r, h') ∧
    r !! "success" = Some (VBool bo).
Proof.
  destruct (solve_puzzle_returns 2 (S (base.size (all_boards 2)))
              [[1; 2]; [0; 3]] "A*" [])
    as (r & h' & bo & H1 & H2 & _).
  - by left.
  - split; [split; [reflexivity|repeat constructor]|].
    apply (bool_decide_unpack _). vm_compute. exact I.
  - set_solver.
  - apply Nat.lt_succ_diag_r.
  - exists r, h', bo. split; [exact H1|exact H2].
Defined.

(** ** Successors are pairwise different *)

Lemma moves_names_inj dr dc mv1 mv2 :
  (dr, dc, mv1) ∈ moves → (dr, dc, mv2) ∈ moves → mv1 = mv2.
Proof.
  unfold moves. rewrite !elem_of_cons, !elem_of_nil.
  intros [[= -> -> ->]|[[= -> -> ->]|[[= -> -> ->]|[[= -> -> ->]|[]]]]]
         [[= <-]|[[= <-]|[[= <-]|[[= <-]|[]]]]]; done.
Qed.

Lemma child_blank n b (row col : nat) l b' mv :
  get_cell b row col = Ok 0 →
  child_specs n b row col moves = Ok l → (b', mv) ∈ l →
  ∃ dr dc, (dr, dc, mv) ∈ moves ∧
    (dr ≠ 0 ∨ dc ≠ 0) ∧ 0 ≤ Z.of_nat row + dr ∧ 0 ≤ Z.of_nat col + dc ∧
    get_cell b' (Z.to_nat (Z.of_nat row + dr)) (Z.to_nat (Z.of_nat col + dc))
      = Ok 0.
Proof.
  intros H0 Hl Hin.
  apply (child_specs_elem _ _ _ _ _ _ Hl) in Hin as (dr & dc & Hm & Hb & Hsw).
  apply swap_cells_Ok in Hsw as (v1 & v2 & H1 & H2 & ->).
  assert (v2 = 0) as -> by congruence.
  pose proof (moves_adjacent row col dr dc mv n Hm Hb) as Hadj.
  apply in_bounds_spec in Hb.
  exists dr, dc. split_and!; [done| |lia|lia|].
  - unfold moves in Hm. rewrite !elem_of_cons, elem_of_nil in Hm.
    destruct Hm as [[= -> -> _]|[[= -> -> _]|[[= -> -> _]|[[= -> -> _]|[]]]]]; lia.
  - eapply get_set_cell_eq. rewrite get_set_cell_ne; [done|].
    by apply adjacent_ne.
Qed.

(** X13.  On a valid state, the states [get_successors] returns have
    pairwise different boards, and none of them has the board of the
    state itself. *)
Theorem successors_distinct h a s succs h' :
  h !! a = Some s → valid_board (size s) (board s) →
  get_successors a h = Ok (succs, h') →
  ∀ c1 c2 s1 s2,
    c1 ∈ succs → c2 ∈ succs → h' !! c1 = Some s1 → h' !! c2 = Some s2 →
    board s1 ≠ board s ∧ (c1 ≠ c2 → board s1 ≠ board s2).
Proof.
  intros Ha Hv Hsucc c1 c2 s1 s2 Hc1 Hc2 Hs1 Hs2.
  apply get_successors_Ok in Hsucc as (s' & row & col & l & Ha' & Hfe & Hl & -> & ->).
  assert (s' = s) as -> by congruence.
  apply find_empty_Some in Hfe as (_ & _ & H0).
  assert (∀ c sc, c ∈ seq (length h) (length l) →
            (h ++ (mk_child a s <$> l)) !! c = Some sc →
            ∃ mv, l !! (c - length h)%nat = Some (board sc, mv)) as Hchild.
  { intros c sc [Hge Hlt]%elem_of_seq Hsc.
    destruct (lookup_lt_is_Some_2 l (c - length h)) as [[b' mv] Hch]; [lia|].
    pose proof (child_lookup h a s l _ _ Hch) as Hlook.
    replace (length h + (c - length h))%nat with c in Hlook by lia.
    assert (sc = mk_child a s (b', mv)) as -> by congruence. by exists mv. }
  destruct (Hchild c1 s1 Hc1 Hs1) as (mv1 & Hl1).
  destruct (Hchild c2 s2 Hc2 Hs2) as (mv2 & Hl2).
  pose proof (list_elem_of_lookup_2 _ _ _ Hl1) as Hin1.
  pose proof (list_elem_of_lookup_2 _ _ _ Hl2) as Hin2.
  destruct (child_blank _ _ _ _ _ _ _ H0 Hl Hin1)
    as (dr1 & dc1 & Hm1 & Hne1 & Hr1 & Hcc1 & Hb1).
  destruct (child_blank _ _ _ _ _ _ _ H0 Hl Hin2)
    as (dr2 & dc2 & Hm2 & Hne2 & Hr2 & Hcc2 & Hb2).
  split.
  - intros Heq. rewrite Heq in Hb1.
    destruct (valid_cell_unique _ _ _ _ _ _ _ Hv H0 Hb1) as [? ?]. lia.
  - intros Hne Heq. rewrite Heq in Hb1.
    assert (valid_board (size s) (board s2)) as Hv2
      by (by eapply (child_valid _ _ _ _ _ (board s2) mv2 Hv Hl)).
    destruct (valid_cell_unique _ _ _ _ _ _ _ Hv2 Hb1 Hb2) as [? ?].
    assert (dr1 = dr2) as -> by lia. assert (dc1 = dc2) as -> by lia.
    assert (mv1 = mv2) as -> by (by eapply moves_names_inj).
    assert (NoDup l.*2) as Hnd.
    { rewrite (child_specs_moves _ _ _ _ _ _ Hl).
      apply NoDup_fmap_2_strong.
      - intros [[x1 y1] m1] [[x2 y2] m2] [_ Hx]%list_elem_of_filter
               [_ Hy]%list_elem_of_filter Hm. simpl in Hm. subst m2.
        unfold moves in Hx, Hy. rewrite !elem_of_cons, elem_of_nil in Hx, Hy.
        destruct Hx as [[= -> -> ->]|[[= -> -> ->]|[[= -> -> ->]|[[= -> -> ->]|[]]]]];
          destruct Hy as [[= <- <-]|[[= <- <-]|[[= <- <-]|[[= <- <-]|[]]]]]; done.
      - apply NoDup_filter. unfold moves.
        repeat (apply NoDup_cons; split; [set_solver|]). apply NoDup_nil_2. }
    apply Hne.
    assert ((c1 - length h)%nat = (c2 - length h)%nat) as Hidx.
    { eapply (NoDup_lookup l.*2); [done| |];
        rewrite list_lookup_fmap; [rewrite Hl1|rewrite Hl2]; done. }
    apply elem_of_seq in Hc1, Hc2. lia.
Qed.

Lemma successors_distinct_witness :
  board (mkPuzzleState [[0; 2]; [1; 3]] (Some 0%nat) (Some "UP") 1 1 2)
    ≠ [[1; 2]; [0; 3]] ∧
  ((1 ≠ 2)%nat →
   board (mkPuzzleState [[0; 2]; [1; 3]] (Some 0%nat) (Some "UP") 1 1 2)
   ≠ board (mkPuzzleState [[1; 2]; [3; 0]] (Some 0%nat) (Some "RIGHT") 1 1 2)).
Proof.
  apply (successors_distinct [initial_state [[1; 2]; [0; 3]]] 0
           (initial_state [[1; 2]; [0; 3]]) [1; 2]%nat
           [initial_state [[1; 2]; [0; 3]];
            mkPuzzleState [[0; 2]; [1; 3]] (Some 0%nat) (Some "UP") 1 1 2;
            mkPuzzleState [[1; 2]; [3; 0]] (Some 0%nat) (Some "RIGHT") 1 1 2]).
  - reflexivity.
  - split; [split; [reflexivity|repeat constructor]|].
    apply (bool_decide_unpack _). vm_compute. exact I.
  - reflexivity.
  - set_solver.
  - set_solver.
  - reflexivity.
  - reflexivity.
Defined.
